(** * OG HTTP gateway (src/gateway.ts): a shallow embedding and its properties

    The gateway is a single TypeScript file.  This development embeds, in
    order: the string helpers the code relies on (JavaScript strings seen
    as sequences of one-byte code units, as Node delivers header values;
    a wider code unit in a route parameter behaves as any other character
    that is not a hexadecimal digit), the regular expressions of the
    source with a derivative matcher, [parseRangeHeader], number
    formatting and [path.join], [isValidRootHash] and [safeName], the LRU
    index with its [dispose] callback, the single-flight [downloadToTmp]
    on an explicit event loop, the polling loop of
    [streamWhileDownloadingToRes], [makeETag],
    [tryDirectStreamFromIndexer] and the GET and HEAD handlers.  The
    properties the specification claims are settled in [Claims]; the
    modules after it cover the rest of the code: validators, the earlier
    revision of the helpers, the demo-page route and the page it serves,
    content types, the index and the lock table over whole runs, the
    streaming paths, and the service worker. *)

From Stdlib Require Import ZArith NArith Ascii String List Bool Lia.
From stdpp Require Import base tactics option list gmap strings.

Local Open Scope string_scope.

(* stdpp freezes [String.append] under [simpl]; the proofs below compute
   with it. *)
#[local] Arguments String.append !_ _ /.

(** ** JavaScript string primitives used by the gateway *)

Module Js.

Definition code (c : ascii) : N := N_of_ascii c.

Definition in_range (lo hi c : ascii) : bool :=
  ((code lo <=? code c) && (code c <=? code hi))%N.

(** [\d] *)
Definition is_digit (c : ascii) : bool := in_range "0" "9" c.

(** [[0-9a-fA-F]] *)
Definition is_hex (c : ascii) : bool :=
  is_digit c || in_range "a" "f" c || in_range "A" "F" c.

(** White space and line terminators stripped by [String.prototype.trim],
    restricted to code units below 256: TAB, LF, VT, FF, CR, SP, NBSP. *)
Definition is_space (c : ascii) : bool :=
  let n := code c in
  (((9 <=? n) && (n <=? 13)) || (n =? 32) || (n =? 160))%N.

(** [s.slice(n)] for a non-negative literal [n] *)
Fixpoint slice_from (n : nat) (s : string) : string :=
  match n, s with
  | O, _ => s
  | S _, EmptyString => EmptyString
  | S n', String _ r => slice_from n' r
  end.

(** [s.slice(0, n)] for a non-negative literal [n] *)
Fixpoint slice_to (n : nat) (s : string) : string :=
  match n, s with
  | O, _ => EmptyString
  | S _, EmptyString => EmptyString
  | S n', String c r => String c (slice_to n' r)
  end.

(** [s.replace(/[^CLASS]/g, '')]: every code unit outside the class is
    removed, the others are kept in order. *)
Fixpoint keep (p : ascii -> bool) (s : string) : string :=
  match s with
  | EmptyString => EmptyString
  | String c r => if p c then String c (keep p r) else keep p r
  end.

Fixpoint all (p : ascii -> bool) (s : string) : bool :=
  match s with
  | EmptyString => true
  | String c r => p c && all p r
  end.

Fixpoint any (p : ascii -> bool) (s : string) : bool :=
  match s with
  | EmptyString => false
  | String c r => p c || any p r
  end.

Definition is_empty (s : string) : bool :=
  match s with EmptyString => true | _ => false end.

Fixpoint trimStart (s : string) : string :=
  match s with
  | EmptyString => EmptyString
  | String c r => if is_space c then trimStart r else s
  end.

Fixpoint trimEnd (s : string) : string :=
  match s with
  | EmptyString => EmptyString
  | String c r =>
      let r' := trimEnd r in
      if is_space c && is_empty r' then EmptyString else String c r'
  end.

(** [s.trim()] *)
Definition trim (s : string) : string := trimEnd (trimStart s).

(** Longest prefix of [s] made of code units satisfying [p], and the rest. *)
Fixpoint span (p : ascii -> bool) (s : string) : string * string :=
  match s with
  | EmptyString => (EmptyString, EmptyString)
  | String c r =>
      if p c then let '(a, b) := span p r in (String c a, b)
      else (EmptyString, s)
  end.

Fixpoint strip_prefix (p s : string) : option string :=
  match p, s with
  | EmptyString, _ => Some s
  | String a p', String b s' =>
      if Ascii.eqb a b then strip_prefix p' s' else None
  | String _ _, EmptyString => None
  end.

(** [s.startsWith(p)] *)
Definition startsWith (s p : string) : bool :=
  match strip_prefix p s with
  | Some _ => true
  | None => false
  end.

Definition digit_val (c : ascii) : Z := Z.of_N (code c) - 48.

Fixpoint digits_val (acc : Z) (s : string) : Z :=
  match s with
  | EmptyString => acc
  | String c r => digits_val (10 * acc + digit_val c) r
  end.

(** [parseInt(s, 10)]: leading white space is skipped, one optional sign
    is read, then the longest run of decimal digits; [None] is [NaN] (no
    digit at all).  Numbers are mathematical integers: the gateway compares
    them with file sizes, which are far below 2^53, and on that side of
    2^53 double rounding never changes the outcome of a comparison. *)
Definition parseInt10 (s : string) : option Z :=
  let t := trimStart s in
  let '(neg, u) :=
    match t with
    | String "-" r => (true, r)
    | String "+" r => (false, r)
    | _ => (false, t)
    end in
  let '(ds, _) := span is_digit u in
  if is_empty ds then None
  else Some (if neg : bool then (- digits_val 0 ds)%Z else digits_val 0 ds).

(** *** Facts about the string primitives *)

Lemma all_app (p : ascii -> bool) (a b : string) :
  all p (a ++ b) = all p a && all p b.
Proof.
  induction a as [|c a IH]; simpl; [reflexivity|].
  rewrite IH. apply andb_assoc.
Qed.

Lemma is_empty_true (s : string) : is_empty s = true <-> s = "".
Proof. destruct s; simpl; split; intros; congruence. Qed.

Lemma is_empty_false (s : string) : is_empty s = false <-> s <> "".
Proof. destruct s; simpl; split; intros; congruence. Qed.

(** What [span] returns: a split of the input whose first part satisfies
    the class throughout and whose second part does not start in it. *)
Definition stops (p : ascii -> bool) (b : string) : Prop :=
  match b with
  | EmptyString => True
  | String c _ => p c = false
  end.

Lemma span_split (p : ascii -> bool) (s : string) :
  forall a b, span p s = (a, b) ->
              s = a ++ b /\ all p a = true /\ stops p b.
Proof.
  induction s as [|c s IH]; simpl; intros a b E.
  - injection E as <- <-. simpl. auto.
  - destruct (p c) eqn:Pc.
    + destruct (span p s) as [a' b'] eqn:Sp. injection E as <- <-.
      destruct (IH a' b' eq_refl) as (-> & Ha & Hb).
      simpl. rewrite Pc, Ha. auto.
    + injection E as <- <-. simpl. auto.
Qed.

Lemma span_app (p : ascii -> bool) (a b : string) :
  all p a = true -> stops p b -> span p (a ++ b) = (a, b).
Proof.
  induction a as [|c a IH]; simpl; intros Ha Hb.
  - destruct b as [|d b]; simpl in *; [reflexivity|]. rewrite Hb. reflexivity.
  - apply andb_true_iff in Ha as [Pc Ha]. rewrite Pc, IH; auto.
Qed.

Lemma strip_prefix_spec (p : string) :
  forall s r, strip_prefix p s = Some r <-> s = p ++ r.
Proof.
  induction p as [|a p IH]; intros s r; simpl.
  - split; intros E; congruence.
  - destruct s as [|b s].
    + split; intros E; discriminate.
    + destruct (Ascii.eqb a b) eqn:E.
      * apply Ascii.eqb_eq in E as ->. rewrite IH.
        split; intros E; congruence.
      * apply Ascii.eqb_neq in E.
        split; intros E'; [discriminate | congruence].
Qed.

Lemma startsWith_char (a c : ascii) (r : string) :
  startsWith (String c r) (String a "") = Ascii.eqb a c.
Proof.
  unfold startsWith. cbn [strip_prefix].
  destruct (Ascii.eqb a c); reflexivity.
Qed.

Lemma digit_code (c : ascii) :
  is_digit c = true <-> (48 <= code c <= 57)%N.
Proof.
  unfold is_digit, in_range. rewrite andb_true_iff, !N.leb_le.
  reflexivity.
Qed.

Lemma digit_not_space (c : ascii) : is_digit c = true -> is_space c = false.
Proof.
  rewrite digit_code. unfold is_space. intros H.
  destruct (9 <=? code c)%N eqn:E1, (code c <=? 13)%N eqn:E2,
           (code c =? 32)%N eqn:E3, (code c =? 160)%N eqn:E4; simpl;
    try reflexivity;
    rewrite ?N.leb_le, ?N.eqb_eq in *; lia.
Qed.

Lemma code_inj (c d : ascii) : code c = code d -> c = d.
Proof.
  unfold code. intros E.
  rewrite <- (ascii_N_embedding c), <- (ascii_N_embedding d), E.
  reflexivity.
Qed.

Lemma digit_not_sign (c : ascii) :
  is_digit c = true -> c <> "-"%char /\ c <> "+"%char.
Proof.
  rewrite digit_code. intros H.
  split; intros ->; vm_compute in H; destruct H as [H1 H2];
    try (apply H1; reflexivity); try (apply H2; reflexivity).
Qed.

Lemma digits_val_nonneg (s : string) :
  forall acc, all is_digit s = true -> (0 <= acc)%Z ->
              (0 <= digits_val acc s)%Z.
Proof.
  induction s as [|c s IH]; simpl; intros acc H Hacc; [lia|].
  apply andb_true_iff in H as [Hc Hs]. apply digit_code in Hc.
  apply IH; [assumption|]. unfold digit_val. lia.
Qed.

(** On a non-empty run of decimal digits [parseInt] reads the whole run. *)
Lemma parseInt10_digits (ds : string) :
  all is_digit ds = true -> ds <> "" ->
  parseInt10 ds = Some (digits_val 0 ds).
Proof.
  intros Hall Hne. destruct ds as [|c r]; [congruence|].
  pose proof Hall as Hall'. simpl in Hall'.
  apply andb_true_iff in Hall' as [Hc Hr].
  unfold parseInt10.
  assert (Ht : trimStart (String c r) = String c r).
  { simpl. rewrite (digit_not_space c Hc). reflexivity. }
  rewrite Ht.
  assert (Hsign : match String c r with
                  | String "-" r0 => (true, r0)
                  | String "+" r0 => (false, r0)
                  | _ => (false, String c r)
                  end = (false, String c r)).
  { destruct (digit_not_sign c Hc) as [N1 N2].
    destruct c as [[] [] [] [] [] [] [] []]; try reflexivity; congruence. }
  rewrite Hsign.
  replace (String c r) with (String c r ++ "") at 1
    by (clear; induction (String c r); simpl; congruence).
  rewrite (span_app is_digit (String c r) "" Hall I). reflexivity.
Qed.

Lemma startsWith_spec (s p : string) :
  startsWith s p = true <-> exists r, s = p ++ r.
Proof.
  unfold startsWith. split.
  - destruct (strip_prefix p s) as [r|] eqn:E; [|discriminate].
    intros _. exists r. apply strip_prefix_spec. assumption.
  - intros [r E]. apply strip_prefix_spec in E. rewrite E. reflexivity.
Qed.

Lemma keep_all (p : ascii -> bool) (s : string) : all p (keep p s) = true.
Proof.
  induction s as [|c s IH]; simpl; [reflexivity|].
  destruct (p c) eqn:E; simpl; [rewrite E|]; assumption.
Qed.

Lemma keep_id (p : ascii -> bool) (s : string) :
  all p s = true -> keep p s = s.
Proof.
  induction s as [|c s IH]; simpl; intros H; [reflexivity|].
  apply andb_true_iff in H as [Pc H]. rewrite Pc, IH; auto.
Qed.

Lemma keep_empty (p : ascii -> bool) (s : string) :
  is_empty (keep p s) = negb (any p s).
Proof.
  induction s as [|c s IH]; simpl; [reflexivity|].
  destruct (p c); simpl; [reflexivity | assumption].
Qed.

Lemma slice_to_all (p : ascii -> bool) (n : nat) :
  forall s, all p s = true -> all p (slice_to n s) = true.
Proof.
  induction n as [|n IH]; intros [|c s]; simpl; intros H; try reflexivity.
  apply andb_true_iff in H as [Pc H]. rewrite Pc, IH; auto.
Qed.

Lemma slice_to_length (n : nat) :
  forall s, (String.length (slice_to n s) <= n)%nat.
Proof.
  induction n as [|n IH]; intros [|c s]; simpl; try lia.
  specialize (IH s). lia.
Qed.

Lemma slice_to_short (n : nat) :
  forall s, (String.length s <= n)%nat -> slice_to n s = s.
Proof.
  induction n as [|n IH]; intros [|c s]; simpl; intros H;
    try reflexivity; try lia.
  rewrite IH; [reflexivity | lia].
Qed.

Lemma slice_to_empty (n : nat) (s : string) :
  is_empty (slice_to (S n) s) = is_empty s.
Proof. destruct s; reflexivity. Qed.

Lemma nonempty_length (s : string) :
  is_empty s = false -> (1 <= String.length s)%nat.
Proof. destruct s; simpl; [discriminate | lia]. Qed.

Lemma all_impl (p q : ascii -> bool) (s : string) :
  (forall c, p c = true -> q c = true) -> all p s = true -> all q s = true.
Proof.
  intros Hpq. induction s as [|c s IH]; simpl; intros H; [reflexivity|].
  apply andb_true_iff in H as [Pc H]. rewrite (Hpq c Pc), IH; auto.
Qed.

Lemma hex_code (c : ascii) :
  is_hex c = true <->
  (48 <= code c <= 57 \/ 97 <= code c <= 102 \/ 65 <= code c <= 70)%N.
Proof.
  unfold is_hex, is_digit, in_range.
  rewrite !orb_true_iff, !andb_true_iff, !N.leb_le. tauto.
Qed.

End Js.

(** ** Regular expressions

    The source tests whole strings ([^...$], no [m] flag), so a pattern is
    matched against the entire input. *)

Module Regex.

Inductive regex : Type :=
| Void
| Eps
| Chr (c : ascii)
| Cls (p : ascii -> bool)
| Alt (r s : regex)
| Seq (r s : regex)
| Star (r : regex).

Definition Plus (r : regex) : regex := Seq r (Star r).

Fixpoint Times (n : nat) (r : regex) : regex :=
  match n with
  | O => Eps
  | S n' => Seq r (Times n' r)
  end.

Fixpoint Word (w : string) : regex :=
  match w with
  | EmptyString => Eps
  | String c r => Seq (Chr c) (Word r)
  end.

Inductive matches : regex -> string -> Prop :=
| m_eps : matches Eps ""
| m_chr c : matches (Chr c) (String c "")
| m_cls p c : p c = true -> matches (Cls p) (String c "")
| m_alt_l r s u : matches r u -> matches (Alt r s) u
| m_alt_r r s u : matches s u -> matches (Alt r s) u
| m_seq r s u v : matches r u -> matches s v -> matches (Seq r s) (u ++ v)
| m_star_nil r : matches (Star r) ""
| m_star_cons r u v :
    matches r u -> matches (Star r) v -> matches (Star r) (u ++ v).

Fixpoint nullable (r : regex) : bool :=
  match r with
  | Void => false
  | Eps => true
  | Chr _ => false
  | Cls _ => false
  | Alt r s => nullable r || nullable s
  | Seq r s => nullable r && nullable s
  | Star _ => true
  end.

Fixpoint deriv (c : ascii) (r : regex) : regex :=
  match r with
  | Void => Void
  | Eps => Void
  | Chr d => if Ascii.eqb c d then Eps else Void
  | Cls p => if p c then Eps else Void
  | Alt r s => Alt (deriv c r) (deriv c s)
  | Seq r s =>
      if nullable r then Alt (Seq (deriv c r) s) (deriv c s)
      else Seq (deriv c r) s
  | Star r => Seq (deriv c r) (Star r)
  end.

(** [re.test(s)] for an anchored pattern *)
Fixpoint test (r : regex) (s : string) : bool :=
  match s with
  | EmptyString => nullable r
  | String c s' => test (deriv c r) s'
  end.

Lemma app_empty_inv (u v : string) : u ++ v = "" -> u = "" /\ v = "".
Proof. destruct u; simpl; intros E; [auto | discriminate]. Qed.

Lemma nullable_matches (r : regex) : nullable r = true -> matches r "".
Proof.
  induction r; simpl; intros N; try discriminate.
  - constructor.
  - apply orb_true_iff in N as [N | N]; [apply m_alt_l | apply m_alt_r]; auto.
  - apply andb_true_iff in N as [N1 N2].
    change "" with ("" ++ ""). apply m_seq; auto.
  - constructor.
Qed.

Lemma matches_nullable (r : regex) (w : string) :
  matches r w -> w = "" -> nullable r = true.
Proof.
  induction 1; simpl; intros E; try discriminate; auto.
  - rewrite IHmatches; auto.
  - rewrite IHmatches; auto using orb_true_r.
  - apply app_empty_inv in E as [-> ->]. rewrite IHmatches1, IHmatches2; auto.
Qed.

Lemma matches_deriv (r : regex) (w : string) :
  matches r w -> forall c s, w = String c s -> matches (deriv c r) s.
Proof.
  induction 1; intros c0 s0 E; simpl.
  - discriminate.
  - injection E as -> <-. rewrite Ascii.eqb_refl. constructor.
  - injection E as -> <-. rewrite H. constructor.
  - apply m_alt_l; auto.
  - apply m_alt_r; auto.
  - destruct u as [|a u]; simpl in E.
    + subst v. rewrite (matches_nullable r "" H eq_refl).
      apply m_alt_r; auto.
    + injection E as -> <-.
      destruct (nullable r); [apply m_alt_l|]; apply m_seq; auto.
  - discriminate.
  - destruct u as [|a u]; simpl in E.
    + apply (IHmatches2 c0 s0 E).
    + injection E as -> <-. apply m_seq; auto.
Qed.

Lemma deriv_matches (r : regex) :
  forall c s, matches (deriv c r) s -> matches r (String c s).
Proof.
  induction r; simpl; intros c0 s0 M.
  - inversion M.
  - inversion M.
  - destruct (Ascii.eqb c0 c) eqn:E; inversion M; subst.
    apply Ascii.eqb_eq in E; subst. constructor.
  - destruct (p c0) eqn:E; inversion M; subst. constructor; auto.
  - inversion M; subst; [apply m_alt_l | apply m_alt_r]; auto.
  - assert (S1 : forall w, matches (Seq (deriv c0 r1) r2) w ->
                           matches (Seq r1 r2) (String c0 w)).
    { intros w Mw. inversion Mw; subst.
      change (String c0 (u ++ v)) with (String c0 u ++ v).
      apply m_seq; auto. }
    destruct (nullable r1) eqn:N; [|auto].
    inversion M; subst; [auto|].
    change (String c0 s0) with ("" ++ String c0 s0).
    apply m_seq; auto using nullable_matches.
  - inversion M; subst.
    change (String c0 (u ++ v)) with (String c0 u ++ v).
    apply m_star_cons; auto.
Qed.

Lemma matches_word (w : string) : forall s, matches (Word w) s <-> s = w.
Proof.
  induction w as [|c w IH]; intros s; simpl.
  - split; intros M; [inversion M | subst]; auto using matches.
  - split; intros M.
    + inversion M as [| | | | |? ? u v Mu Mv| |]; subst.
      inversion Mu; subst. apply IH in Mv. subst. reflexivity.
    + subst. change (String c w) with (String c "" ++ w).
      apply m_seq; [constructor | apply IH; reflexivity].
Qed.

Lemma matches_star_cls (p : ascii -> bool) (s : string) :
  matches (Star (Cls p)) s <-> Js.all p s = true.
Proof.
  split.
  - intros M. remember (Star (Cls p)) as r eqn:R.
    induction M; try discriminate; injection R as ->; [reflexivity|].
    inversion M1; subst. simpl. rewrite IHM2; auto.
    rewrite andb_true_r. assumption.
  - induction s as [|c s IH]; simpl; intros H; [constructor|].
    apply andb_true_iff in H as [Hc Hs].
    change (String c s) with (String c "" ++ s).
    apply m_star_cons; [constructor|]; auto.
Qed.

Lemma matches_seq_chr (c : ascii) (r : regex) (s : string) :
  matches (Seq (Chr c) r) s <-> exists t, s = String c t /\ matches r t.
Proof.
  split.
  - intros M. inversion M as [| | | | |? ? u v Mu Mv| |]; subst.
    inversion Mu; subst. exists v. auto.
  - intros (t & -> & M). change (String c t) with (String c "" ++ t).
    apply m_seq; [constructor | assumption].
Qed.

Lemma matches_times_cls (p : ascii -> bool) (n : nat) :
  forall s, matches (Times n (Cls p)) s <->
            String.length s = n /\ Js.all p s = true.
Proof.
  induction n as [|n IH]; intros s; simpl.
  - split.
    + intros M. inversion M. auto.
    + intros [L _]. destruct s; [constructor | discriminate].
  - split.
    + intros M. inversion M as [| | | | |? ? u v Mu Mv| |]; subst.
      inversion Mu; subst. apply IH in Mv as [L A].
      simpl. rewrite L, A.
      split; [reflexivity|]. rewrite andb_true_r. assumption.
    + intros [L A]. destruct s as [|c s]; [discriminate|].
      simpl in *. apply andb_true_iff in A as [Pc A].
      change (String c s) with (String c "" ++ s).
      apply m_seq; [constructor; assumption|].
      apply IH. split; congruence.
Qed.

Lemma matches_plus_cls (p : ascii -> bool) (s : string) :
  matches (Plus (Cls p)) s <-> s <> "" /\ Js.all p s = true.
Proof.
  unfold Plus. split.
  - intros M. inversion M as [| | | | |? ? u v Mu Mv| |]; subst.
    inversion Mu; subst. apply matches_star_cls in Mv.
    simpl. split; [discriminate|]. rewrite Mv. rewrite andb_true_r. assumption.
  - intros [N A]. destruct s as [|c s]; [congruence|].
    simpl in A. apply andb_true_iff in A as [Pc A].
    change (String c s) with (String c "" ++ s).
    apply m_seq; [constructor; assumption | apply matches_star_cls; assumption].
Qed.

(** The derivative matcher decides the declarative semantics. *)
Lemma test_spec (s : string) : forall r, test r s = true <-> matches r s.
Proof.
  induction s as [|c s IH]; intros r; simpl.
  - split; [apply nullable_matches | intros M; eapply matches_nullable; eauto].
  - rewrite IH. split; [apply deriv_matches|].
    intros M. eapply matches_deriv; eauto.
Qed.

End Regex.

(** ** Range negotiation: [parseRangeHeader] *)

Module Range.
Import Js Regex.

Local Open Scope Z_scope.

(** The pattern of [parseRangeHeader]: the word [bytes=], a first group of
    zero or more decimal digits, a dash, a second group of zero or more
    decimal digits, anchored at both ends. *)
Definition range_re : regex :=
  Seq (Word "bytes=")
      (Seq (Star (Cls is_digit)) (Seq (Chr "-") (Star (Cls is_digit)))).

(** [range_re.exec(s)]: [None] when the pattern does not match, otherwise
    the two captured groups [m[1]] and [m[2]]. *)
Definition exec_range (s : string) : option (string * string) :=
  match strip_prefix "bytes=" s with
  | None => None
  | Some r =>
      let '(first, r1) := span is_digit r in
      match r1 with
      | String c r2 =>
          if Ascii.eqb c "-" then
            let '(last, r3) := span is_digit r2 in
            if is_empty r3 then Some (first, last) else None
          else None
      | EmptyString => None
      end
  end.

(** The object [{ start, end }] returned by [parseRangeHeader]. *)
Record window : Type := Window { start : Z; end_ : Z }.

(** [parseRangeHeader(rangeHeader, fileSize)]; [None] is [null] and an
    absent header is [undefined]. *)
Definition parseRangeHeader (rangeHeader : option string) (fileSize : Z)
  : option window :=
  match rangeHeader with
  | None => None
  | Some h =>
      if is_empty h then None
      else
        match exec_range (trim h) with
        | None => None
        | Some (first, last) =>
            if is_empty first && is_empty last then None
            else if is_empty first then
              match parseInt10 last with
              | None => None
              | Some suffixLen =>
                  if suffixLen <=? 0 then None
                  else Some (Window (Z.max 0 (fileSize - suffixLen))
                                    (fileSize - 1))
              end
            else
              match parseInt10 first,
                    (if is_empty last then Some (fileSize - 1)
                     else parseInt10 last) with
              | Some s, Some e =>
                  if s >? e then None
                  else if (s <? 0) || (s >=? fileSize) then None
                  else Some (Window s (Z.min e (fileSize - 1)))
              | _, _ => None
              end
        end
  end.

(** *** The pattern and its captured groups *)

Lemma app_empty_r (s : string) : s ++ "" = s.
Proof. induction s; simpl; congruence. Qed.

Lemma exec_range_spec (s a b : string) :
  exec_range s = Some (a, b) <->
  s = "bytes=" ++ a ++ "-" ++ b /\
  all is_digit a = true /\ all is_digit b = true.
Proof.
  unfold exec_range. split.
  - destruct (strip_prefix "bytes=" s) as [r|] eqn:P; [|discriminate].
    apply strip_prefix_spec in P.
    destruct (span is_digit r) as [first r1] eqn:S1.
    apply span_split in S1 as (Hr & Hfirst & _).
    destruct r1 as [|c r2]; [discriminate|].
    destruct (Ascii.eqb c "-") eqn:Ec; [|discriminate].
    apply Ascii.eqb_eq in Ec. subst c.
    destruct (span is_digit r2) as [last r3] eqn:S2.
    apply span_split in S2 as (Hr2 & Hlast & _).
    destruct r3; [|discriminate]. simpl.
    intros E. injection E as <- <-.
    rewrite app_empty_r in Hr2. subst. auto.
  - intros (-> & Ha & Hb).
    assert (P : strip_prefix "bytes=" ("bytes=" ++ a ++ "-" ++ b)
                = Some (a ++ "-" ++ b))
      by (apply strip_prefix_spec; reflexivity).
    rewrite P.
    rewrite (span_app is_digit a ("-" ++ b) Ha eq_refl). simpl.
    rewrite <- (app_empty_r b) at 1.
    rewrite (span_app is_digit b "" Hb I). reflexivity.
Qed.

(** [exec_range] succeeds exactly on the strings the pattern matches. *)
Lemma exec_range_matches (s : string) :
  is_Some (exec_range s) <-> matches range_re s.
Proof.
  split.
  - intros [[a b] E]. apply exec_range_spec in E as (-> & Ha & Hb).
    unfold range_re.
    apply m_seq; [apply matches_word; reflexivity|].
    apply m_seq; [apply matches_star_cls; assumption|].
    apply m_seq; [constructor | apply matches_star_cls; assumption].
  - unfold range_re. intros M.
    inversion M as [| | | | |? ? u v Mu Mv| |]; subst.
    apply (matches_word "bytes=") in Mu. subst u.
    inversion Mv as [| | | | |? ? a w Ma Mw| |]; subst.
    inversion Mw as [| | | | |? ? d b Md Mb| |]; subst.
    inversion Md; subst.
    apply matches_star_cls in Ma, Mb.
    exists (a, b). apply exec_range_spec. auto.
Qed.

Lemma test_range_re (s : string) :
  test range_re s = true <-> is_Some (exec_range s).
Proof. rewrite test_spec. symmetry. apply exec_range_matches. Qed.

(** *** The three textual forms

    The forms [start-end], [start-] and [-suffixLength] of the design, as
    readings of a header text; rejection and selection per form. *)

Inductive form : Type :=
| StartEnd (s e : Z)
| StartOpen (s : Z)
| SuffixLen (n : Z).

Definition reads_as (h : string) (f : form) : Prop :=
  exists a b,
    trim h = "bytes=" ++ a ++ "-" ++ b /\
    all is_digit a = true /\ all is_digit b = true /\
    match f with
    | StartEnd s e =>
        a <> "" /\ b <> "" /\ s = digits_val 0 a /\ e = digits_val 0 b
    | StartOpen s => a <> "" /\ b = "" /\ s = digits_val 0 a
    | SuffixLen n => a = "" /\ b <> "" /\ n = digits_val 0 b
    end.

Definition well_formed (h : string) : Prop := exists f, reads_as h f.

Definition rejected (f : form) (totalSize : Z) : Prop :=
  match f with
  | StartEnd s e => s > e \/ s >= totalSize
  | StartOpen s => s >= totalSize
  | SuffixLen n => n <= 0
  end.

Definition selected (f : form) (totalSize : Z) : window :=
  match f with
  | StartEnd s e => Window s (Z.min e (totalSize - 1))
  | StartOpen s => Window s (totalSize - 1)
  | SuffixLen n => Window (Z.max 0 (totalSize - n)) (totalSize - 1)
  end.

Lemma reads_as_functional (h : string) (f g : form) :
  reads_as h f -> reads_as h g -> f = g.
Proof.
  intros (a & b & E & Ha & Hb & Hf) (a' & b' & E' & Ha' & Hb' & Hg).
  assert (X : Some (a, b) = Some (a', b')).
  { rewrite <- (proj2 (exec_range_spec (trim h) a b)) by auto.
    apply exec_range_spec. auto. }
  injection X as <- <-.
  destruct f, g; intuition (subst; congruence).
Qed.

(** What [parseRangeHeader] computes on a header of each form. *)
Lemma parse_form (h : string) (f : form) (fileSize : Z) :
  reads_as h f ->
  parseRangeHeader (Some h) fileSize =
  match f with
  | StartEnd s e =>
      if s >? e then None
      else if s >=? fileSize then None
      else Some (selected f fileSize)
  | StartOpen s =>
      if s >=? fileSize then None else Some (selected f fileSize)
  | SuffixLen n =>
      if n <=? 0 then None else Some (selected f fileSize)
  end.
Proof.
  intros (a & b & E & Ha & Hb & Hf).
  assert (Hh : is_empty h = false).
  { destruct h; [|reflexivity]. discriminate E. }
  assert (X : exec_range (trim h) = Some (a, b))
    by (apply exec_range_spec; auto).
  unfold parseRangeHeader. rewrite Hh, X.
  destruct f as [s e|s|n]; simpl.
  - destruct Hf as (Na & Nb & -> & ->).
    rewrite (proj2 (is_empty_false a) Na), (proj2 (is_empty_false b) Nb).
    simpl. rewrite !parseInt10_digits by assumption.
    pose proof (digits_val_nonneg a 0 Ha ltac:(lia)) as P.
    destruct (digits_val 0 a >? digits_val 0 b); [reflexivity|].
    replace (digits_val 0 a <? 0) with false by (symmetry; apply Z.ltb_ge; lia).
    reflexivity.
  - destruct Hf as (Na & -> & ->).
    rewrite (proj2 (is_empty_false a) Na). simpl.
    rewrite parseInt10_digits by assumption.
    pose proof (digits_val_nonneg a 0 Ha ltac:(lia)) as P.
    destruct (digits_val 0 a >=? fileSize) eqn:G.
    + destruct (digits_val 0 a >? fileSize - 1); [reflexivity|].
      rewrite orb_true_r. reflexivity.
    + replace (digits_val 0 a >? fileSize - 1) with false by lia.
      replace (digits_val 0 a <? 0) with false by lia.
      simpl. rewrite Z.min_id. reflexivity.
  - destruct Hf as (-> & Nb & ->).
    rewrite (proj2 (is_empty_false b) Nb). simpl.
    rewrite parseInt10_digits by assumption. reflexivity.
Qed.

(** A header that has none of the three forms is rejected. *)
Lemma parse_ill_formed (h : string) (fileSize : Z) :
  ~ well_formed h -> parseRangeHeader (Some h) fileSize = None.
Proof.
  intros N. unfold parseRangeHeader.
  destruct (is_empty h); [reflexivity|].
  destruct (exec_range (trim h)) as [[a b]|] eqn:X; [|reflexivity].
  apply exec_range_spec in X as (E & Ha & Hb).
  destruct (is_empty a) eqn:Ea, (is_empty b) eqn:Eb; simpl; try reflexivity;
    exfalso; apply N;
    rewrite ?is_empty_true, ?is_empty_false in *.
  - exists (SuffixLen (digits_val 0 b)), a, b. auto 10.
  - exists (StartOpen (digits_val 0 a)), a, b. auto 10.
  - exists (StartEnd (digits_val 0 a) (digits_val 0 b)), a, b. auto 10.
Qed.

(** The form of a header, computed. *)
Definition read_form (h : string) : option form :=
  match exec_range (trim h) with
  | None => None
  | Some (a, b) =>
      match is_empty a, is_empty b with
      | true, true => None
      | true, false => Some (SuffixLen (digits_val 0 b))
      | false, true => Some (StartOpen (digits_val 0 a))
      | false, false => Some (StartEnd (digits_val 0 a) (digits_val 0 b))
      end
  end.

Lemma read_form_spec (h : string) (f : form) :
  read_form h = Some f <-> reads_as h f.
Proof.
  unfold read_form. split.
  - destruct (exec_range (trim h)) as [[a b]|] eqn:X; [|discriminate].
    apply exec_range_spec in X as (E & Ha & Hb).
    destruct (is_empty a) eqn:Ea, (is_empty b) eqn:Eb; try discriminate;
      intros F; injection F as <-; exists a, b;
      rewrite ?is_empty_true, ?is_empty_false in *; auto 10.
  - intros (a & b & E & Ha & Hb & Hf).
    rewrite (proj2 (exec_range_spec (trim h) a b)) by auto.
    destruct f; simpl in Hf.
    + destruct Hf as (Na & Nb & -> & ->).
      apply is_empty_false in Na, Nb. rewrite Na, Nb. reflexivity.
    + destruct Hf as (Na & -> & ->).
      apply is_empty_false in Na. rewrite Na. reflexivity.
    + destruct Hf as (-> & Nb & ->).
      apply is_empty_false in Nb. rewrite Nb. reflexivity.
Qed.

Lemma well_formed_dec (h : string) : well_formed h \/ ~ well_formed h.
Proof.
  destruct (read_form h) as [f|] eqn:R.
  - left. exists f. apply read_form_spec. assumption.
  - right. intros [f F]. apply read_form_spec in F. congruence.
Qed.

Lemma rejected_dec (f : form) (totalSize : Z) :
  rejected f totalSize \/ ~ rejected f totalSize.
Proof. destruct f; simpl; lia. Qed.

(** The header is rejected exactly when it has none of the three forms,
    or it has one and that form is rejected for the object's size. *)
Lemma parseRangeHeader_rejects_iff (h : string) (fileSize : Z) :
  parseRangeHeader (Some h) fileSize = None <->
  ~ well_formed h \/ exists f, reads_as h f /\ rejected f fileSize.
Proof.
  split.
  - intros P. destruct (well_formed_dec h) as [[f F]|N]; [right | left; exact N].
    exists f. split; [assumption|].
    rewrite (parse_form h f fileSize F) in P.
    destruct f as [s e|s|n]; simpl.
    + destruct (s >? e) eqn:G1; [lia|].
      destruct (s >=? fileSize) eqn:G2; [lia | discriminate].
    + destruct (s >=? fileSize) eqn:G; [lia | discriminate].
    + destruct (n <=? 0) eqn:G; [lia | discriminate].
  - intros [N | (f & F & R)]; [apply parse_ill_formed; assumption|].
    rewrite (parse_form h f fileSize F).
    destruct f as [s e|s|n]; simpl in R.
    + destruct (s >? e) eqn:G1; [reflexivity|].
      destruct (s >=? fileSize) eqn:G2; [reflexivity | lia].
    + destruct (s >=? fileSize) eqn:G; [reflexivity | lia].
    + destruct (n <=? 0) eqn:G; [reflexivity | lia].
Qed.

(** An accepted header yields the selection of its form, with [end]
    clamped to [fileSize - 1]. *)
Lemma parseRangeHeader_accepts (h : string) (fileSize : Z) (w : window) :
  parseRangeHeader (Some h) fileSize = Some w ->
  exists f, reads_as h f /\ ~ rejected f fileSize /\ w = selected f fileSize.
Proof.
  intros P. destruct (well_formed_dec h) as [[f F]|N].
  - exists f. split; [assumption|].
    destruct (rejected_dec f fileSize) as [R|R].
    + assert (parseRangeHeader (Some h) fileSize = None) as Q
        by (apply parseRangeHeader_rejects_iff; eauto).
      congruence.
    + split; [assumption|].
      rewrite (parse_form h f fileSize F) in P.
      destruct f as [s e|s|n]; simpl in *.
      * destruct (s >? e); [discriminate|].
        destruct (s >=? fileSize); congruence.
      * destruct (s >=? fileSize); congruence.
      * destruct (n <=? 0); congruence.
  - rewrite (parse_ill_formed h fileSize N) in P. discriminate.
Qed.

(** On a non-empty object every accepted window lies inside the object. *)
Lemma window_within_object (hdr : option string) (fileSize : Z) (w : window) :
  0 < fileSize ->
  parseRangeHeader hdr fileSize = Some w ->
  0 <= start w <= end_ w /\ end_ w < fileSize.
Proof.
  intros Hsize P. destruct hdr as [h|]; [|discriminate].
  apply parseRangeHeader_accepts in P as (f & F & R & ->).
  destruct F as (a & b & _ & Ha & Hb & Hf).
  pose proof (digits_val_nonneg a 0 Ha ltac:(lia)) as Pa.
  pose proof (digits_val_nonneg b 0 Hb ltac:(lia)) as Pb.
  destruct f as [s e|s|n]; simpl in *; intuition (subst; lia).
Qed.

Example range_first_100 :
  parseRangeHeader (Some "bytes=0-99") 1000 = Some (Window 0 99).
Proof. reflexivity. Qed.

Example range_open_ended :
  parseRangeHeader (Some "bytes=900-") 1000 = Some (Window 900 999).
Proof. reflexivity. Qed.

Example range_suffix :
  parseRangeHeader (Some "bytes=-100") 1000 = Some (Window 900 999).
Proof. reflexivity. Qed.

Example range_beyond_end :
  parseRangeHeader (Some "bytes=2000-3000") 1000 = None.
Proof. reflexivity. Qed.

Example range_clamped :
  parseRangeHeader (Some "  bytes=990-5000 ") 1000 = Some (Window 990 999).
Proof. reflexivity. Qed.

Example range_no_unit : parseRangeHeader (Some "0-99") 1000 = None.
Proof. reflexivity. Qed.

Example range_only_dash : parseRangeHeader (Some "bytes=-") 1000 = None.
Proof. reflexivity. Qed.

Example range_reversed : parseRangeHeader (Some "bytes=5-3") 1000 = None.
Proof. reflexivity. Qed.

Example range_zero_suffix : parseRangeHeader (Some "bytes=-0") 1000 = None.
Proof. reflexivity. Qed.

End Range.

(** ** Number rendering: [Number.prototype.toString(radix)] *)

Module Radix.
Import Js.

Local Open Scope N_scope.

(** Digit [d] of a radix up to 36: [0-9] then [a-z]. *)
Definition digit (d : N) : ascii :=
  if d <? 10 then ascii_of_N (48 + d) else ascii_of_N (87 + d).

Fixpoint render (fuel : nat) (radix n : N) (acc : string) : string :=
  match fuel with
  | O => acc
  | S fuel' =>
      let acc' := String (digit (n mod radix)) acc in
      if n / radix =? 0 then acc' else render fuel' radix (n / radix) acc'
  end.

(** [n.toString(radix)] for a non-negative integer [n]; the number of
    binary digits of [n] bounds the number of digits in any radix. *)
Definition toString (radix n : N) : string :=
  render (S (N.size_nat n)) radix n "".

(** [[0-9a-z]] *)
Definition is_base36 (c : ascii) : bool := is_digit c || in_range "a" "z" c.

Lemma base36_code (c : ascii) :
  is_base36 c = true <-> 48 <= code c <= 57 \/ 97 <= code c <= 122.
Proof.
  unfold is_base36, is_digit, in_range.
  rewrite orb_true_iff, !andb_true_iff, !N.leb_le. reflexivity.
Qed.

Lemma digit_base36 (d : N) : d < 36 -> is_base36 (digit d) = true.
Proof.
  intros H. apply base36_code. unfold digit, code.
  destruct (d <? 10) eqn:E.
  - apply N.ltb_lt in E. rewrite N_ascii_embedding by lia. lia.
  - apply N.ltb_ge in E. rewrite N_ascii_embedding by lia. lia.
Qed.

Lemma render_base36 (radix : N) (fuel : nat) :
  0 < radix <= 36 ->
  forall n acc, all is_base36 acc = true ->
                all is_base36 (render fuel radix n acc) = true.
Proof.
  intros Hr. induction fuel as [|fuel IH]; simpl; intros n acc Hacc; [assumption|].
  assert (Hd : is_base36 (digit (n mod radix)) = true).
  { apply digit_base36. pose proof (N.mod_lt n radix). lia. }
  destruct (n / radix =? 0).
  - simpl. rewrite Hd, Hacc. reflexivity.
  - apply IH. simpl. rewrite Hd, Hacc. reflexivity.
Qed.

Lemma render_keeps_acc (radix : N) (fuel : nat) :
  forall n acc, acc <> ""%string -> render fuel radix n acc <> ""%string.
Proof.
  induction fuel as [|fuel IH]; simpl; intros n acc Hacc; [assumption|].
  destruct (n / radix =? 0); [discriminate|]. apply IH. discriminate.
Qed.

Lemma toString_nonempty (radix n : N) : toString radix n <> ""%string.
Proof.
  unfold toString. simpl.
  destruct (n / radix =? 0); [discriminate|].
  apply render_keeps_acc. discriminate.
Qed.

Lemma toString_base36 (radix n : N) :
  0 < radix <= 36 -> all is_base36 (toString radix n) = true.
Proof. intros Hr. apply render_base36; [assumption | reflexivity]. Qed.

Lemma render_length (radix : N) (fuel : nat) :
  forall n acc,
    (String.length (render fuel radix n acc) <= fuel + String.length acc)%nat.
Proof.
  induction fuel as [|fuel IH]; simpl; intros n acc; [lia|].
  destruct (n / radix =? 0); simpl; [lia|].
  specialize (IH (n / radix) (String (digit (n mod radix)) acc)).
  simpl in IH. lia.
Qed.

(** [Date.now()] is an integer below 2^53; in any radix it has at most 54
    digits (in radix 36, at most 11). *)
Lemma toString_length (radix n : N) :
  n < 2 ^ 53 -> (1 <= String.length (toString radix n) <= 55)%nat.
Proof.
  intros H. split.
  - pose proof (toString_nonempty radix n) as E.
    destruct (toString radix n); [congruence | simpl; lia].
  - unfold toString.
    pose proof (render_length radix (S (N.size_nat n)) n "") as L.
    cbn [String.length] in L.
    assert (N.size_nat n <= 54)%nat; [|lia].
    destruct n as [|p]; simpl; [lia|].
    assert (Hp : (p < 2 ^ 53)%positive) by lia.
    apply Pos.size_nat_monotone in Hp.
    change (Pos.size_nat (2 ^ 53)) with 54%nat in Hp. exact Hp.
Qed.

Example toString16_255 : toString 16 255 = "ff"%string.
Proof. reflexivity. Qed.

Example toString36_date : toString 36 1730000000000 = "m2r1bz7k"%string.
Proof. vm_compute. reflexivity. Qed.

End Radix.

(** ** Paths: [path.join] (POSIX flavour) *)

Module Path.
Import Js.

(** The pieces of a path between slashes. *)
Fixpoint segments (s : string) : list string :=
  match s with
  | EmptyString => [EmptyString]
  | String c r =>
      if Ascii.eqb c "/" then EmptyString :: segments r
      else
        match segments r with
        | x :: xs => String c x :: xs
        | [] => [String c EmptyString]
        end
  end.

Definition isAbsolute (s : string) : bool := startsWith s "/".

(** Node's [normalizeString] on segments: empty and [.] segments vanish,
    [..] removes the segment before it; above the start of a relative path
    ([allowAbove]) it is kept, above the root it is dropped.  [stack] holds
    the segments kept so far, last first. *)
Fixpoint resolve (allowAbove : bool) (segs stack : list string)
  : list string :=
  match segs with
  | [] => rev stack
  | seg :: rest =>
      if String.eqb seg "" || String.eqb seg "." then
        resolve allowAbove rest stack
      else if String.eqb seg ".." then
        match stack with
        | top :: below =>
            if String.eqb top ".." then resolve allowAbove rest (seg :: stack)
            else resolve allowAbove rest below
        | [] =>
            if allowAbove then resolve allowAbove rest [seg]
            else resolve allowAbove rest []
        end
      else resolve allowAbove rest (seg :: stack)
  end.

(** The segments of [path.normalize(p)]. *)
Definition normalize (p : string) : list string :=
  resolve (negb (isAbsolute p)) (segments p) [].

(** The segments of [path.join(dir, name)]: empty arguments are skipped,
    the others are glued with a slash and the result is normalized. *)
Definition join (dir name : string) : list string :=
  let joined :=
    if is_empty dir then name
    else if is_empty name then dir
    else dir ++ "/" ++ name in
  normalize joined.

(** A file name that is a single path segment: not empty, and free of
    slashes, backslashes and dots. *)
Definition name_char (c : ascii) : bool :=
  negb (Ascii.eqb c "/") && negb (Ascii.eqb c "\") && negb (Ascii.eqb c ".").

Definition plain_name (s : string) : Prop :=
  s <> "" /\ all name_char s = true.

Example join_tmp : join "/tmp/og-gateway-tmp" "ab12" = ["tmp"; "og-gateway-tmp"; "ab12"].
Proof. reflexivity. Qed.

Example join_escape : join "/tmp/og-gateway-tmp" "../../etc/passwd" = ["etc"; "passwd"].
Proof. reflexivity. Qed.

Lemma segments_nonempty (s : string) : segments s <> [].
Proof.
  destruct s as [|c r]; simpl; [discriminate|].
  destruct (Ascii.eqb c "/"); [discriminate|].
  destruct (segments r); discriminate.
Qed.

Lemma segments_plain (s : string) :
  all name_char s = true -> segments s = [s].
Proof.
  induction s as [|c r IH]; simpl; intros H; [reflexivity|].
  apply andb_true_iff in H as [Hc Hr]. unfold name_char in Hc.
  destruct (Ascii.eqb c "/"); [discriminate|].
  rewrite (IH Hr). reflexivity.
Qed.

Lemma segments_glue (a b : string) :
  segments (a ++ String "/" b) = (segments a ++ segments b)%list.
Proof.
  induction a as [|c a IH]; simpl.
  - destruct (segments b) eqn:E; [|reflexivity].
    exfalso. exact (segments_nonempty b E).
  - destruct (Ascii.eqb c "/"); [rewrite IH; reflexivity|].
    rewrite IH.
    destruct (segments a) eqn:E; [|reflexivity].
    exfalso. exact (segments_nonempty a E).
Qed.

Lemma plain_name_not_special (s : string) :
  plain_name s ->
  String.eqb s "" = false /\ String.eqb s "." = false /\
  String.eqb s ".." = false.
Proof.
  intros [Hne Hall].
  destruct s as [|c r]; [congruence|].
  simpl in Hall. apply andb_true_iff in Hall as [Hc _].
  unfold name_char in Hc.
  assert (E : Ascii.eqb c "." = false).
  { destruct (Ascii.eqb c "."); [|reflexivity].
    rewrite andb_false_r in Hc. discriminate. }
  repeat split; simpl; rewrite ?E; reflexivity.
Qed.

Lemma resolve_last (allowAbove : bool) (name : string) :
  plain_name name ->
  forall segs stack,
    resolve allowAbove (segs ++ [name])%list stack =
    (resolve allowAbove segs stack ++ [name])%list.
Proof.
  intros Hp. destruct (plain_name_not_special name Hp) as (E1 & E2 & E3).
  induction segs as [|seg rest IH]; intros stack; simpl.
  - rewrite E1, E2, E3. reflexivity.
  - destruct (String.eqb seg "" || String.eqb seg "."); [apply IH|].
    destruct (String.eqb seg ".."); [|apply IH].
    destruct stack as [|top below].
    + destruct allowAbove; apply IH.
    + destruct (String.eqb top ".."); apply IH.
Qed.

(** Joining a single-segment name under a directory yields a direct child
    of that directory. *)
Lemma join_plain (dir name : string) :
  plain_name name -> join dir name = (normalize dir ++ [name])%list.
Proof.
  intros Hp. pose proof Hp as [Hne Hall].
  destruct (plain_name_not_special name Hp) as (E1 & E2 & E3).
  unfold join, normalize.
  destruct dir as [|d dir]; simpl is_empty; cbv iota.
  - rewrite (segments_plain name Hall).
    replace (isAbsolute name) with false.
    + simpl. rewrite E1, E2, E3. reflexivity.
    + destruct name as [|c r]; [reflexivity|].
      simpl in Hall. apply andb_true_iff in Hall as [Hc _].
      unfold name_char in Hc. unfold isAbsolute.
      rewrite startsWith_char, Ascii.eqb_sym.
      destruct (Ascii.eqb c "/"); [discriminate | reflexivity].
  - replace (is_empty name) with false
      by (symmetry; apply is_empty_false; assumption).
    change (String d dir ++ "/" ++ name)
      with (String d dir ++ String "/" name).
    rewrite segments_glue, (segments_plain name Hall).
    replace (isAbsolute (String d dir ++ String "/" name))
      with (isAbsolute (String d dir)).
    + apply resolve_last. assumption.
    + unfold isAbsolute. cbn [String.append].
      rewrite !startsWith_char. reflexivity.
Qed.

Lemma name_char_code (c : ascii) :
  code c <> 47%N -> code c <> 92%N -> code c <> 46%N -> name_char c = true.
Proof.
  intros H1 H2 H3. unfold name_char.
  destruct (Ascii.eqb c "/") eqn:E1;
    [apply Ascii.eqb_eq in E1; subst; exfalso; apply H1; reflexivity|].
  destruct (Ascii.eqb c "\") eqn:E2;
    [apply Ascii.eqb_eq in E2; subst; exfalso; apply H2; reflexivity|].
  destruct (Ascii.eqb c ".") eqn:E3;
    [apply Ascii.eqb_eq in E3; subst; exfalso; apply H3; reflexivity|].
  reflexivity.
Qed.

Lemma hex_name_char (c : ascii) : is_hex c = true -> name_char c = true.
Proof. rewrite hex_code. intros H. apply name_char_code; lia. Qed.

Lemma base36_name_char (c : ascii) :
  Radix.is_base36 c = true -> name_char c = true.
Proof. rewrite Radix.base36_code. intros H. apply name_char_code; lia. Qed.

End Path.

(** ** Content keys: [isValidRootHash] and [safeName] *)

Module RootHash.
Import Js Regex.

(** A value of TypeScript type [any], as far as [typeof] tells. *)
Inductive any_value : Type :=
| Str (s : string)
| NotAString.

(** The pattern tested by [isValidRootHash]: [0x], then one or more
    hexadecimal digits, anchored at both ends. *)
Definition hex_re : regex :=
  Seq (Chr "0") (Seq (Chr "x") (Plus (Cls is_hex))).

Definition isValidRootHash (rootHash : any_value) : bool :=
  match rootHash with
  | NotAString => false
  | Str s =>
      startsWith s "0x" && (String.length s =? 66)%nat && test hex_re s
  end.

(** The pattern of the interface description: [0x] followed by exactly 64
    hexadecimal digits, anchored at both ends. *)
Definition key_re : regex :=
  Seq (Chr "0") (Seq (Chr "x") (Times 64 (Cls is_hex))).

(** [safeName(rootHash)]; [now] is the value of [Date.now()], a count of
    milliseconds since the epoch. *)
Definition safeName (now : N) (rootHash : string) : string :=
  let s := if startsWith rootHash "0x" then slice_from 2 rootHash
           else rootHash in
  let t := slice_to 128 (keep is_hex s) in
  if is_empty t then Radix.toString 36 now else t.

(** The part of the input [safeName] filters: the input without a leading
    [0x]. *)
Definition body (rootHash : string) : string :=
  if startsWith rootHash "0x" then slice_from 2 rootHash else rootHash.

(** *** The accepted keys are those of the documented pattern *)

Lemma valid_unfold (s : string) :
  isValidRootHash (Str s) = true <->
  exists t, s = "0x" ++ t /\ String.length t = 64%nat /\ all is_hex t = true.
Proof.
  unfold isValidRootHash.
  rewrite !andb_true_iff, Nat.eqb_eq, test_spec. unfold hex_re.
  rewrite matches_seq_chr. split.
  - intros [[_ L] (u & -> & M)].
    apply matches_seq_chr in M as (t & -> & M).
    apply matches_plus_cls in M as [_ A].
    exists t. simpl in L. split; [reflexivity|]. split; [lia | assumption].
  - intros (t & -> & L & A). split; [split|].
    + apply startsWith_spec. exists t. reflexivity.
    + simpl. rewrite L. reflexivity.
    + exists ("x" ++ t). split; [reflexivity|].
      apply matches_seq_chr. exists t. split; [reflexivity|].
      apply matches_plus_cls. split; [|assumption].
      destruct t; [discriminate L | discriminate].
Qed.

Lemma key_re_unfold (s : string) :
  matches key_re s <->
  exists t, s = "0x" ++ t /\ String.length t = 64%nat /\ all is_hex t = true.
Proof.
  unfold key_re. rewrite matches_seq_chr. split.
  - intros (u & -> & M). apply matches_seq_chr in M as (t & -> & M).
    apply matches_times_cls in M. exists t. tauto.
  - intros (t & -> & L & A). exists ("x" ++ t). split; [reflexivity|].
    apply matches_seq_chr. exists t. split; [reflexivity|].
    apply matches_times_cls. tauto.
Qed.

Lemma isValidRootHash_iff_key_re (s : string) :
  isValidRootHash (Str s) = true <-> matches key_re s.
Proof. rewrite valid_unfold, key_re_unfold. reflexivity. Qed.

(** *** [safeName] *)

Lemma body_of_valid (s t : string) : s = "0x" ++ t -> body s = t.
Proof.
  intros ->. unfold body.
  replace (startsWith ("0x" ++ t) "0x") with true; [reflexivity|].
  symmetry. apply startsWith_spec. exists t. reflexivity.
Qed.

Lemma safeName_unfold (now : N) (rootHash : string) :
  safeName now rootHash =
  if any is_hex (body rootHash) then slice_to 128 (keep is_hex (body rootHash))
  else Radix.toString 36 now.
Proof.
  unfold safeName. cbv zeta. fold (body rootHash).
  rewrite slice_to_empty, keep_empty.
  destruct (any is_hex (body rootHash)); reflexivity.
Qed.

Lemma safeName_plain (now : N) (rootHash : string) :
  Path.plain_name (safeName now rootHash).
Proof.
  rewrite safeName_unfold.
  destruct (any is_hex (body rootHash)) eqn:E; split.
  - apply is_empty_false. rewrite slice_to_empty, keep_empty, E. reflexivity.
  - apply (all_impl is_hex); [apply Path.hex_name_char|].
    apply slice_to_all, keep_all.
  - apply Radix.toString_nonempty.
  - apply (all_impl Radix.is_base36); [apply Path.base36_name_char|].
    apply Radix.toString_base36. lia.
Qed.

Lemma safeName_of_valid (now : N) (rootHash : string) :
  isValidRootHash (Str rootHash) = true ->
  rootHash = "0x" ++ safeName now rootHash /\
  String.length (safeName now rootHash) = 64%nat /\
  all is_hex (safeName now rootHash) = true.
Proof.
  intros V. apply valid_unfold in V as (t & E & L & A).
  assert (N : safeName now rootHash = t).
  { rewrite safeName_unfold, (body_of_valid rootHash t E).
    rewrite (keep_id is_hex t A), slice_to_short by lia.
    destruct t as [|c t]; [discriminate L|].
    simpl in A. apply andb_true_iff in A as [Hc _].
    simpl. rewrite Hc. reflexivity. }
  rewrite N. auto.
Qed.

(** The scratch name of every input: a single path segment, so the
    scratch file is a direct child of the scratch directory; made of at
    most 128 hexadecimal digits when the input, a leading [0x] set aside,
    holds one, and the clock in radix 36 otherwise; for an accepted key,
    the key without its [0x]. *)
Lemma safeName_shape (TMP_DIR : string) (now : N) (rootHash : string) :
  let name := safeName now rootHash in
  Path.plain_name name /\
  Path.join TMP_DIR name = (Path.normalize TMP_DIR ++ [name])%list /\
  (any is_hex (body rootHash) = true ->
   name = slice_to 128 (keep is_hex (body rootHash)) /\
   all is_hex name = true /\
   (1 <= String.length name <= 128)%nat) /\
  (any is_hex (body rootHash) = false ->
   name = Radix.toString 36 now /\ all Radix.is_base36 name = true) /\
  (isValidRootHash (Str rootHash) = true ->
   rootHash = "0x" ++ name /\ String.length name = 64%nat /\
   all is_hex name = true).
Proof.
  intros name. pose proof (safeName_plain now rootHash) as Hp.
  split; [exact Hp|]. split; [apply Path.join_plain; exact Hp|].
  subst name. split; [|split].
  - intros H. rewrite safeName_unfold, H.
    split; [reflexivity|]. split; [apply slice_to_all, keep_all|].
    split; [|apply slice_to_length].
    apply nonempty_length. rewrite slice_to_empty, keep_empty, H. reflexivity.
  - intros H. rewrite safeName_unfold, H.
    split; [reflexivity|]. apply Radix.toString_base36. lia.
  - apply safeName_of_valid.
Qed.

Definition test_hash : string :=
  "0xda5255f73287096e526638ea0ebc036c5a52d5fbd73c56a20e795e78e7a22735".

Example test_hash_valid : isValidRootHash (Str test_hash) = true.
Proof. vm_compute. reflexivity. Qed.

Example test_hash_name :
  safeName 0 test_hash =
  "da5255f73287096e526638ea0ebc036c5a52d5fbd73c56a20e795e78e7a22735".
Proof. vm_compute. reflexivity. Qed.

Example short_hash_invalid : isValidRootHash (Str "0xabc") = false.
Proof. vm_compute. reflexivity. Qed.

Example newline_hash_invalid :
  isValidRootHash
    (Str (String.append
            (slice_to 65 test_hash)
            (String (ascii_of_N 10) EmptyString))) = false.
Proof. vm_compute. reflexivity. Qed.

Example safeName_traversal : safeName 0 "../../etc/passwd" = "ecad".
Proof. vm_compute. reflexivity. Qed.

Example safeName_only_prefix : safeName 1730000000000 "0x" = "m2r1bz7k".
Proof. vm_compute. reflexivity. Qed.

End RootHash.

(** ** The LRU index: [new LRUCache({ max, ttl, dispose })]

    The index stores metadata only.  It is the [lru-cache] package
    configured with a capacity, a time to live and a [dispose] callback;
    its items are kept here most recently used first.  Each operation
    returns, besides its result, the values it dropped: those are the
    values [dispose] is called on. *)

Module Cache.

Definition path : Type := list string.

(** The metadata object [{ path, size, addedAt }]. *)
Record meta : Type := Meta { m_path : path; m_size : N; m_addedAt : N }.

Record slot : Type := Slot { s_key : string; s_value : meta; s_start : N }.

Record options : Type := Options { max : nat; ttl : N }.

Definition lru : Type := list slot.

Fixpoint lookup (k : string) (c : lru) : option slot :=
  match c with
  | [] => None
  | s :: rest => if String.eqb (s_key s) k then Some s else lookup k rest
  end.

Fixpoint remove (k : string) (c : lru) : lru :=
  match c with
  | [] => []
  | s :: rest => if String.eqb (s_key s) k then rest else s :: remove k rest
  end.

(** An item is stale once it is older than the time to live; a time to
    live of zero means none. *)
Definition isStale (o : options) (now : N) (s : slot) : bool :=
  ((0 <? ttl o) && (ttl o <? now - s_start s))%N.

(** [cache.get(k)]: a stale item is deleted and not returned; a fresh one
    becomes the most recently used. *)
Definition get (o : options) (now : N) (k : string) (c : lru)
  : option meta * lru * list meta :=
  match lookup k c with
  | None => (None, c, [])
  | Some s =>
      if isStale o now s then (None, remove k c, [s_value s])
      else (Some (s_value s), s :: remove k c, [])
  end.

(** The least recently used item and the others. *)
Fixpoint split_last (c : lru) : option (lru * slot) :=
  match c with
  | [] => None
  | s :: rest =>
      match split_last rest with
      | None => Some ([], s)
      | Some (front, l) => Some (s :: front, l)
      end
  end.

(** [cache.set(k, v)]: an item under the same key is replaced (and its
    old value dropped); otherwise, when the index is full, the least
    recently used item is evicted first.  A capacity of zero means no
    bound. *)
Definition set (o : options) (now : N) (k : string) (v : meta) (c : lru)
  : lru * list meta :=
  let fresh := Slot k v now in
  match lookup k c with
  | Some s => (fresh :: remove k c, [s_value s])
  | None =>
      if negb (Nat.eqb (max o) 0) && (max o <=? length c)%nat then
        match split_last c with
        | Some (front, l) => (fresh :: front, [s_value l])
        | None => ([fresh], [])
        end
      else (fresh :: c, [])
  end.

(** [cache.delete(k)] *)
Definition delete (k : string) (c : lru) : lru * list meta :=
  match lookup k c with
  | Some s => (remove k c, [s_value s])
  | None => (c, [])
  end.

Lemma lookup_remove_same (k : string) (c : lru) :
  lookup k c = None -> remove k c = c.
Proof.
  induction c as [|s c IH]; simpl; [reflexivity|].
  destruct (String.eqb (s_key s) k); [discriminate|].
  intros H. rewrite IH; auto.
Qed.


Lemma lookup_split_last (k : string) (c front : lru) (l : slot) :
  split_last c = Some (front, l) ->
  lookup k c = None -> lookup k front = None.
Proof.
  revert front. induction c as [|s c IH]; simpl; intros front E H;
    [discriminate|].
  destruct (String.eqb (s_key s) k) eqn:Ek; [discriminate|].
  destruct (split_last c) as [[f l']|].
  - injection E as <- <-. simpl. rewrite Ek. eauto.
  - injection E as <- <-. reflexivity.
Qed.

Lemma lookup_key (k : string) (c : lru) (s : slot) :
  lookup k c = Some s -> s_key s = k.
Proof.
  induction c as [|x c IH]; simpl; [discriminate|].
  destruct (String.eqb (s_key x) k) eqn:E; [|assumption].
  intros H. injection H as <-. apply String.eqb_eq. assumption.
Qed.

Lemma lookup_cons_other (k : string) (s : slot) (c : lru) :
  s_key s <> k -> lookup k (s :: c) = lookup k c.
Proof.
  intros N. simpl. destruct (String.eqb (s_key s) k) eqn:E; [|reflexivity].
  apply String.eqb_eq in E. congruence.
Qed.

Lemma lookup_remove_none (k k' : string) (c : lru) :
  lookup k c = None -> lookup k (remove k' c) = None.
Proof.
  induction c as [|s c IH]; simpl; [reflexivity|].
  destruct (String.eqb (s_key s) k) eqn:E; [discriminate|].
  intros H. destruct (String.eqb (s_key s) k'); [assumption|].
  simpl. rewrite E. auto.
Qed.

(** An absent key stays absent through operations on other keys. *)
Lemma get_keeps_absent (o : options) (now : N) (k k' : string) (c : lru) :
  lookup k c = None -> lookup k (get o now k' c).1.2 = None.
Proof.
  intros H. unfold get. destruct (lookup k' c) as [s|] eqn:L; [|assumption].
  destruct (isStale o now s); cbn [fst snd].
  - apply lookup_remove_none. assumption.
  - rewrite lookup_cons_other; [apply lookup_remove_none; assumption|].
    rewrite (lookup_key k' c s L). intros ->. congruence.
Qed.

Lemma set_keeps_absent (o : options) (now : N) (k k' : string) (v : meta)
      (c : lru) :
  k' <> k -> lookup k c = None -> lookup k (set o now k' v c).1 = None.
Proof.
  intros N H. unfold set. destruct (lookup k' c) as [s|].
  - simpl fst. rewrite lookup_cons_other by assumption.
    apply lookup_remove_none. assumption.
  - destruct (negb (Nat.eqb (max o) 0) && (max o <=? length c)%nat).
    + destruct (split_last c) as [[front l]|] eqn:SL; simpl fst;
        rewrite lookup_cons_other by assumption; [|reflexivity].
      eapply lookup_split_last; eassumption.
    + simpl fst. rewrite lookup_cons_other by assumption. assumption.
Qed.

Lemma delete_keeps_absent (k k' : string) (c : lru) :
  lookup k c = None -> lookup k (delete k' c).1 = None.
Proof.
  intros H. unfold delete. destruct (lookup k' c); cbn [fst]; [|assumption].
  apply lookup_remove_none. assumption.
Qed.





End Cache.

(** ** The process state

    Everything the gateway's handlers share: the scratch directory, the
    LRU index, the [downloadLocks] map, the promises created by
    [downloadToTmp], the calls of [downloadToTmp] in progress, the artifact
    streams being read, and a log of the calls made to the indexer. *)

Module World.
Import Cache.

(** Outcome of an [async] function: the value it returns or the message
    of the error it throws. *)
Inductive result : Type :=
| Resolved (p : path)
| Thrown (msg : string).

(** Where the promise returned by [downloadToTmp]'s inner function is
    suspended. *)
Inductive inner_state : Type :=
| AwaitUnlink
| AwaitDownload
| AwaitCleanup (err : string)
| AwaitStat
| Settled (r : result).

Record task : Type :=
  Task { t_root : string; t_key : string; t_state : inner_state }.

(** Where a call of [downloadToTmp] is suspended. *)
Inductive call_state : Type :=
| AwaitAccess (cached : meta)
| AwaitOwn (pid : nat)
| AwaitJoined (pid : nat)
| Returned (r : result).

Record call : Type :=
  Call { c_root : string; c_key : string; c_state : call_state }.

(** Second argument of an indexer method: a file path, the HTTP response
    object, or none. *)
Inductive destination : Type :=
| ToFile (p : path)
| ToResponse
| NoDestination.

Record invocation : Type :=
  Invocation { i_method : string; i_root : string; i_dest : destination }.

Record world : Type := {
  now : N;
  files : gmap path N;
  cache : lru;
  downloadLocks : gmap string nat;
  tasks : list task;
  calls : gmap nat call;
  readers : gmap nat path;
  log : list invocation
}.

Definition set_now (v : N) (w : world) : world :=
  {| now := v; files := files w; cache := cache w;
     downloadLocks := downloadLocks w; tasks := tasks w; calls := calls w;
     readers := readers w; log := log w |}.

Definition set_files (v : gmap path N) (w : world) : world :=
  {| now := now w; files := v; cache := cache w;
     downloadLocks := downloadLocks w; tasks := tasks w; calls := calls w;
     readers := readers w; log := log w |}.

Definition set_cache (v : lru) (w : world) : world :=
  {| now := now w; files := files w; cache := v;
     downloadLocks := downloadLocks w; tasks := tasks w; calls := calls w;
     readers := readers w; log := log w |}.

Definition set_locks (v : gmap string nat) (w : world) : world :=
  {| now := now w; files := files w; cache := cache w;
     downloadLocks := v; tasks := tasks w; calls := calls w;
     readers := readers w; log := log w |}.

Definition set_tasks (v : list task) (w : world) : world :=
  {| now := now w; files := files w; cache := cache w;
     downloadLocks := downloadLocks w; tasks := v; calls := calls w;
     readers := readers w; log := log w |}.

Definition set_calls (v : gmap nat call) (w : world) : world :=
  {| now := now w; files := files w; cache := cache w;
     downloadLocks := downloadLocks w; tasks := tasks w; calls := v;
     readers := readers w; log := log w |}.

Definition set_readers (v : gmap nat path) (w : world) : world :=
  {| now := now w; files := files w; cache := cache w;
     downloadLocks := downloadLocks w; tasks := tasks w; calls := calls w;
     readers := v; log := log w |}.

Definition set_log (v : list invocation) (w : world) : world :=
  {| now := now w; files := files w; cache := cache w;
     downloadLocks := downloadLocks w; tasks := tasks w; calls := calls w;
     readers := readers w; log := v |}.

(** The [dispose] callback: [fsp.unlink(value.path)], not awaited.  The
    detached unlink is taken to complete at once. *)
Definition dispose (dropped : list meta) (fs : gmap path N) : gmap path N :=
  foldr (fun m acc => base.delete (m_path m) acc) fs dropped.

(** A freshly started process: nothing cached, nothing in flight. *)
Definition boot (fs : gmap path N) : world :=
  {| now := 0; files := fs; cache := []; downloadLocks := ∅; tasks := [];
     calls := ∅; readers := ∅; log := [] |}.

End World.

(** ** Single flight: [downloadToTmp] on the event loop

    An [async] function runs without interruption from one [await] to the
    next.  Each event below is one such uninterrupted stretch: a call of
    [downloadToTmp] up to its first [await], or the resumption of a
    suspended call or promise once the operation it awaits has completed.
    Any interleaving of stretches the event loop can produce is a list of
    events; [step] refuses an event whose stretch is not ready to run. *)

Module Coordinator.
Import Js RootHash Cache World.

(** How [indexer.download(rootHash, file, false)] completes: it resolves
    to [null] having written the whole file, resolves to an [Error], or
    rejects; in the last two cases a partially written file may be left
    behind. *)
Inductive download_outcome : Type :=
| DlNull (size : N)
| DlError (err : string) (partial : option N)
| DlRejects (msg : string) (partial : option N).

Inductive event : Type :=
| Enter (rid : nat) (rootHash : string)
| AccessDone (rid : nat)
| UnlinkDone (pid : nat)
| DownloadDone (pid : nat) (o : download_outcome)
| CleanupDone (pid : nat)
| StatDone (pid : nat)
| Resume (rid : nat)
| Elapse (dt : N)
| ReadBegin (rid : nat)
| ReadEnd (rid : nat).

Section Config.

Variable TMP_DIR : string.
Variable opts : options.

(** [path.join(TMP_DIR, key)] *)
Definition tmpFile (key : string) : path := Path.join TMP_DIR key.

Definition put_call (rid : nat) (c : call) (w : world) : world :=
  set_calls (<[rid := c]> (calls w)) w.

Definition put_task (pid : nat) (t : task) (w : world) : world :=
  set_tasks (<[pid := t]> (tasks w)) w.

Definition written (p : path) (size : option N) (fs : gmap path N)
  : gmap path N :=
  match size with
  | Some n => <[p := n]> fs
  | None => fs
  end.

(** From [if (downloadLocks.has(key))] to [await p]: join the promise in
    flight, or create one (its body runs up to [await fsp.unlink]) and
    register it. *)
Definition lock_or_start (rid : nat) (root key : string) (w : world)
  : world :=
  match downloadLocks w !! key with
  | Some pid => put_call rid (Call root key (AwaitJoined pid)) w
  | None =>
      let pid := length (tasks w) in
      put_call rid (Call root key (AwaitOwn pid))
        (set_locks (<[key := pid]> (downloadLocks w))
           (set_tasks (tasks w ++ [Task root key AwaitUnlink]) w))
  end.

Definition step (w : world) (e : event) : option world :=
  match e with
  | Enter rid root =>
      match calls w !! rid with
      | Some _ => None
      | None =>
          let key := safeName (now w) root in
          let '(hit, c, dropped) := Cache.get opts (now w) key (cache w) in
          let w1 := set_files (dispose dropped (files w)) (set_cache c w) in
          Some match hit with
               | Some m => put_call rid (Call root key (AwaitAccess m)) w1
               | None => lock_or_start rid root key w1
               end
      end
  | AccessDone rid =>
      match calls w !! rid with
      | Some (Call root key (AwaitAccess m)) =>
          match files w !! m_path m with
          | Some _ =>
              Some (put_call rid
                      (Call root key (Returned (Resolved (m_path m)))) w)
          | None =>
              let '(c, dropped) := Cache.delete key (cache w) in
              Some (lock_or_start rid root key
                      (set_files (dispose dropped (files w))
                                 (set_cache c w)))
          end
      | _ => None
      end
  | UnlinkDone pid =>
      match tasks w !! pid with
      | Some (Task root key AwaitUnlink) =>
          Some (put_task pid (Task root key AwaitDownload)
                  (set_log (Invocation "download" root
                                       (ToFile (tmpFile key)) :: log w)
                     (set_files (base.delete (tmpFile key) (files w)) w)))
      | _ => None
      end
  | DownloadDone pid o =>
      match tasks w !! pid with
      | Some (Task root key AwaitDownload) =>
          Some match o with
               | DlNull size =>
                   put_task pid (Task root key AwaitStat)
                     (set_files (<[tmpFile key := size]> (files w)) w)
               | DlError err partial =>
                   put_task pid (Task root key (AwaitCleanup err))
                     (set_files (written (tmpFile key) partial (files w)) w)
               | DlRejects msg partial =>
                   put_task pid (Task root key (Settled (Thrown msg)))
                     (set_files (written (tmpFile key) partial (files w)) w)
               end
      | _ => None
      end
  | CleanupDone pid =>
      match tasks w !! pid with
      | Some (Task root key (AwaitCleanup err)) =>
          Some (put_task pid
                  (Task root key
                     (Settled (Thrown ("indexer.download failed: " ++ err))))
                  (set_files (base.delete (tmpFile key) (files w)) w))
      | _ => None
      end
  | StatDone pid =>
      match tasks w !! pid with
      | Some (Task root key AwaitStat) =>
          match files w !! tmpFile key with
          | Some size =>
              let '(c, dropped) :=
                Cache.set opts (now w) key
                          (Meta (tmpFile key) size (now w)) (cache w) in
              Some (put_task pid
                      (Task root key (Settled (Resolved (tmpFile key))))
                      (set_files (dispose dropped (files w))
                                 (set_cache c w)))
          | None =>
              Some (put_task pid
                      (Task root key (Settled (Thrown "ENOENT"))) w)
          end
      | _ => None
      end
  | Resume rid =>
      match calls w !! rid with
      | Some (Call root key (AwaitOwn pid)) =>
          match tasks w !! pid with
          | Some (Task _ _ (Settled r)) =>
              Some (put_call rid (Call root key (Returned r))
                      (set_locks (base.delete key (downloadLocks w)) w))
          | _ => None
          end
      | Some (Call root key (AwaitJoined pid)) =>
          match tasks w !! pid with
          | Some (Task _ _ (Settled r)) =>
              Some (put_call rid (Call root key (Returned r)) w)
          | _ => None
          end
      | _ => None
      end
  | Elapse dt => Some (set_now (now w + dt)%N w)
  | ReadBegin rid =>
      match calls w !! rid, readers w !! rid with
      | Some (Call _ _ (Returned (Resolved p))), None =>
          match files w !! p with
          | Some _ => Some (set_readers (<[rid := p]> (readers w)) w)
          | None => None
          end
      | _, _ => None
      end
  | ReadEnd rid =>
      match readers w !! rid with
      | Some _ => Some (set_readers (base.delete rid (readers w)) w)
      | None => None
      end
  end.

Fixpoint run (w : world) (evs : list event) : option world :=
  match evs with
  | [] => Some w
  | e :: rest =>
      match step w e with
      | Some w' => run w' rest
      | None => None
      end
  end.


(** *** Requests that arrive together

    [key_of root] is the cache and lock key of an accepted root hash.
    [miss R w] holds when a call for [R] entering in [w] is one of a batch
    of concurrent misses: the index holds no entry for [R], and no call for
    [R] has returned yet.  [concurrent_misses R w evs] says so for every
    call for [R] of a run, and asks every call of the run, for whatever
    root hash, to carry an accepted one, as both handlers ensure before
    they call [downloadToTmp]. *)

Definition key_of (root : string) : string := safeName 0 root.

Definition is_returned (s : call_state) : bool :=
  match s with
  | Returned _ => true
  | _ => false
  end.

Definition none_returned (R : string) (w : world) : Prop :=
  map_Forall (fun _ c => c_root c = R -> is_returned (c_state c) = false)
             (calls w).

Definition miss (R : string) (w : world) : Prop :=
  Cache.lookup (key_of R) (cache w) = None /\ none_returned R w.

Definition enter_ok (R : string) (w : world) (e : event) : Prop :=
  match e with
  | Enter _ root =>
      isValidRootHash (Str root) = true /\ (root = R -> miss R w)
  | _ => True
  end.

#[local] Instance none_returned_dec R w : Decision (none_returned R w).
Proof. unfold none_returned. apply _. Defined.

#[local] Instance miss_dec R w : Decision (miss R w).
Proof. unfold miss. apply _. Defined.

#[local] Instance enter_ok_dec R w e : Decision (enter_ok R w e).
Proof. destruct e; simpl; apply _. Defined.


(** Nothing in flight and nothing fetched yet; the index and the scratch
    directory are arbitrary. *)
Definition idle (w : world) : Prop :=
  downloadLocks w = ∅ /\ tasks w = [] /\ calls w = ∅ /\ log w = [].

(** Number of times [indexer.download] was invoked for a root hash. *)
Definition fetches (root : string) (w : world) : nat :=
  length (filter (fun i => i_root i = root) (log w)).

(** *** Eviction and readers *)








(** *** The single-flight invariant

    For an accepted root hash [R]: at most one promise was ever created
    under the key of [R]; [indexer.download] has been invoked for [R] once
    if that promise is past its first [await] and never otherwise; every
    call for [R] waits on that promise or has returned what it settled to;
    and until a call for [R] returns, the lock of [R] is that promise. *)

Section Flights.

Variable R : string.
Hypothesis R_valid : isValidRootHash (Str R) = true.



Definition started (s : inner_state) : bool :=
  match s with
  | AwaitUnlink => false
  | _ => true
  end.


























(** *** The index stays cold until the fetch succeeds *)







(** *** After the fetch has returned an error *)

Definition failure_message (err : string) : string :=
  "indexer.download failed: " ++ err.








(** *** Whole runs *)












End Flights.

End Config.

End Coordinator.

(** ** HTTP responses *)

Module Http.
Import Cache.

(** What was put in a response body, in order. *)
Inductive body_part : Type :=
| Literal (s : string)
| JsonError (error : string)
| DemoPage (rootHash : string)
| FileSlice (p : path) (offset len : N)
| FileStream (p : path) (range : option (Z * Z))
| FromIndexer.

(** The state of the [res] object.  [headersSent] is set once part of the
    response has gone out; from then on [setHeader] and [status(..).send]
    throw.  [ended] records [res.end()] (a piped stream ends the response
    when it finishes); [destroyed] records [res.destroy()]. *)
Record response : Type := {
  statusCode : Z;
  headers : list (string * string);
  body : list body_part;
  headersSent : bool;
  ended : bool;
  destroyed : bool
}.

Definition fresh : response :=
  {| statusCode := 200; headers := []; body := []; headersSent := false;
     ended := false; destroyed := false |}.

Fixpoint put_header (name value : string) (hs : list (string * string))
  : list (string * string) :=
  match hs with
  | [] => [(name, value)]
  | (n, v) :: rest =>
      if String.eqb n name then (name, value) :: rest
      else (n, v) :: put_header name value rest
  end.

Fixpoint header (name : string) (hs : list (string * string))
  : option string :=
  match hs with
  | [] => None
  | (n, v) :: rest => if String.eqb n name then Some v else header name rest
  end.

(** [res.setHeader(name, value)] on a response whose headers are not sent *)
Definition setHeader (name value : string) (r : response) : response :=
  {| statusCode := statusCode r; headers := put_header name value (headers r);
     body := body r; headersSent := headersSent r; ended := ended r;
     destroyed := destroyed r |}.

(** [res.getHeader(name)] *)
Definition getHeader (name : string) (r : response) : option string :=
  header name (headers r).

(** [res.status(code)] *)
Definition status (code : Z) (r : response) : response :=
  {| statusCode := code; headers := headers r; body := body r;
     headersSent := headersSent r; ended := ended r;
     destroyed := destroyed r |}.

(** [res.write(part)] *)
Definition write (part : body_part) (r : response) : response :=
  {| statusCode := statusCode r; headers := headers r;
     body := (body r ++ [part])%list; headersSent := true; ended := ended r;
     destroyed := destroyed r |}.

(** [res.end()] *)
Definition res_end (r : response) : response :=
  {| statusCode := statusCode r; headers := headers r; body := body r;
     headersSent := true; ended := true; destroyed := destroyed r |}.

(** [res.send(text)], [res.json(value)] and [stream.pipe(res)] with a
    stream that runs to its end: the body goes out and the response
    ends. *)
Definition send (part : body_part) (r : response) : response :=
  res_end (write part r).

Lemma header_put_same (name value : string) (hs : list (string * string)) :
  header name (put_header name value hs) = Some value.
Proof.
  induction hs as [|[n v] hs IH]; simpl.
  - rewrite String.eqb_refl. reflexivity.
  - destruct (String.eqb n name) eqn:E; simpl.
    + rewrite String.eqb_refl. reflexivity.
    + rewrite E. exact IH.
Qed.

Lemma header_put_other (name name' value : string)
      (hs : list (string * string)) :
  name' <> name -> header name' (put_header name value hs) = header name' hs.
Proof.
  intros N. induction hs as [|[n v] hs IH]; simpl.
  - destruct (String.eqb name name') eqn:E; [|reflexivity].
    apply String.eqb_eq in E. congruence.
  - destruct (String.eqb n name) eqn:E; simpl.
    + apply String.eqb_eq in E. subst n.
      destruct (String.eqb name name') eqn:E'; [|reflexivity].
      apply String.eqb_eq in E'. congruence.
    + destruct (String.eqb n name'); [reflexivity | exact IH].
Qed.

End Http.

(** ** Progressive delivery: [streamWhileDownloadingToRes]

    The function starts [indexer.download] into a scratch file and polls
    that file every 150 ms, writing to the response what has been appended
    since the last poll.  One [tick] is what one turn of the polling loop
    observes of its environment. *)

Module Progressive.
Import Js RootHash Cache World Http.

Local Open Scope N_scope.

Definition maxChunk : N := 512 * 1024.

(** The state of [downloadPromise] when the loop tests
    [downloadCompleted]: the flag is set by both the [then] and the
    [catch] callback. *)
Inductive promise : Type :=
| Pending
| Fulfilled
| Rejected (err : string).

Definition downloadCompleted (p : promise) : bool :=
  match p with
  | Pending => false
  | _ => true
  end.

(** What one [pumpOnce] observes: the size [fd.stat()] reports and the
    count [fd.read] returns ([None] when the operation throws; the error
    is swallowed).  [fd.read] never returns more than it was asked for. *)
Record pump_env : Type := PumpEnv {
  stat_size : option N;
  bytes_read : option N
}.

Record tick : Type := Tick {
  opens : bool;
  first_pump : pump_env;
  download : promise;
  final_pump : pump_env;
  client_gone : bool
}.

(** The loop's variables and the chunks written so far, as (offset,
    length) pairs in the order of the [res.write] calls. *)
Record cursor : Type := Cursor {
  fd : bool;
  position : N;
  sent : list (N * N)
}.

Definition start : cursor := Cursor false 0 [].

(** [ensureFd()] *)
Definition ensureFd (opens_now : bool) (c : cursor) : cursor :=
  if fd c then c else Cursor opens_now (position c) (sent c).

(** [pumpOnce()] *)
Definition pumpOnce (e : pump_env) (c : cursor) : cursor :=
  if negb (fd c) then c
  else
    match stat_size e with
    | None => c
    | Some size =>
        if position c <? size then
          let toRead := size - position c in
          let readSize := N.min toRead maxChunk in
          match bytes_read e with
          | None => c
          | Some n =>
              let bytesRead := N.min n readSize in
              if 0 <? bytesRead then
                Cursor (fd c) (position c + bytesRead)
                       (sent c ++ [(position c, bytesRead)])%list
              else c
          end
        else c
    end.

Inductive exit : Type :=
| Drained
| ClientGone
| Polling.

(** The [while (true)] loop over the turns the environment grants it;
    [Polling] means the loop is still asleep after the last of them. *)
Fixpoint poll (ticks : list tick) (c : cursor) : cursor * exit :=
  match ticks with
  | [] => (c, Polling)
  | t :: rest =>
      let c0 := ensureFd (opens t) c in
      let c1 := pumpOnce (first_pump t) c0 in
      if downloadCompleted (download t) then
        (if fd c1 then pumpOnce (final_pump t) c1 else c1, Drained)
      else if client_gone t then (c1, ClientGone)
      else poll rest c1
  end.

(** How the [async] function ends. *)
Inductive completion : Type :=
| Returns
| Throws
| Suspended.

Definition streaming_headers (key : string) (r : response) : response :=
  setHeader "Content-Disposition"
            ("inline; filename=" ++ String (ascii_of_N 34) key
                                 ++ String (ascii_of_N 34) "")
    (setHeader "Transfer-Encoding" "chunked"
       (setHeader "Content-Type" "application/octet-stream"
          (setHeader "Access-Control-Allow-Origin" "*" r))).

Definition write_chunks (p : path) (chunks : list (N * N)) (r : response)
  : response :=
  fold_left (fun acc '(off, len) => write (FileSlice p off len) acc)
            chunks r.

Section Config.

Variable TMP_DIR : string.

(** [path.join(TMP_DIR, key + '.part')] *)
Definition partFile (key : string) : path :=
  Path.join TMP_DIR (key ++ ".part").

(** [streamWhileDownloadingToRes(rootHash, res)]: the leftover partial
    file is unlinked, the download is started (one invocation of the
    indexer), the headers are set (which throws when they have gone out
    already), the loop runs, and at last the file is unlinked and the
    response ended. *)
Definition streamWhileDownloadingToRes (w : world) (rootHash : string)
           (res : response) (ticks : list tick)
  : world * response * completion :=
  let key := safeName (now w) rootHash in
  let tmpFile := partFile key in
  let w1 :=
    set_log (Invocation "download" rootHash (ToFile tmpFile) :: log w)
            (set_files (base.delete tmpFile (files w)) w) in
  if headersSent res then (w1, res, Throws)
  else
    let res1 := streaming_headers key res in
    let '(c, how) := poll ticks start in
    let res2 := write_chunks tmpFile (sent c) res1 in
    match how with
    | Polling => (w1, res2, Suspended)
    | _ =>
        (set_files (base.delete tmpFile (files w1)) w1, res_end res2, Returns)
    end.

End Config.

(** *** The chunks written tile a prefix of the file *)

(** [tiles from chunks to]: the chunks, in order, cover the offsets
    [from] up to [to] (excluded), each chunk non-empty and starting where
    the one before it ends. *)
Fixpoint tiles (from : N) (chunks : list (N * N)) (to : N) : Prop :=
  match chunks with
  | [] => from = to
  | (off, len) :: rest => off = from /\ 0 < len /\ tiles (from + len) rest to
  end.

Definition total (chunks : list (N * N)) : N :=
  fold_right (fun '(_, len) acc => len + acc) 0 chunks.

Lemma tiles_snoc (from : N) (chunks : list (N * N)) (mid len : N) :
  tiles from chunks mid -> 0 < len ->
  tiles from (chunks ++ [(mid, len)])%list (mid + len).
Proof.
  revert from. induction chunks as [|[o l] rest IH]; simpl; intros from H L.
  - subst. auto.
  - destruct H as (-> & Hl & H). auto.
Qed.

Lemma tiles_total (from : N) (chunks : list (N * N)) (to : N) :
  tiles from chunks to -> to = from + total chunks.
Proof.
  revert from. induction chunks as [|[o l] rest IH]; simpl; intros from H.
  - lia.
  - destruct H as (-> & Hl & H). apply IH in H. lia.
Qed.

Definition tiled (c : cursor) : Prop := tiles 0 (sent c) (position c).

Lemma pumpOnce_tiled (e : pump_env) (c : cursor) :
  tiled c -> tiled (pumpOnce e c).
Proof.
  intros H. unfold pumpOnce.
  destruct (negb (fd c)); [assumption|].
  destruct (stat_size e) as [size|]; [|assumption].
  destruct (position c <? size); [|assumption].
  destruct (bytes_read e) as [n|]; [|assumption].
  destruct (0 <? N.min n (N.min (size - position c) maxChunk)) eqn:E;
    [|assumption].
  apply N.ltb_lt in E. unfold tiled. simpl.
  apply tiles_snoc; assumption.
Qed.

Lemma ensureFd_tiled (b : bool) (c : cursor) : tiled c -> tiled (ensureFd b c).
Proof. unfold ensureFd. destruct (fd c); auto. Qed.

Lemma poll_tiled (ticks : list tick) :
  forall c, tiled c -> tiled (poll ticks c).1.
Proof.
  induction ticks as [|t rest IH]; simpl; intros c H; [assumption|].
  pose proof (pumpOnce_tiled (first_pump t) _ (ensureFd_tiled (opens t) c H))
    as H1.
  destruct (downloadCompleted (download t)); simpl.
  - destruct (fd _); [apply pumpOnce_tiled|]; assumption.
  - destruct (client_gone t); simpl; auto.
Qed.

(** *** A failed fetch ends the delivery like a successful one *)

(** The same turn of the loop, had the fetch succeeded. *)
Definition as_fulfilled (t : tick) : tick :=
  Tick (opens t) (first_pump t)
       (match download t with
        | Rejected _ => Fulfilled
        | p => p
        end)
       (final_pump t) (client_gone t).

Lemma poll_failure_blind (ticks : list tick) :
  forall c, poll (map as_fulfilled ticks) c = poll ticks c.
Proof.
  induction ticks as [|t rest IH]; intros c; simpl; [reflexivity|].
  destruct (download t); simpl; try reflexivity.
  destruct (client_gone t); [reflexivity | apply IH].
Qed.

(** A turn in which the fetch is still running and the client is still
    there. *)
Definition waiting (t : tick) : Prop :=
  download t = Pending /\ client_gone t = false.

Lemma poll_waiting (before rest : list tick) :
  Forall waiting before ->
  forall c, poll (before ++ rest)%list c = poll rest (poll before c).1.
Proof.
  induction 1 as [|t before [Hd Hc] _ IH]; intros c; simpl; [reflexivity|].
  rewrite Hd, Hc. simpl. apply IH.
Qed.

Lemma write_chunks_keeps (p : path) (chunks : list (N * N)) :
  forall r,
    statusCode (write_chunks p chunks r) = statusCode r /\
    headers (write_chunks p chunks r) = headers r /\
    ended (write_chunks p chunks r) = ended r /\
    destroyed (write_chunks p chunks r) = destroyed r /\
    body (write_chunks p chunks r) =
      (body r ++ map (fun '(off, len) => FileSlice p off len) chunks)%list.
Proof.
  unfold write_chunks.
  induction chunks as [|[off len] rest IH]; intros r; simpl.
  - rewrite app_nil_r. auto.
  - destruct (IH (write (FileSlice p off len) r)) as (A & B & C & D & E).
    rewrite A, B, C, D, E. simpl. rewrite <- app_assoc. auto.
Qed.

Section Facts.

Variable TMP_DIR : string.


Lemma stream_failure_blind (w : world) (rootHash : string) (res : response)
      (ticks : list tick) :
  streamWhileDownloadingToRes TMP_DIR w rootHash res (map as_fulfilled ticks)
  = streamWhileDownloadingToRes TMP_DIR w rootHash res ticks.
Proof.
  unfold streamWhileDownloadingToRes. rewrite poll_failure_blind. reflexivity.
Qed.

End Facts.

End Progressive.

(** ** The handlers of [/api/v1/storage/:rootHash] *)

Module Gateway.
Import Js RootHash Cache World Http Progressive Range.

(** What the handlers read of a request. *)
Record request : Type := {
  rootHash : string;
  range : option string;
  accept : option string;
  if_none_match : option string
}.

(** A header that is absent or empty is falsy. *)
Definition truthy (h : option string) : bool :=
  match h with
  | Some s => negb (is_empty s)
  | None => false
  end.

(** [s.includes(sub)] *)
Fixpoint includes (s sub : string) : bool :=
  startsWith s sub ||
  match s with
  | EmptyString => false
  | String _ r => includes r sub
  end.

Definition wantsHtml (req : request) : bool :=
  match accept req with
  | Some a => negb (is_empty a) && includes a "text/html"
  | None => false
  end.

(** [String(n)] for an integer *)
Definition decimal (z : Z) : string :=
  if (z <? 0)%Z then "-" ++ Radix.toString 10 (Z.to_N (- z))
  else Radix.toString 10 (Z.to_N z).

(** *** [makeETag] *)

(** The fields of [fs.Stats] the gateway reads; [mtimeMs] is the floor of
    the modification time in milliseconds. *)
Record stats : Type := Stats { st_size : N; st_mtimeMs : N }.

Definition quote : string := String (ascii_of_N 34) "".

Definition makeETag (st : stats) : string :=
  quote ++ Radix.toString 16 (st_size st) ++ "-"
        ++ Radix.toString 16 (st_mtimeMs st) ++ quote.

(** *** [tryDirectStreamFromIndexer] *)

(** A value an indexer method hands back. *)
Inductive returned : Type :=
| Undefined
| Readable (runs_to_end : bool)
| Other.

(** What a call of an indexer method does: it throws, returns a promise
    (that rejects, or fulfils with a value), or returns a value. *)
Inductive behaviour : Type :=
| CallThrows
| Promise (settles : option returned)
| Value (v : returned).

(** One call: its behaviour, and whether it pushed anything into the
    response before failing. *)
Record attempt : Type := Attempt { does : behaviour; wrote : bool }.

(** The methods the [indexer] object offers to the duck-typed probe;
    [None] is a method that does not exist. *)
Record indexer : Type := {
  downloadToStream : option attempt;
  downloadStream : option attempt;
  stream : option attempt;
  download_to_response : option attempt
}.

Inductive shape : Type :=
| RootWritable
| ReadableReturn.

Definition candidates (ix : indexer)
  : list (string * shape * attempt) :=
  (match downloadToStream ix with
   | Some a => [("downloadToStream", RootWritable, a)]
   | None => []
   end ++
   match downloadStream ix with
   | Some a => [("downloadStream", RootWritable, a)]
   | None => []
   end ++
   match stream ix with
   | Some a => [("stream", ReadableReturn, a)]
   | None => []
   end ++
   match download_to_response ix with
   | Some a => [("download", RootWritable, a)]
   | None => []
   end)%list.

(** Whether the probe takes a call as a finished delivery. *)
Definition delivers (s : shape) (b : behaviour) : bool :=
  match s, b with
  | _, CallThrows => false
  | _, Promise None => false
  | RootWritable, Promise (Some _) => true
  | RootWritable, Value Undefined => true
  | ReadableReturn, Promise (Some (Readable ok)) => ok
  | ReadableReturn, Promise (Some _) => false
  | _, Value (Readable ok) => ok
  | _, Value _ => false
  end.

Definition sent_already (r : response) : response :=
  {| statusCode := statusCode r; headers := headers r; body := body r;
     headersSent := true; ended := ended r; destroyed := destroyed r |}.

Definition destination_of (s : shape) : destination :=
  match s with
  | RootWritable => ToResponse
  | ReadableReturn => NoDestination
  end.

Fixpoint try_candidates (cs : list (string * shape * attempt))
         (root : string) (w : world) (r : response)
  : world * response * completion :=
  match cs with
  | [] => (w, r, Throws)
  | (name, s, a) :: rest =>
      let w1 := set_log (Invocation name root (destination_of s) :: log w) w in
      if delivers s (does a) then (w1, res_end (write FromIndexer r), Returns)
      else try_candidates rest root w1
                          (if wrote a then sent_already r else r)
  end.

Definition direct_headers (root : string) (r : response) : response :=
  setHeader "Content-Disposition"
            ("inline; filename=" ++ quote ++ root ++ quote)
    (setHeader "Transfer-Encoding" "chunked"
       (setHeader "Content-Type" "application/octet-stream"
          (setHeader "Access-Control-Allow-Origin" "*" r))).

Definition tryDirectStreamFromIndexer (ix : indexer) (w : world)
           (root : string) (r : response)
  : world * response * completion :=
  match candidates ix with
  | [] => (w, r, Throws)
  | cs => try_candidates cs root w (direct_headers root r)
  end.

(** *** The disk-backed path *)

Inductive outcome : Type :=
| Responded (r : response)
| Unhandled (r : response)
| Streaming (r : response).

(** What the disk-backed path obtains from its collaborators:
    [downloaded] is what [downloadToTmp] returned to, or threw at, this
    caller; [stat] is the result of [fsp.stat(filePath)] ([None] when it
    throws); [contentType] is the result of [resolveContentType];
    [lastModified] is [new Date(stat.mtimeMs).toUTCString()]. *)
Record disk_env : Type := {
  downloaded : result;
  stat : option stats;
  contentType : string;
  lastModified : string
}.

(** [path.basename(filePath)] *)
Definition basename (p : path) : string := List.last p "".

Definition common_headers (filePath : path) (etag : string)
           (e : disk_env) (r : response) : response :=
  setHeader "Last-Modified" (lastModified e)
    (setHeader "ETag" etag
       (setHeader "Accept-Ranges" "bytes"
          (setHeader "Content-Disposition"
                     ("inline; filename=" ++ quote ++ basename filePath
                                          ++ quote)
             (setHeader "Access-Control-Allow-Headers"
                        "Range, If-None-Match, If-Modified-Since"
                (setHeader "Access-Control-Allow-Methods"
                           "GET, HEAD, OPTIONS"
                   (setHeader "Access-Control-Allow-Origin" "*" r)))))).

Definition etag_matches (req : request) (etag : string) : bool :=
  match if_none_match req with
  | Some v => negb (is_empty v) && String.eqb v etag
  | None => false
  end.

(** From [const encodedCtx = await maybeGetOnchainCtx(rootHash)] to the
    end of the GET handler. *)
Definition serveFromDisk (req : request) (e : disk_env) (r : response)
  : outcome :=
  if headersSent r then Unhandled r
  else
    match downloaded e with
    | Thrown _ =>
        Responded (send (Literal "failed to fetch file from storage")
                        (status 502 r))
    | Resolved filePath =>
        match stat e with
        | None => Responded (send (Literal "file missing") (status 500 r))
        | Some st =>
            let fileSize := Z.of_N (st_size st) in
            let etag := makeETag st in
            let r1 := common_headers filePath etag e r in
            if etag_matches req etag then Responded (res_end (status 304 r1))
            else if truthy (range req) then
              match parseRangeHeader (range req) fileSize with
              | None =>
                  Responded
                    (res_end
                       (status 416
                          (setHeader "Content-Range"
                                     ("bytes */" ++ decimal fileSize) r1)))
              | Some w =>
                  let chunkSize := (end_ w - start w + 1)%Z in
                  Responded
                    (send (FileStream filePath (Some (start w, end_ w)))
                       (setHeader "Content-Type" (contentType e)
                          (setHeader "Content-Length" (decimal chunkSize)
                             (setHeader "Content-Range"
                                ("bytes " ++ decimal (start w) ++ "-"
                                          ++ decimal (end_ w) ++ "/"
                                          ++ decimal fileSize)
                                (status 206 r1)))))
              end
            else
              Responded
                (send (FileStream filePath None)
                   (setHeader "Content-Type" (contentType e)
                      (setHeader "Content-Length" (decimal fileSize)
                         (status 200 r1))))
        end
    end.

(** *** The GET handler *)

(** The collaborators of one GET: whether the demo page can be read, the
    indexer as the probe finds it, the turns granted to the polling loop,
    and the collaborators of the disk-backed path. *)
Record get_env : Type := {
  demo_readable : bool;
  ix : indexer;
  ticks : list tick;
  disk : disk_env
}.

Definition bad_request : response :=
  send (JsonError "Invalid rootHash format") (status 400 fresh).

Section Config.

Variable TMP_DIR : string.

Definition getStorage (w : world) (req : request) (e : get_env)
  : world * outcome :=
  let root := rootHash req in
  if negb (isValidRootHash (Str root)) then (w, Responded bad_request)
  else if negb (truthy (range req)) && wantsHtml req && demo_readable e then
    (w, Responded
          (send (DemoPage root)
                (status 200
                   (setHeader "Content-Type" "text/html; charset=utf-8"
                              fresh))))
  else if negb (truthy (range req)) then
    match tryDirectStreamFromIndexer (ix e) w root fresh with
    | (w1, r1, Returns) => (w1, Responded r1)
    | (w1, r1, _) =>
        match streamWhileDownloadingToRes TMP_DIR w1 root r1 (ticks e) with
        | (w2, r2, Returns) => (w2, Responded r2)
        | (w2, r2, Suspended) => (w2, Streaming r2)
        | (w2, r2, Throws) => (w2, serveFromDisk req (disk e) r2)
        end
    end
  else (w, serveFromDisk req (disk e) fresh).

End Config.

(** *** The HEAD handler *)

Definition headStorage (req : request) (e : disk_env) : response :=
  if negb (isValidRootHash (Str (rootHash req))) then bad_request
  else
    match downloaded e, stat e with
    | Resolved filePath, Some st =>
        let etag := makeETag st in
        let r1 :=
          setHeader "Last-Modified" (lastModified e)
            (setHeader "ETag" etag
               (setHeader "Content-Length" (decimal (Z.of_N (st_size st)))
                  (setHeader "Content-Type" (contentType e)
                     (setHeader "Accept-Ranges" "bytes"
                        (setHeader "Access-Control-Allow-Headers"
                                   "Range, If-None-Match, If-Modified-Since"
                           (setHeader "Access-Control-Allow-Methods"
                                      "GET, HEAD, OPTIONS"
                              (setHeader "Access-Control-Allow-Origin" "*"
                                         fresh))))))) in
        if etag_matches req etag then res_end (status 304 r1)
        else res_end (status 200 r1)
    | _, _ => res_end (status 502 fresh)
    end.

(** *** Facts about the handlers *)

Lemma try_candidates_keeps (cs : list (string * shape * attempt))
      (root : string) :
  forall w r w' r' how,
    try_candidates cs root w r = (w', r', how) ->
    statusCode r' = statusCode r /\ headers r' = headers r /\
    how <> Suspended /\ cache w' = cache w.
Proof.
  induction cs as [|[[name s] a] rest IH]; simpl; intros w r w' r' how E.
  - injection E as <- <- <-. repeat split. discriminate.
  - destruct (delivers s (does a)).
    + injection E as <- <- <-. repeat split. discriminate.
    + apply IH in E as (A & B & C & D). simpl in D.
      destruct (wrote a); simpl in A, B; auto.
Qed.

(** A response of the streaming paths: status 200, chunked, and none of
    the headers of the disk-backed path. *)
Definition streamed (r : response) : Prop :=
  statusCode r = 200%Z /\
  getHeader "Transfer-Encoding" r = Some "chunked" /\
  getHeader "Content-Length" r = None /\
  getHeader "Accept-Ranges" r = None /\
  getHeader "ETag" r = None /\
  getHeader "Last-Modified" r = None /\
  getHeader "Content-Range" r = None.

Lemma streamed_headers (r r' : response) :
  statusCode r' = statusCode r -> headers r' = headers r ->
  streamed r -> streamed r'.
Proof. unfold streamed, getHeader. intros -> ->. auto. Qed.

Lemma direct_headers_streamed (root : string) :
  streamed (direct_headers root fresh).
Proof. repeat split. Qed.

Lemma streaming_headers_streamed (key : string) (r : response) :
  statusCode r = 200%Z ->
  (headers r = [] \/ exists root, headers r = headers (direct_headers root fresh)) ->
  streamed (streaming_headers key r).
Proof.
  intros Hs Hh. unfold streamed, getHeader, streaming_headers. simpl.
  rewrite Hs. destruct Hh as [-> | [root ->]]; repeat split.
Qed.

Section Facts.

Variable TMP_DIR : string.

Lemma stream_outcome (w : world) (root : string) (r : response)
      (ts : list tick) :
  statusCode r = 200%Z ->
  (headers r = [] \/ exists root', headers r = headers (direct_headers root' fresh)) ->
  match streamWhileDownloadingToRes TMP_DIR w root r ts with
  | (_, r', Throws) => headersSent r' = true
  | (_, r', _) => streamed r'
  end.
Proof.
  intros Hs Hh. unfold streamWhileDownloadingToRes.
  destruct (headersSent r) eqn:Sent; [assumption|].
  destruct (poll ts Progressive.start) as [c how].
  pose proof (streaming_headers_streamed (safeName (now w) root) r Hs Hh)
    as St.
  destruct (write_chunks_keeps
              (partFile TMP_DIR (safeName (now w) root)) (sent c)
              (streaming_headers (safeName (now w) root) r))
    as (A & B & _).
  destruct how; eapply streamed_headers; try eassumption; simpl; assumption.
Qed.

(** A GET without a Range header that is not answered with the demo page
    is answered by one of the streaming paths, or not at all. *)
Lemma plain_get_streams (w : world) (req : request) (e : get_env) :
  isValidRootHash (Str (rootHash req)) = true ->
  truthy (range req) = false ->
  wantsHtml req && demo_readable e = false ->
  match (getStorage TMP_DIR w req e).2 with
  | Responded r | Streaming r => streamed r
  | Unhandled _ => True
  end.
Proof.
  intros V Hr Hh. unfold getStorage. rewrite V, Hr. simpl. rewrite Hh.
  unfold tryDirectStreamFromIndexer.
  destruct (candidates (ix e)) as [|c cs] eqn:Cs.
  - pose proof (stream_outcome w (rootHash req) fresh (ticks e) eq_refl
                               (or_introl eq_refl)) as S.
    destruct (streamWhileDownloadingToRes TMP_DIR w (rootHash req) fresh
                                          (ticks e)) as [[w2 r2] how].
    destruct how; simpl; try assumption.
    unfold serveFromDisk. rewrite S. exact I.
  - destruct (try_candidates (c :: cs) (rootHash req) w
                             (direct_headers (rootHash req) fresh))
      as [[w1 r1] how1] eqn:T.
    apply try_candidates_keeps in T as (A & B & C & _).
    destruct how1; [| |congruence].
    + simpl. eapply streamed_headers; [exact A | exact B |].
      apply direct_headers_streamed.
    + pose proof (stream_outcome w1 (rootHash req) r1 (ticks e)) as S.
      destruct (streamWhileDownloadingToRes TMP_DIR w1 (rootHash req) r1
                                            (ticks e)) as [[w2 r2] how].
      assert (S' := S A (or_intror (ex_intro _ (rootHash req) B))).
      destruct how; simpl; try assumption.
      unfold serveFromDisk. rewrite S'. exact I.
Qed.

Lemma ranged_get (w : world) (req : request) (e : get_env) :
  isValidRootHash (Str (rootHash req)) = true ->
  truthy (range req) = true ->
  getStorage TMP_DIR w req e = (w, serveFromDisk req (disk e) fresh).
Proof.
  intros V Hr. unfold getStorage. rewrite V, Hr. reflexivity.
Qed.

Lemma invalid_get (w : world) (req : request) (e : get_env) :
  isValidRootHash (Str (rootHash req)) = false ->
  getStorage TMP_DIR w req e = (w, Responded bad_request).
Proof. intros V. unfold getStorage. rewrite V. reflexivity. Qed.

End Facts.

(** *** The responses of the disk-backed path *)



(** What the disk-backed path answers once the artifact is on disk. *)
Definition disk_answer (req : request) (e : disk_env) (p : path) (st : stats)
           (r : response) : Prop :=
  let size := Z.of_N (st_size st) in
  if etag_matches req (makeETag st) then
    statusCode r = 304%Z /\ body r = []
  else if truthy (range req) then
    match parseRangeHeader (range req) size with
    | None =>
        statusCode r = 416%Z /\
        getHeader "Content-Range" r = Some ("bytes */" ++ decimal size) /\
        body r = []
    | Some w =>
        statusCode r = 206%Z /\
        getHeader "Content-Range" r =
          Some ("bytes " ++ decimal (start w) ++ "-" ++ decimal (end_ w)
                         ++ "/" ++ decimal size) /\
        getHeader "Content-Length" r =
          Some (decimal (end_ w - start w + 1)) /\
        body r = [FileStream p (Some (start w, end_ w))]
    end
  else
    statusCode r = 200%Z /\
    getHeader "Content-Length" r = Some (decimal size) /\
    body r = [FileStream p None].

Lemma disk_served (req : request) (e : disk_env) (p : path) (st : stats) :
  downloaded e = Resolved p -> stat e = Some st ->
  exists r,
    serveFromDisk req e fresh = Responded r /\
    getHeader "Accept-Ranges" r = Some "bytes" /\
    getHeader "ETag" r = Some (makeETag st) /\
    getHeader "Last-Modified" r = Some (lastModified e) /\
    ended r = true /\
    disk_answer req e p st r.
Proof.
  intros Hd Hs. unfold serveFromDisk, disk_answer. simpl.
  rewrite Hd, Hs.
  destruct (etag_matches req (makeETag st)).
  - eexists. split; [reflexivity|]. repeat split.
  - destruct (truthy (range req)).
    + destruct (parseRangeHeader (range req) (Z.of_N (st_size st))) as [w|];
        eexists; (split; [reflexivity|]); repeat split.
    + eexists. split; [reflexivity|]. repeat split.
Qed.


(** The statuses of the disk-backed path. *)
Lemma disk_statuses (req : request) (e : disk_env) (r : response) :
  serveFromDisk req e fresh = Responded r ->
  In (statusCode r) [200; 206; 304; 416; 500; 502]%Z.
Proof.
  unfold serveFromDisk. simpl.
  destruct (downloaded e) as [p|msg].
  - destruct (stat e) as [st|].
    + destruct (etag_matches req (makeETag st)).
      * intros E. injection E as <-. simpl. tauto.
      * destruct (truthy (range req)).
        -- destruct (parseRangeHeader (range req) (Z.of_N (st_size st)));
             intros E; injection E as <-; simpl; tauto.
        -- intros E. injection E as <-. simpl. tauto.
    + intros E. injection E as <-. simpl. tauto.
  - intros E. injection E as <-. simpl. tauto.
Qed.

Section MoreFacts.

Variable TMP_DIR : string.

(** A GET without a Range header is answered 200 with no Content-Range,
    whichever path serves it. *)
Lemma unranged_get (w : world) (req : request) (e : get_env) :
  isValidRootHash (Str (rootHash req)) = true ->
  truthy (range req) = false ->
  match (getStorage TMP_DIR w req e).2 with
  | Responded r | Streaming r =>
      statusCode r = 200%Z /\ getHeader "Content-Range" r = None
  | Unhandled _ => True
  end.
Proof.
  intros V Hr.
  destruct (wantsHtml req && demo_readable e) eqn:Hh.
  - unfold getStorage. rewrite V, Hr. simpl. rewrite Hh. simpl. auto.
  - pose proof (plain_get_streams TMP_DIR w req e V Hr Hh) as S.
    destruct ((getStorage TMP_DIR w req e).2) as [r|r|r]; try exact I;
      destruct S as (A & _ & _ & _ & _ & _ & B); auto.
Qed.

(** An accepted key is never answered 400. *)
Lemma valid_get_not_400 (w : world) (req : request) (e : get_env) :
  isValidRootHash (Str (rootHash req)) = true ->
  match (getStorage TMP_DIR w req e).2 with
  | Responded r => statusCode r <> 400%Z
  | _ => True
  end.
Proof.
  intros V. destruct (truthy (range req)) eqn:Hr.
  - rewrite (ranged_get TMP_DIR w req e V Hr). simpl.
    destruct (serveFromDisk req (disk e) fresh) as [r|r|r] eqn:E; try exact I.
    apply disk_statuses in E. simpl in E. intros Hs. rewrite Hs in E.
    intuition discriminate.
  - pose proof (unranged_get w req e V Hr) as S.
    destruct ((getStorage TMP_DIR w req e).2) as [r|r|r]; try exact I.
    destruct S as [-> _]. discriminate.
Qed.

End MoreFacts.

End Gateway.

(** * The claims of the specification, settled against the embedding *)

Module Claims.
Import Js RootHash Cache World Coordinator Http Progressive Gateway.

(** ** Concrete collaborators used by the witnesses and counterexamples *)

Definition tmp : string := "/tmp/og-gateway-tmp".

(** [CACHE_MAX_ENTRIES] and [CACHE_MAX_AGE_MS] at their defaults. *)
Definition defaults : options := Options 200 (1000 * 60 * 60).

Definition K : string := test_hash.

(** A GET for [K] with no headers of interest. *)
Definition plain_get : request :=
  {| rootHash := K; range := None; accept := None; if_none_match := None |}.

Definition get_range (h : string) : request :=
  {| rootHash := K; range := Some h; accept := None; if_none_match := None |}.

(** An indexer that offers [download] only, and whose [download] rejects
    when handed a response object instead of a file path. *)
Definition files_only : indexer :=
  {| downloadToStream := None; downloadStream := None; stream := None;
     download_to_response := Some (Attempt (Promise None) false) |}.

Definition no_pump : pump_env := PumpEnv None None.

(** Collaborators of the disk-backed path for a 1000-byte artifact. *)
Definition disk_1000 : disk_env :=
  {| downloaded := Resolved (tmpFile tmp (key_of K));
     stat := Some (Stats 1000 1730000000000);
     contentType := "video/mp4";
     lastModified := "Sun, 27 Oct 2024 03:33:20 GMT" |}.

(** ** C1 *)





(** Three calls for [K] arrive while the fetch is pending; then all three
    return. *)
Definition three_callers : list event :=
  [Enter 1 K; Enter 2 K; UnlinkDone 0; Enter 3 K;
   DownloadDone 0 (DlNull 10); StatDone 0; Resume 2; Resume 1; Resume 3].

Definition after_three_callers : world :=
  default (boot ∅) (run tmp defaults (boot ∅) three_callers).


Example three_callers_one_fetch :
  fetches K after_three_callers = 1 /\
  (c_state <$> calls after_three_callers !! 1,
   c_state <$> calls after_three_callers !! 2,
   c_state <$> calls after_three_callers !! 3) =
  (Some (Returned (Resolved (tmpFile tmp (key_of K)))),
   Some (Returned (Resolved (tmpFile tmp (key_of K)))),
   Some (Returned (Resolved (tmpFile tmp (key_of K))))).
Proof. split; vm_compute; reflexivity. Qed.

(** ** C2 *)



(** Two calls for [K] arrive together; the fetch returns an error after
    writing four bytes; the promise cleans up; both calls return. *)
Definition two_callers_before_error : list event :=
  [Enter 1 K; Enter 2 K; UnlinkDone 0].

Definition two_callers_after_error : list event :=
  [CleanupDone 0; Resume 2; Resume 1].

Definition after_failed_fetch : world :=
  default (boot ∅)
    (run tmp defaults (boot ∅)
         (two_callers_before_error
            ++ DownloadDone 0 (DlError "file not found" (Some 4%N))
            :: two_callers_after_error)%list).


Example both_callers_got_the_error :
  (c_state <$> calls after_failed_fetch !! 1,
   c_state <$> calls after_failed_fetch !! 2) =
  (Some (Returned (Thrown (failure_message "file not found"))),
   Some (Returned (Thrown (failure_message "file not found")))).
Proof. vm_compute. reflexivity. Qed.

(** ** C3 *)

(** The scratch file already holds all its bytes when the loop first
    looks, and the download has completed. *)
Definition completed_early (size : N) : tick :=
  Tick true (PumpEnv (Some size) (Some size)) Fulfilled
       (PumpEnv (Some size) (Some size)) false.

(** Claim C3, the code at a failing input.  The artifact is 1,572,864
    bytes (three chunks of 512 KiB).  On the loop's first turn the scratch
    file does not exist yet; the download writes the whole file and
    completes while the loop sleeps.  On its second turn the loop reads
    one chunk, sees the download completed, makes its one final read, and
    stops: 1,048,576 bytes are delivered, in two contiguous chunks, and
    the last 524,288 bytes of the artifact are never sent. *)
Theorem progressive_delivery_stops_after_final_read :
  poll [Tick false no_pump Pending no_pump false;
        completed_early (3 * maxChunk)] Progressive.start =
    (Cursor true (2 * maxChunk) [(0, maxChunk); (maxChunk, maxChunk)],
     Drained)%N /\
  total [(0, maxChunk); (maxChunk, maxChunk)]%N = (2 * maxChunk)%N /\
  (2 * maxChunk < 3 * maxChunk)%N.
Proof.
  split; [vm_compute; reflexivity|].
  split; [vm_compute; reflexivity|].
  unfold maxChunk. lia.
Qed.

(** ** C4 *)




(** ** C5 *)








(** ** C6 *)


(** ** C7 *)


(** ** C8 *)

(** The artifact is complete when the progressive path first looks. *)
Definition env_streams_all : get_env :=
  {| demo_readable := false; ix := files_only;
     ticks := [completed_early 1000]; disk := disk_1000 |}.



Example ranged_get_206 :
  exists r,
    getStorage tmp (boot ∅) (get_range "bytes=0-99") env_streams_all
      = (boot ∅, Responded r) /\
    statusCode r = 206%Z /\
    getHeader "Content-Range" r = Some "bytes 0-99/1000" /\
    getHeader "Content-Length" r = Some "100".
Proof. eexists. split; [vm_compute; reflexivity|]. repeat split. Qed.

(** ** C9 *)

(** Claim C9.  [isValidRootHash] accepts exactly the strings made of [0x]
    and 64 hexadecimal digits.  A GET or HEAD whose key is not accepted is
    answered 400 at once: the process state (index, locks, scratch files,
    calls to the indexer) is returned unchanged and no collaborator is
    consulted.  A GET whose key is accepted is never answered 400. *)
Theorem key_validation :
  (forall s, isValidRootHash (Str s) = true <-> Regex.matches key_re s) /\
  statusCode bad_request = 400%Z /\
  (forall TMP_DIR w req e,
      isValidRootHash (Str (rootHash req)) = false ->
      getStorage TMP_DIR w req e = (w, Responded bad_request)) /\
  (forall req e,
      isValidRootHash (Str (rootHash req)) = false ->
      headStorage req e = bad_request) /\
  (forall TMP_DIR w req e,
      isValidRootHash (Str (rootHash req)) = true ->
      match (getStorage TMP_DIR w req e).2 with
      | Responded r => statusCode r <> 400%Z
      | _ => True
      end).
Proof.
  split; [apply isValidRootHash_iff_key_re|].
  split; [reflexivity|].
  split; [intros; apply invalid_get; assumption|].
  split.
  - intros req e V. unfold headStorage. rewrite V. reflexivity.
  - intros. apply valid_get_not_400. assumption.
Qed.

(** ** C10 *)

(** Claim C10, counterexample.  The input [0x] contains a hexadecimal
    digit, the [0] of its prefix, but [safeName] strips the prefix first,
    finds nothing left and returns the clock in radix 36, here
    [m2r1bz7k], which is not made of hexadecimal digits. *)
Lemma safeName_of_bare_prefix :
  any is_hex "0x" = true /\
  safeName 1730000000000 "0x" = "m2r1bz7k" /\
  all is_hex (safeName 1730000000000 "0x") = false.
Proof.
  split; [reflexivity|].
  assert (E : safeName 1730000000000 "0x" = "m2r1bz7k")
    by (vm_compute; reflexivity).
  rewrite E. split; reflexivity.
Qed.

(** Claim C10, as amended.  For every input and every clock value,
    [safeName] returns a non-empty name without slash, backslash or dot,
    so that [path.join(TMP_DIR, name)] is a direct child of the scratch
    directory.  The name is the first 128 hexadecimal digits of the
    input, a leading [0x] set aside, when there is one, and the clock in
    radix 36 (digits and lower-case letters) when there is none; with
    the clock below 2^53 it has at most 128 characters either way.  For
    an accepted key it is the key without its [0x]: exactly 64
    hexadecimal digits. *)
Theorem safeName_is_a_safe_scratch_name
        (TMP_DIR : string) (now : N) (input : string) :
  let name := safeName now input in
  Path.plain_name name /\
  Path.join TMP_DIR name = (Path.normalize TMP_DIR ++ [name])%list /\
  (any is_hex (RootHash.body input) = true ->
   name = slice_to 128 (keep is_hex (RootHash.body input)) /\
   all is_hex name = true /\
   (1 <= String.length name <= 128)%nat) /\
  (any is_hex (RootHash.body input) = false ->
   name = Radix.toString 36 now /\ all Radix.is_base36 name = true) /\
  ((now < 2 ^ 53)%N -> (1 <= String.length name <= 128)%nat) /\
  (isValidRootHash (Str input) = true ->
   input = "0x" ++ name /\ String.length name = 64%nat /\
   all is_hex name = true).
Proof.
  destruct (safeName_shape TMP_DIR now input) as (P & J & Hhex & Hts & Hv).
  intros name. split; [exact P|]. split; [exact J|].
  split; [exact Hhex|]. split; [exact Hts|]. split; [|exact Hv].
  intros Hnow. destruct (any is_hex (RootHash.body input)) eqn:E.
  - apply (Hhex eq_refl).
  - destruct (Hts eq_refl) as [Hname _]. fold name in Hname. rewrite Hname.
    pose proof (Radix.toString_length 36 now Hnow). lia.
Qed.

(** ** Further properties *)

(** X1.  Whatever the polling loop observes, the chunks it writes to the
    response start at offset 0, are non-empty, each starts where the one
    before it ends, and together they are as long as the read cursor has
    advanced: no byte is written twice and none is skipped. *)
Theorem progressive_chunks_are_contiguous (ticks : list tick) :
  tiles 0 (sent (poll ticks Progressive.start).1)
          (position (poll ticks Progressive.start).1) /\
  total (sent (poll ticks Progressive.start).1)
  = position (poll ticks Progressive.start).1.
Proof.
  assert (T : tiled (poll ticks Progressive.start).1)
    by (apply poll_tiled; reflexivity).
  split; [exact T|]. apply tiles_total in T. lia.
Qed.

(** X2.  For every header text and every size, [parseRangeHeader] rejects
    exactly when the trimmed text has none of the forms [bytes=a-b],
    [bytes=a-], [bytes=-n], or it has one and that form is rejected:
    start after end or not below the size, or a suffix length of zero. *)
Theorem range_rejected_exactly_when (h : string) (fileSize : Z) :
  Range.parseRangeHeader (Some h) fileSize = None <->
  ~ Range.well_formed h \/
  exists f, Range.reads_as h f /\ Range.rejected f fileSize.
Proof. apply Range.parseRangeHeader_rejects_iff. Qed.

(** X3.  For an object of at least one byte, every window that
    [parseRangeHeader] returns lies inside the object, its end clamped to
    the last byte. *)
Theorem range_within_object (hdr : option string) (fileSize : Z)
        (w : Range.window) :
  (0 < fileSize)%Z ->
  Range.parseRangeHeader hdr fileSize = Some w ->
  (0 <= Range.start w <= Range.end_ w /\ Range.end_ w < fileSize)%Z.
Proof. apply Range.window_within_object. Qed.

Lemma range_within_object_witness :
  (0 <= Range.start (Range.Window 990 999)
     <= Range.end_ (Range.Window 990 999) /\
   Range.end_ (Range.Window 990 999) < 1000)%Z.
Proof.
  apply (range_within_object (Some "bytes=990-5000") 1000);
    [lia | reflexivity].
Defined.

(** X4.  A HEAD for an accepted key answers 502 when [downloadToTmp]
    throws or the file cannot be examined; otherwise it answers without a
    body, 304 when If-None-Match equals the ETag and 200 when it does
    not, with Content-Length (the size in decimal), Accept-Ranges, ETag
    and Last-Modified. *)
Theorem head_responses (req : request) (e : disk_env) :
  isValidRootHash (Str (rootHash req)) = true ->
  (forall msg, downloaded e = Thrown msg ->
               statusCode (headStorage req e) = 502%Z) /\
  (forall p, downloaded e = Resolved p -> stat e = None ->
             statusCode (headStorage req e) = 502%Z) /\
  (forall p st,
      downloaded e = Resolved p -> stat e = Some st ->
      statusCode (headStorage req e)
      = (if etag_matches req (makeETag st) then 304 else 200)%Z /\
      body (headStorage req e) = [] /\
      ended (headStorage req e) = true /\
      getHeader "Content-Length" (headStorage req e)
      = Some (decimal (Z.of_N (st_size st))) /\
      getHeader "Accept-Ranges" (headStorage req e) = Some "bytes" /\
      getHeader "ETag" (headStorage req e) = Some (makeETag st) /\
      getHeader "Last-Modified" (headStorage req e)
      = Some (lastModified e)).
Proof.
  intros V. unfold headStorage. rewrite V. cbn [negb].
  split; [intros msg ->; reflexivity|].
  split; [intros p -> ->; reflexivity|].
  intros p st -> ->. cbv zeta.
  destruct (etag_matches req (makeETag st)); repeat split.
Qed.

Lemma head_responses_witness :
  statusCode (headStorage plain_get disk_1000) = 200%Z /\
  getHeader "Content-Length" (headStorage plain_get disk_1000)
  = Some "1000" /\
  getHeader "ETag" (headStorage plain_get disk_1000)
  = Some (makeETag (Stats 1000 1730000000000)).
Proof.
  destruct (head_responses plain_get disk_1000) as (_ & _ & H);
    [vm_compute; reflexivity|].
  destruct (H (tmpFile tmp (key_of K)) (Stats 1000 1730000000000)
              eq_refl eq_refl) as (S & _ & _ & L & _ & E & _).
  split; [exact S|]. split; [exact L|]. exact E.
Defined.

End Claims.

(** * More of the gateway

    The modules below cover the code around the places the claims look
    at: number formatting and the validators built from it, the range
    grammar as a client writes it, the earlier revision of the helpers,
    the demo-page route, content-type resolution, the index and the lock
    table across whole runs, and the streaming paths. *)

(** ** Numerals: [n.toString(radix)] read back *)

Module Numerals.
Import Js Radix.

Local Open Scope N_scope.

(** The value of a digit character [0-9a-z]. *)
Definition undigit (c : ascii) : N :=
  if is_digit c then code c - 48 else code c - 87.

(** The number a string of digits denotes in a radix, most significant
    digit first. *)
Fixpoint value (radix acc : N) (s : string) : N :=
  match s with
  | EmptyString => acc
  | String c r => value radix (acc * radix + undigit c) r
  end.

Lemma undigit_digit (d : N) : d < 36 -> undigit (digit d) = d.
Proof.
  intros H. unfold undigit, digit, is_digit, in_range, code.
  destruct (d <? 10) eqn:E.
  - apply N.ltb_lt in E. rewrite N_ascii_embedding by lia.
    change (N_of_ascii "0") with 48. change (N_of_ascii "9") with 57.
    replace (48 <=? 48 + d) with true by (symmetry; apply N.leb_le; lia).
    replace (48 + d <=? 57) with true by (symmetry; apply N.leb_le; lia).
    simpl. lia.
  - apply N.ltb_ge in E. rewrite N_ascii_embedding by lia.
    change (N_of_ascii "0") with 48. change (N_of_ascii "9") with 57.
    replace (87 + d <=? 57) with false by (symmetry; apply N.leb_gt; lia).
    rewrite andb_false_r. lia.
Qed.

Lemma value_app (radix : N) (x y : string) :
  forall acc, value radix acc (x ++ y) = value radix (value radix acc x) y.
Proof. induction x as [|c x IH]; simpl; intros acc; [reflexivity | apply IH]. Qed.

(** [render] puts the digits of [n] in front of the accumulator, provided
    the fuel covers them. *)
Lemma render_digits (radix : N) (fuel : nat) :
  2 <= radix <= 36 ->
  forall n acc,
    n < radix ^ N.of_nat fuel ->
    exists ds,
      render fuel radix n acc = ds ++ acc /\
      (forall a, value radix a ds
                 = a * radix ^ N.of_nat (String.length ds) + n) /\
      (forall p : ascii -> bool,
          (forall d, d < radix -> p (digit d) = true) -> all p ds = true).
Proof.
  intros Hr. induction fuel as [|fuel IH]; intros n acc Hn.
  - exists "". simpl in *. split; [reflexivity|].
    split; [intros a; lia | reflexivity].
  - simpl render.
    assert (Hm : n mod radix < radix) by (apply N.mod_lt; lia).
    destruct (n / radix =? 0) eqn:E.
    + apply N.eqb_eq in E.
      assert (n < radix) by (apply N.div_small_iff in E; lia).
      exists (String (digit (n mod radix)) "").
      split; [reflexivity|]. split.
      * intros a. simpl. rewrite undigit_digit by lia.
        rewrite N.mod_small by assumption.
        change (N.of_nat 1) with 1. rewrite N.pow_1_r. reflexivity.
      * intros p Hp. simpl. rewrite Hp by assumption. reflexivity.
    + apply N.eqb_neq in E.
      assert (Hq : n / radix < radix ^ N.of_nat fuel).
      { apply N.Div0.div_lt_upper_bound.
        rewrite Nat2N.inj_succ, N.pow_succ_r' in Hn. lia. }
      destruct (IH (n / radix) (String (digit (n mod radix)) acc) Hq)
        as (ds & Er & Hv & Hall).
      exists (ds ++ String (digit (n mod radix)) "").
      split; [|split].
      * rewrite Er. clear. induction ds as [|c ds IHd]; simpl; congruence.
      * intros a. rewrite value_app, Hv. simpl.
        rewrite undigit_digit by lia.
        assert (L : String.length (ds ++ String (digit (n mod radix)) "")
                    = S (String.length ds)).
        { clear. induction ds as [|c ds IHd]; simpl; congruence. }
        rewrite L, Nat2N.inj_succ, N.pow_succ_r'.
        pose proof (N.div_mod n radix ltac:(lia)). nia.
      * intros p Hp. rewrite all_app, (Hall p Hp). simpl.
        rewrite Hp by assumption. reflexivity.
Qed.

Lemma size_nat_bound (n : N) : n < 2 ^ N.of_nat (N.size_nat n).
Proof.
  destruct n as [|p]; simpl; [lia|].
  induction p as [p IH|p IH|]; simpl Pos.size_nat;
    rewrite ?Nat2N.inj_succ, ?N.pow_succ_r'; simpl; lia.
Qed.

Lemma fuel_enough (radix n : N) :
  2 <= radix -> n < radix ^ N.of_nat (S (N.size_nat n)).
Proof.
  intros Hr. pose proof (size_nat_bound n) as B.
  rewrite Nat2N.inj_succ, N.pow_succ_r'.
  assert (2 ^ N.of_nat (N.size_nat n) <= radix ^ N.of_nat (N.size_nat n))
    by (apply N.pow_le_mono_l; lia).
  nia.
Qed.

(** The digits of [n.toString(radix)]. *)
Lemma toString_digits (radix n : N) :
  2 <= radix <= 36 ->
  value radix 0 (toString radix n) = n /\
  toString radix n <> ""%string /\
  forall p : ascii -> bool,
    (forall d, d < radix -> p (digit d) = true) ->
    all p (toString radix n) = true.
Proof.
  intros Hr. unfold toString.
  destruct (render_digits radix (S (N.size_nat n)) Hr n ""
                          (fuel_enough radix n ltac:(lia)))
    as (ds & E & Hv & Hall).
  rewrite E, Range.app_empty_r. split; [rewrite Hv; lia|].
  split; [|exact Hall].
  rewrite <- (Range.app_empty_r ds), <- E. apply toString_nonempty.
Qed.

Lemma toString_inj (radix n m : N) :
  2 <= radix <= 36 -> toString radix n = toString radix m -> n = m.
Proof.
  intros Hr E.
  rewrite <- (proj1 (toString_digits radix n Hr)),
          <- (proj1 (toString_digits radix m Hr)), E.
  reflexivity.
Qed.

Lemma digit_hex (d : N) : d < 16 -> is_hex (digit d) = true.
Proof.
  intros H. apply hex_code. unfold digit, code.
  destruct (d <? 10) eqn:E.
  - apply N.ltb_lt in E. rewrite N_ascii_embedding by lia. lia.
  - apply N.ltb_ge in E. rewrite N_ascii_embedding by lia. lia.
Qed.

Lemma digit_decimal (d : N) : d < 10 -> is_digit (digit d) = true.
Proof.
  intros H. apply digit_code. unfold digit, code.
  replace (d <? 10) with true by (symmetry; apply N.ltb_lt; lia).
  rewrite N_ascii_embedding by lia. lia.
Qed.

(** On a run of decimal digits the value read by [parseInt] is the value
    of the numeral. *)
Lemma digits_val_value (s : string) :
  all is_digit s = true ->
  forall acc, digits_val (Z.of_N acc) s = Z.of_N (value 10 acc s).
Proof.
  induction s as [|c s IH]; simpl; intros H acc; [reflexivity|].
  apply andb_true_iff in H as [Hc Hs].
  rewrite <- (IH Hs). f_equal.
  unfold digit_val, undigit. rewrite Hc.
  apply digit_code in Hc. lia.
Qed.

End Numerals.


(** ** Validators and range texts

    [makeETag] and [String(n)] are built from [toString]; what they
    print can be read back. *)

Module Validators.
Import Js Radix Numerals RootHash Cache World Http Range Gateway.

Lemma hex_numeral (n : N) :
  all is_hex (toString 16 n) = true.
Proof.
  apply (toString_digits 16 n); [lia|]. intros d. apply digit_hex.
Qed.

Lemma makeETag_inj (a b : stats) : makeETag a = makeETag b -> a = b.
Proof.
  destruct a as [sa ma], b as [sb mb]. unfold makeETag, quote. simpl.
  intros E. injection E as E.
  apply (f_equal (span is_hex)) in E.
  rewrite !span_app in E by (try apply hex_numeral; reflexivity).
  injection E as Es E.
  apply (f_equal (span is_hex)) in E.
  rewrite !span_app in E by (try apply hex_numeral; reflexivity).
  injection E as Em.
  apply toString_inj in Es; [|lia]. apply toString_inj in Em; [|lia].
  congruence.
Qed.

(** *** Decimal numerals *)

Lemma decimal_digits (z : Z) :
  (0 <= z)%Z ->
  all is_digit (decimal z) = true /\ decimal z <> "" /\
  digits_val 0 (decimal z) = z.
Proof.
  intros Hz. unfold decimal.
  replace (z <? 0)%Z with false by (symmetry; apply Z.ltb_ge; lia).
  destruct (toString_digits 10 (Z.to_N z) ltac:(lia)) as (Hv & Hne & Hall).
  assert (Hd : all is_digit (toString 10 (Z.to_N z)) = true)
    by (apply Hall; intros d; apply digit_decimal).
  split; [exact Hd|]. split; [exact Hne|].
  change 0%Z with (Z.of_N 0). rewrite (digits_val_value _ Hd), Hv. lia.
Qed.

Definition no_space (c : ascii) : bool := negb (is_space c).

Lemma trimEnd_no_space (s : string) : all no_space s = true -> trimEnd s = s.
Proof.
  induction s as [|c s IH]; simpl; [reflexivity|].
  intros H. apply andb_true_iff in H as [Hc Hs]. rewrite (IH Hs).
  unfold no_space in Hc. apply negb_true_iff in Hc. rewrite Hc. reflexivity.
Qed.

Lemma trim_no_space (s : string) : all no_space s = true -> trim s = s.
Proof.
  intros H. unfold trim.
  assert (E : trimStart s = s).
  { destruct s as [|c s]; [reflexivity|]. simpl in *.
    apply andb_true_iff in H as [Hc _]. unfold no_space in Hc.
    apply negb_true_iff in Hc. rewrite Hc. reflexivity. }
  rewrite E. apply trimEnd_no_space. assumption.
Qed.

Lemma digits_no_space (s : string) :
  all is_digit s = true -> all no_space s = true.
Proof.
  apply all_impl. intros c Hc. unfold no_space.
  rewrite (digit_not_space c Hc). reflexivity.
Qed.

(** A range text written with digits only is its own trimmed form. *)
Lemma range_text_trim (a b : string) :
  all is_digit a = true -> all is_digit b = true ->
  trim ("bytes=" ++ a ++ "-" ++ b) = "bytes=" ++ a ++ "-" ++ b.
Proof.
  intros Ha Hb. apply trim_no_space.
  change ("bytes=" ++ a ++ "-" ++ b)
    with ("bytes=" ++ (a ++ ("-" ++ b))).
  rewrite !all_app, (digits_no_space a Ha), (digits_no_space b Hb).
  reflexivity.
Qed.

Lemma reads_start_end (a b : Z) :
  (0 <= a)%Z -> (0 <= b)%Z ->
  reads_as ("bytes=" ++ decimal a ++ "-" ++ decimal b) (StartEnd a b).
Proof.
  intros Ha Hb.
  destruct (decimal_digits a Ha) as (Da & Na & Va).
  destruct (decimal_digits b Hb) as (Db & Nb & Vb).
  exists (decimal a), (decimal b).
  split; [apply range_text_trim; assumption|]. auto 10.
Qed.

Lemma reads_start_open (a : Z) :
  (0 <= a)%Z -> reads_as ("bytes=" ++ decimal a ++ "-") (StartOpen a).
Proof.
  intros Ha. destruct (decimal_digits a Ha) as (Da & Na & Va).
  exists (decimal a), "".
  split; [apply (range_text_trim (decimal a) ""); auto|]. auto 10.
Qed.

Lemma reads_suffix (n : Z) :
  (0 <= n)%Z -> reads_as ("bytes=-" ++ decimal n) (SuffixLen n).
Proof.
  intros Hn. destruct (decimal_digits n Hn) as (Dn & Nn & Vn).
  exists "", (decimal n).
  split; [apply (range_text_trim "" (decimal n)); auto|]. auto 10.
Qed.


(** X5.  The validator identifies the size and the modification time it was
    made from: two files get the same ETag only when both coincide. *)
Theorem etag_identifies_size_and_mtime (a b : stats) :
  makeETag a = makeETag b <->
  st_size a = st_size b /\ st_mtimeMs a = st_mtimeMs b.
Proof.
  split.
  - intros E. apply makeETag_inj in E. subst. auto.
  - destruct a, b. simpl. intros [-> ->]. reflexivity.
Qed.



(** X7.  The three forms of a range, written with [String(n)] and read by
    [parseRangeHeader]: [bytes=a-b] selects [a] to [min(b, size-1)] unless
    [a > b] or [a >= size]; [bytes=a-] selects [a] to [size-1] unless
    [a >= size]; [bytes=-n] with [n > 0] selects the last [n] bytes. *)
Theorem range_text_round_trip (a b size : Z) :
  (0 <= a)%Z -> (0 <= b)%Z ->
  parseRangeHeader (Some ("bytes=" ++ decimal a ++ "-" ++ decimal b)) size
  = (if (a >? b)%Z || (a >=? size)%Z then None
     else Some (Window a (Z.min b (size - 1)))) /\
  parseRangeHeader (Some ("bytes=" ++ decimal a ++ "-")) size
  = (if (a >=? size)%Z then None else Some (Window a (size - 1))) /\
  parseRangeHeader (Some ("bytes=-" ++ decimal b)) size
  = (if (b <=? 0)%Z then None
     else Some (Window (Z.max 0 (size - b)) (size - 1))).
Proof.
  intros Ha Hb.
  rewrite (parse_form _ _ size (reads_start_end a b Ha Hb)).
  rewrite (parse_form _ _ size (reads_start_open a Ha)).
  rewrite (parse_form _ _ size (reads_suffix b Hb)).
  simpl. destruct (a >? b)%Z; auto.
Qed.

Lemma range_text_round_trip_witness :
  parseRangeHeader (Some ("bytes=" ++ decimal 100 ++ "-" ++ decimal 5000))
                   1000
  = (if (100 >? 5000)%Z || (100 >=? 1000)%Z then None
     else Some (Window 100 (Z.min 5000 (1000 - 1)))) /\
  parseRangeHeader (Some ("bytes=" ++ decimal 100 ++ "-")) 1000
  = (if (100 >=? 1000)%Z then None else Some (Window 100 (1000 - 1))) /\
  parseRangeHeader (Some ("bytes=-" ++ decimal 5000)) 1000
  = (if (5000 <=? 0)%Z then None
     else Some (Window (Z.max 0 (1000 - 5000)) (1000 - 1))).
Proof. apply (range_text_round_trip 100 5000 1000); lia. Defined.

(** X8.  A ranged GET for the bytes [a] to [b] of a file that has them is
    answered 206 with exactly that slice of the file, its length in
    Content-Length and [bytes a-b/size] in Content-Range. *)
Theorem ranged_get_serves_the_slice
        (req : request) (e : disk_env) (p : path) (st : stats) (a b : Z) :
  downloaded e = Resolved p -> stat e = Some st ->
  etag_matches req (makeETag st) = false ->
  range req = Some ("bytes=" ++ decimal a ++ "-" ++ decimal b) ->
  (0 <= a <= b)%Z -> (b < Z.of_N (st_size st))%Z ->
  exists r,
    serveFromDisk req e fresh = Responded r /\
    statusCode r = 206%Z /\
    body r = [FileStream p (Some (a, b))] /\
    getHeader "Content-Length" r = Some (decimal (b - a + 1)) /\
    getHeader "Content-Range" r
    = Some ("bytes " ++ decimal a ++ "-" ++ decimal b ++ "/"
                     ++ decimal (Z.of_N (st_size st))).
Proof.
  intros Hd Hs He Hr Hab Hb.
  destruct (disk_served req e p st Hd Hs) as (r & E & _ & _ & _ & _ & A).
  exists r. split; [exact E|].
  unfold disk_answer in A. rewrite He, Hr in A.
  rewrite (parse_form _ _ (Z.of_N (st_size st))
                      (reads_start_end a b ltac:(lia) ltac:(lia))) in A.
  replace (a >? b)%Z with false in A by lia.
  replace (a >=? Z.of_N (st_size st))%Z with false in A by lia.
  cbn [selected] in A. rewrite Z.min_l in A by lia.
  change (truthy (Some ("bytes=" ++ decimal a ++ "-" ++ decimal b)))
    with true in A.
  simpl in A. tauto.
Qed.

Lemma ranged_get_serves_the_slice_witness :
  exists r,
    serveFromDisk
      {| rootHash := test_hash;
         range := Some ("bytes=" ++ decimal 100 ++ "-" ++ decimal 199);
         accept := None; if_none_match := None |}
      {| downloaded := Resolved ["tmp"; "og"];
         stat := Some (Stats 1000 1730000000000);
         contentType := "video/mp4"; lastModified := "" |}
      fresh = Responded r /\
    statusCode r = 206%Z /\
    body r = [FileStream ["tmp"; "og"] (Some (100, 199)%Z)] /\
    getHeader "Content-Length" r = Some (decimal (199 - 100 + 1)) /\
    getHeader "Content-Range" r
    = Some ("bytes " ++ decimal 100 ++ "-" ++ decimal 199 ++ "/"
                     ++ decimal (Z.of_N (st_size (Stats 1000 1730000000000)))).
Proof.
  apply (ranged_get_serves_the_slice _ _ ["tmp"; "og"]
           (Stats 1000 1730000000000) 100 199);
    try reflexivity; simpl; lia.
Defined.

End Validators.

(** ** The earlier revision of the helpers

    The gateway's documentation carries the previous revision of
    [src/gateway.ts]; its [safeName] does not filter and its
    [parseRangeHeader] knows no suffix form and does not trim. *)

Module Legacy.
Import Js Range RootHash.

Local Open Scope Z_scope.

(** [safeName(rootHash)] *)
Definition safeName (rootHash : string) : string :=
  if startsWith rootHash "0x" then slice_from 2 rootHash else rootHash.

(** A JavaScript number that is an integer or [NaN]; every comparison
    with [NaN] is false and [Math.min] of [NaN] is [NaN]. *)
Inductive num : Type :=
| NaN
| Num (z : Z).

Definition of_parse (o : option Z) : num :=
  match o with
  | Some z => Num z
  | None => NaN
  end.

Definition gt (a b : num) : bool :=
  match a, b with
  | Num x, Num y => x >? y
  | _, _ => false
  end.

Definition lt (a b : num) : bool :=
  match a, b with
  | Num x, Num y => x <? y
  | _, _ => false
  end.

Definition ge (a b : num) : bool :=
  match a, b with
  | Num x, Num y => x >=? y
  | _, _ => false
  end.

Definition min (a b : num) : num :=
  match a, b with
  | Num x, Num y => Num (Z.min x y)
  | _, _ => NaN
  end.

Record span_of : Type := SpanOf { first_byte : num; last_byte : num }.

(** [parseRangeHeader(rangeHeader, fileSize)]; a missing group is [null]
    (here [None]) and is replaced by its default through [??]. *)
Definition parseRangeHeader (rangeHeader : option string) (fileSize : Z)
  : option span_of :=
  match rangeHeader with
  | None => None
  | Some h =>
      if is_empty h then None
      else
        match exec_range h with
        | None => None
        | Some (m1, m2) =>
            let start :=
              if is_empty m1 then None
              else Some (of_parse (parseInt10 m1)) in
            let end_ :=
              if is_empty m2 then None
              else Some (of_parse (parseInt10 m2)) in
            let s := default (Num 0) start in
            let e := default (Num (fileSize - 1)) end_ in
            if gt s e || lt e (Num 0) || ge s (Num fileSize) then None
            else Some (SpanOf s (min e (Num (fileSize - 1))))
        end
  end.

(** The window of the current revision as a result of the earlier one. *)
Definition of_window (w : option window) : option span_of :=
  match w with
  | Some w => Some (SpanOf (Num (start w)) (Num (end_ w)))
  | None => None
  end.

(** What the earlier revision computes from the two groups. *)
Lemma parse_groups (h a b : string) (fileSize : Z) :
  exec_range h = Some (a, b) ->
  parseRangeHeader (Some h) fileSize =
  let s := if is_empty a then 0 else digits_val 0 a in
  let e := if is_empty b then fileSize - 1 else digits_val 0 b in
  if (s >? e) || (e <? 0) || (s >=? fileSize) then None
  else Some (SpanOf (Num s) (Num (Z.min e (fileSize - 1)))).
Proof.
  intros X. unfold parseRangeHeader. rewrite X.
  apply exec_range_spec in X as (-> & Ha & Hb). cbn [is_empty String.append].
  destruct (is_empty a) eqn:Ea, (is_empty b) eqn:Eb; cbv zeta;
    rewrite ?is_empty_false in *;
    rewrite ?(parseInt10_digits a Ha) by assumption;
    rewrite ?(parseInt10_digits b Hb) by assumption;
    reflexivity.
Qed.

(** X9.  The earlier [parseRangeHeader] never returns [NaN], and what it
    returns lies inside the object whatever the size, an empty object
    included: there it rejects every header. *)
Theorem legacy_range_within_object
        (hdr : option string) (fileSize : Z) (w : span_of) :
  parseRangeHeader hdr fileSize = Some w ->
  exists s e, w = SpanOf (Num s) (Num e) /\ 0 <= s <= e /\ e < fileSize.
Proof.
  destruct hdr as [h|]; [|discriminate]. intros P.
  destruct (exec_range h) as [[a b]|] eqn:X.
  - rewrite (parse_groups h a b fileSize X) in P. cbv zeta in P.
    apply exec_range_spec in X as (_ & Ha & Hb).
    pose proof (digits_val_nonneg a 0 Ha ltac:(lia)) as Pa.
    pose proof (digits_val_nonneg b 0 Hb ltac:(lia)) as Pb.
    set (s := if is_empty a then 0 else digits_val 0 a) in *.
    set (e := if is_empty b then fileSize - 1 else digits_val 0 b) in *.
    assert (0 <= s) by (subst s; destruct (is_empty a); lia).
    destruct ((s >? e) || (e <? 0) || (s >=? fileSize)) eqn:G;
      [discriminate|].
    apply orb_false_iff in G as [G G3]. apply orb_false_iff in G as [G1 G2].
    injection P as <-. exists s, (Z.min e (fileSize - 1)).
    split; [reflexivity|]. lia.
  - unfold parseRangeHeader in P. rewrite X in P.
    destruct (is_empty h); discriminate.
Qed.

Lemma legacy_range_within_object_witness :
  exists s e,
    SpanOf (Num 0) (Num 100) = SpanOf (Num s) (Num e) /\
    0 <= s <= e /\ e < 1000.
Proof.
  apply (legacy_range_within_object (Some "bytes=-100") 1000).
  reflexivity.
Defined.

(** X10.  On a header that names its first byte ([bytes=a-b] or [bytes=a-],
    written without surrounding white space) the two revisions of
    [parseRangeHeader] return the same window or both reject, for every
    size. *)
Theorem revisions_agree_on_a_given_start
        (h a b : string) (fileSize : Z) :
  exec_range h = Some (a, b) -> a <> "" ->
  parseRangeHeader (Some h) fileSize
  = of_window (Range.parseRangeHeader (Some h) fileSize).
Proof.
  intros X Na. rewrite (parse_groups h a b fileSize X). cbv zeta.
  apply exec_range_spec in X as (-> & Ha & Hb).
  pose proof (digits_val_nonneg a 0 Ha ltac:(lia)) as Pa.
  pose proof (digits_val_nonneg b 0 Hb ltac:(lia)) as Pb.
  pose proof (Validators.range_text_trim a b Ha Hb) as T.
  rewrite (proj2 (is_empty_false a) Na).
  destruct (is_empty b) eqn:Eb.
  - apply is_empty_true in Eb. subst b.
    rewrite (parse_form _ (StartOpen (digits_val 0 a)) fileSize)
      by (exists a, ""; auto 10).
    destruct (digits_val 0 a >=? fileSize) eqn:G.
    + replace (digits_val 0 a >? fileSize - 1) with true by lia.
      reflexivity.
    + replace (digits_val 0 a >? fileSize - 1) with false by lia.
      replace (fileSize - 1 <? 0) with false by lia.
      simpl. rewrite Z.min_id. reflexivity.
  - apply is_empty_false in Eb.
    rewrite (parse_form _ (StartEnd (digits_val 0 a) (digits_val 0 b))
                        fileSize)
      by (exists a, b; auto 10).
    replace (digits_val 0 b <? 0) with false by lia.
    destruct (digits_val 0 a >? digits_val 0 b); [reflexivity|].
    destruct (digits_val 0 a >=? fileSize); reflexivity.
Qed.

Lemma revisions_agree_on_a_given_start_witness :
  parseRangeHeader (Some "bytes=900-") 1000
  = of_window (Range.parseRangeHeader (Some "bytes=900-") 1000).
Proof.
  apply (revisions_agree_on_a_given_start "bytes=900-" "900" "");
    [reflexivity | discriminate].
Defined.

(** X11.  The suffix form is where the revisions part: for [n > 0] and a
    non-empty object the earlier revision reads [bytes=-n] as the first
    [n + 1] bytes (as far as the object goes), the current one as the last
    [n] bytes, and the two windows coincide only when [n] is at least the
    size. *)
Theorem revisions_part_on_suffix (n fileSize : Z) :
  0 < n -> 0 < fileSize ->
  parseRangeHeader (Some ("bytes=-" ++ Gateway.decimal n)) fileSize
  = Some (SpanOf (Num 0) (Num (Z.min n (fileSize - 1)))) /\
  Range.parseRangeHeader (Some ("bytes=-" ++ Gateway.decimal n)) fileSize
  = Some (Window (Z.max 0 (fileSize - n)) (fileSize - 1)) /\
  (parseRangeHeader (Some ("bytes=-" ++ Gateway.decimal n)) fileSize
   = of_window
       (Range.parseRangeHeader (Some ("bytes=-" ++ Gateway.decimal n))
                               fileSize)
   <-> fileSize <= n).
Proof.
  intros Hn Hs.
  destruct (Validators.decimal_digits n ltac:(lia)) as (Dn & Nn & Vn).
  assert (X : exec_range ("bytes=-" ++ Gateway.decimal n)
              = Some ("", Gateway.decimal n))
    by (apply exec_range_spec; auto).
  assert (L : parseRangeHeader (Some ("bytes=-" ++ Gateway.decimal n))
                               fileSize
              = Some (SpanOf (Num 0) (Num (Z.min n (fileSize - 1))))).
  { rewrite (parse_groups _ _ _ fileSize X). cbv zeta.
    rewrite (proj2 (is_empty_false _) Nn), Vn. cbn [is_empty].
    replace (0 >? n) with false by lia.
    replace (n <? 0) with false by lia.
    replace (0 >=? fileSize) with false by lia.
    reflexivity. }
  assert (C : Range.parseRangeHeader (Some ("bytes=-" ++ Gateway.decimal n))
                                     fileSize
              = Some (Window (Z.max 0 (fileSize - n)) (fileSize - 1))).
  { rewrite (parse_form _ _ fileSize (Validators.reads_suffix n ltac:(lia))).
    replace (n <=? 0) with false by lia. reflexivity. }
  split; [exact L|]. split; [exact C|].
  rewrite L, C. simpl. split.
  - intros E. injection E as E1 E2. lia.
  - intros G. f_equal. f_equal; f_equal; lia.
Qed.

Lemma revisions_part_on_suffix_witness :
  parseRangeHeader (Some ("bytes=-" ++ Gateway.decimal 100)) 1000
  = Some (SpanOf (Num 0) (Num (Z.min 100 (1000 - 1)))) /\
  Range.parseRangeHeader (Some ("bytes=-" ++ Gateway.decimal 100)) 1000
  = Some (Window (Z.max 0 (1000 - 100)) (1000 - 1)) /\
  (parseRangeHeader (Some ("bytes=-" ++ Gateway.decimal 100)) 1000
   = of_window
       (Range.parseRangeHeader (Some ("bytes=-" ++ Gateway.decimal 100))
                               1000)
   <-> 1000 <= 100).
Proof. apply (revisions_part_on_suffix 100 1000); lia. Defined.

(** X12.  Whenever the input, a leading [0x] set aside, is one to 128
    hexadecimal digits, the two revisions of [safeName] return the same
    name; that is so for every accepted key, whose scratch path and index
    key therefore did not change between the revisions. *)
Theorem safeName_revisions_agree (now : N) (rootHash : string) :
  (all is_hex (body rootHash) = true ->
   (1 <= String.length (body rootHash) <= 128)%nat ->
   RootHash.safeName now rootHash = safeName rootHash) /\
  (isValidRootHash (Str rootHash) = true ->
   RootHash.safeName now rootHash = safeName rootHash).
Proof.
  assert (G : all is_hex (body rootHash) = true ->
              (1 <= String.length (body rootHash) <= 128)%nat ->
              RootHash.safeName now rootHash = safeName rootHash).
  { intros A L. rewrite safeName_unfold.
    change (safeName rootHash) with (body rootHash).
    rewrite (keep_id is_hex _ A), slice_to_short by lia.
    destruct (body rootHash) as [|c t]; [simpl in L; lia|].
    simpl in A. apply andb_true_iff in A as [Hc _].
    simpl. rewrite Hc. reflexivity. }
  split; [exact G|].
  intros V. apply valid_unfold in V as (t & E & L & A).
  apply G; rewrite (body_of_valid rootHash t E); [assumption | lia].
Qed.

End Legacy.

(** ** The demo-page route [/:maybeRoot] *)

Module Routes.
Import Js Regex RootHash.

(** [s.endsWith(suffix)] *)
Definition endsWith (s suffix : string) : bool :=
  (String.length suffix <=? String.length s)%nat &&
  String.eqb (slice_from (String.length s - String.length suffix) s) suffix.

(** The pattern of the route: an optional [0x], then exactly 64
    hexadecimal digits, anchored at both ends. *)
Definition page_re : regex :=
  Seq (Alt Eps (Word "0x")) (Times 64 (Cls is_hex)).

(** What the handler does with the request: hand it on with [next()], or
    answer it with [res.sendFile(demoPath)]. *)
Inductive routed : Type :=
| Next
| SendFile.

(** The handler of [app.get('/:maybeRoot')]. *)
Definition maybeRoot (maybeRoot : string) : routed :=
  if is_empty maybeRoot
     || startsWith maybeRoot "api"
     || startsWith maybeRoot "cached-files"
     || endsWith maybeRoot ".js"
     || endsWith maybeRoot ".css"
  then Next
  else if test page_re maybeRoot then SendFile else Next.

(** The characters of a name the pattern matches. *)
Definition page_char (c : ascii) : bool := is_hex c || Ascii.eqb c "x".

Lemma matches_seq_inv (r q : regex) (w : string) :
  matches (Seq r q) w <->
  exists u v, w = u ++ v /\ matches r u /\ matches q v.
Proof.
  split.
  - intros M. inversion M as [| | | | |? ? u v Mu Mv| |]; subst.
    exists u, v. auto.
  - intros (u & v & -> & Mu & Mv). constructor; assumption.
Qed.

Lemma matches_optional (word w : string) :
  matches (Alt Eps (Word word)) w <-> w = "" \/ w = word.
Proof.
  split.
  - intros M. inversion M as [| | |? ? ? Me|? ? ? Mw| | |]; subst.
    + inversion Me; subst. left. reflexivity.
    + apply matches_word in Mw. right. assumption.
  - intros [-> | ->]; [apply m_alt_l; constructor|].
    apply m_alt_r, matches_word. reflexivity.
Qed.

Lemma page_re_unfold (s : string) :
  matches page_re s <->
  exists t, (s = t \/ s = "0x" ++ t) /\
            String.length t = 64%nat /\ all is_hex t = true.
Proof.
  unfold page_re. rewrite matches_seq_inv. split.
  - intros (u & v & -> & Mu & Mv).
    apply matches_times_cls in Mv. apply matches_optional in Mu.
    exists v. split; [|exact Mv].
    destruct Mu as [-> | ->]; [left | right]; reflexivity.
  - intros (t & E & L & A).
    assert (Mt : matches (Times 64 (Cls is_hex)) t)
      by (apply matches_times_cls; auto).
    destruct E as [-> | ->].
    + exists "", t. split; [reflexivity|]. split; [|exact Mt].
      apply matches_optional. auto.
    + exists "0x", t. split; [reflexivity|]. split; [|exact Mt].
      apply matches_optional. auto.
Qed.

Lemma page_chars (s t : string) :
  s = t \/ s = "0x" ++ t -> all is_hex t = true -> all page_char s = true.
Proof.
  intros E A.
  assert (P : all page_char t = true).
  { revert A. apply all_impl. intros c Hc. unfold page_char.
    rewrite Hc. reflexivity. }
  destruct E as [-> | ->]; [exact P|]. simpl. exact P.
Qed.

Lemma slice_from_suffix (n : nat) :
  forall s, exists pre, s = pre ++ slice_from n s.
Proof.
  induction n as [|n IH]; intros s.
  - exists "". reflexivity.
  - destruct s as [|c s]; [exists ""; reflexivity|].
    destruct (IH s) as [pre E]. exists (String c pre).
    simpl. congruence.
Qed.

Lemma endsWith_suffix (s suffix : string) :
  endsWith s suffix = true -> exists pre, s = pre ++ suffix.
Proof.
  unfold endsWith. intros H. apply andb_true_iff in H as [_ E].
  apply String.eqb_eq in E.
  destruct (slice_from_suffix (String.length s - String.length suffix) s)
    as [pre P].
  exists pre. congruence.
Qed.

(** A word with a character the pattern cannot match is neither at the
    start nor at the end of a name it matches. *)
Lemma page_name_avoids (s word : string) :
  all page_char s = true -> all page_char word = false ->
  startsWith s word = false /\ endsWith s word = false.
Proof.
  intros A W. split.
  - destruct (startsWith s word) eqn:E; [|reflexivity].
    apply startsWith_spec in E as [r ->].
    rewrite all_app, W in A. discriminate.
  - destruct (endsWith s word) eqn:E; [|reflexivity].
    apply endsWith_suffix in E as [pre ->].
    rewrite all_app, W, andb_false_r in A. discriminate.
Qed.

(** X13.  The route answers with the demo page exactly for a name of 64
    hexadecimal digits, with or without [0x] in front: the four exclusions
    written before the pattern never apply to such a name.  Every key the
    storage routes accept is such a name. *)
Theorem demo_page_route (s : string) :
  (maybeRoot s = SendFile <->
   exists t, (s = t \/ s = "0x" ++ t) /\
             String.length t = 64%nat /\ all is_hex t = true) /\
  (isValidRootHash (Str s) = true -> maybeRoot s = SendFile).
Proof.
  assert (G : maybeRoot s = SendFile <->
              exists t, (s = t \/ s = "0x" ++ t) /\
                        String.length t = 64%nat /\ all is_hex t = true).
  { rewrite <- page_re_unfold, <- test_spec. unfold maybeRoot. split.
    - destruct (_ || _); [discriminate|].
      destruct (test page_re s); [reflexivity | discriminate].
    - intros T. rewrite T.
      apply test_spec, page_re_unfold in T as (t & E & L & A).
      pose proof (page_chars s t E A) as P.
      destruct (page_name_avoids s "api" P eq_refl) as [-> _].
      destruct (page_name_avoids s "cached-files" P eq_refl) as [-> _].
      destruct (page_name_avoids s ".js" P eq_refl) as [_ ->].
      destruct (page_name_avoids s ".css" P eq_refl) as [_ ->].
      replace (is_empty s) with false; [reflexivity|].
      destruct E as [-> | ->]; [|reflexivity].
      destruct t; [discriminate L | reflexivity]. }
  split; [exact G|].
  intros V. apply G. apply valid_unfold in V as (t & E & L & A).
  exists t. auto.
Qed.

End Routes.

(** ** Content types: [resolveContentType] *)

Module ContentType.
Import Js RootHash Cache Gateway.

(** A property of the on-chain context as the function examines it: a
    string, or any other value (a missing property, [undefined], is such
    a value and is falsy). *)
Inductive js : Type :=
| JsString (s : string)
| JsOther (is_truthy : bool).

(** [v && typeof v === 'string'] *)
Definition truthy_string (v : js) : option string :=
  match v with
  | JsString s => if is_empty s then None else Some s
  | JsOther _ => None
  end.

(** The context: [None] when [encodedCtx] is [null] or [undefined]. *)
Record ctx : Type := Ctx { ctx_contentType : js; ctx_extension : js }.

(** The part of a file name from its last dot on, a dot in first place
    not counting. *)
Fixpoint from_last_dot (s : string) : option string :=
  match s with
  | EmptyString => None
  | String c r =>
      match from_last_dot r with
      | Some e => Some e
      | None => if Ascii.eqb c "." then Some s else None
      end
  end.

(** [path.extname] on the last component of a path. *)
Definition ext_of (base : string) : string :=
  match base with
  | EmptyString => ""
  | String _ r =>
      match from_last_dot r with
      | Some e => if String.eqb base ".." then "" else e
      | None => ""
      end
  end.

(** [path.extname(filePath)] *)
Definition extname (filePath : path) : string := ext_of (basename filePath).

Section Mime.

(** [mime.getType]: [None] is [null]. *)
Variable getType : string -> option string.

(** [x || fallback] for a string or [null] *)
Definition or_else (x : option string) (fallback : string) : string :=
  match x with
  | Some s => if is_empty s then fallback else s
  | None => fallback
  end.

Definition by_extension (filePath : path) : string :=
  or_else (getType (extname filePath)) "application/octet-stream".

Definition resolveContentType (filePath : path) (encodedCtx : option ctx)
  : string :=
  match encodedCtx with
  | None => by_extension filePath
  | Some c =>
      match truthy_string (ctx_contentType c) with
      | Some t => t
      | None =>
          match truthy_string (ctx_extension c) with
          | Some x =>
              match getType x with
              | Some t => if is_empty t then by_extension filePath else t
              | None => by_extension filePath
              end
          | None => by_extension filePath
          end
      end
  end.

Lemma or_else_not_empty (x : option string) (fallback : string) :
  fallback <> "" -> or_else x fallback <> "".
Proof.
  intros F. unfold or_else. destruct x as [s|]; [|exact F].
  destruct (is_empty s) eqn:E; [exact F|]. apply is_empty_false. exact E.
Qed.

Lemma truthy_string_not_empty (v : js) (s : string) :
  truthy_string v = Some s -> s <> "".
Proof.
  destruct v as [t|b]; simpl; [|discriminate].
  destruct (is_empty t) eqn:E; [discriminate|].
  intros H. injection H as <-. apply is_empty_false. exact E.
Qed.

End Mime.

Lemma from_last_dot_none (s : string) :
  all Path.name_char s = true -> from_last_dot s = None.
Proof.
  induction s as [|c s IH]; simpl; [reflexivity|].
  intros H. apply andb_true_iff in H as [Hc Hs]. rewrite (IH Hs).
  unfold Path.name_char in Hc.
  destruct (Ascii.eqb c "."); [|reflexivity].
  rewrite andb_false_r in Hc. discriminate.
Qed.

(** A scratch file has no extension. *)
Lemma extname_scratch (TMP_DIR name : string) :
  Path.plain_name name -> extname (Path.join TMP_DIR name) = "".
Proof.
  intros P. rewrite (Path.join_plain TMP_DIR name P).
  unfold extname, basename. rewrite List.last_last.
  destruct P as [_ A]. destruct name as [|c r]; [reflexivity|].
  simpl in A. apply andb_true_iff in A as [_ A].
  simpl. rewrite (from_last_dot_none r A). reflexivity.
Qed.

Example extname_mp4 : extname ["tmp"; "clip.final.mp4"] = ".mp4".
Proof. reflexivity. Qed.

Example extname_hidden : extname ["home"; ".bashrc"] = "".
Proof. reflexivity. Qed.

Example extname_trailing_dot : extname ["tmp"; "index."] = ".".
Proof. reflexivity. Qed.

(** X14.  Whatever [mime.getType] answers, the content type is never empty; a
    non-empty string in the context's [contentType] is returned as it is;
    and for scratch files the file name plays no part: the scratch files
    of any two keys get the same type from the same context, and without
    a context that type is what [mime.getType] makes of the empty
    extension, by default [application/octet-stream]. *)
Theorem content_type_resolution
        (getType : string -> option string) (encodedCtx : option ctx) :
  (forall filePath, resolveContentType getType filePath encodedCtx <> "") /\
  (forall filePath c t,
      encodedCtx = Some c -> ctx_contentType c = JsString t -> t <> "" ->
      resolveContentType getType filePath encodedCtx = t) /\
  (forall dir1 now1 root1 dir2 now2 root2,
      resolveContentType getType (Path.join dir1 (safeName now1 root1))
                         encodedCtx
      = resolveContentType getType (Path.join dir2 (safeName now2 root2))
                           encodedCtx) /\
  (forall dir now root,
      resolveContentType getType (Path.join dir (safeName now root)) None
      = or_else (getType "") "application/octet-stream").
Proof.
  assert (E : forall dir now root,
             by_extension getType (Path.join dir (safeName now root))
             = or_else (getType "") "application/octet-stream").
  { intros dir now root. unfold by_extension.
    rewrite (extname_scratch dir _ (safeName_plain now root)).
    reflexivity. }
  split; [|split; [|split]].
  - intros filePath.
    assert (B : by_extension getType filePath <> "")
      by (apply or_else_not_empty; discriminate).
    unfold resolveContentType. destruct encodedCtx as [c|]; [|exact B].
    destruct (truthy_string (ctx_contentType c)) as [t|] eqn:T;
      [eapply truthy_string_not_empty; eassumption|].
    destruct (truthy_string (ctx_extension c)) as [x|]; [|exact B].
    destruct (getType x) as [t|]; [|exact B].
    destruct (is_empty t) eqn:Et; [exact B|].
    apply is_empty_false. exact Et.
  - intros filePath c t -> Hc Ht. unfold resolveContentType. rewrite Hc.
    simpl. rewrite (proj2 (is_empty_false t) Ht). reflexivity.
  - intros dir1 now1 root1 dir2 now2 root2.
    unfold resolveContentType. rewrite !E. reflexivity.
  - intros dir now root. apply E.
Qed.

End ContentType.

(** ** The index and the lock table across whole runs

    Invariants of [downloadToTmp], the index and [downloadLocks] that hold
    in every run of the event loop, whatever the requests and their
    timing. *)

Module Ledger.
Import Js RootHash Cache World Coordinator.

(** The index is a map: no key occurs twice. *)
Definition unique_keys (c : lru) : Prop := List.NoDup (map s_key c).

Lemma lookup_none (k : string) (c : lru) :
  lookup k c = None <-> ~ In k (map s_key c).
Proof.
  induction c as [|s c IH]; simpl; [tauto|].
  destruct (String.eqb (s_key s) k) eqn:E.
  - apply String.eqb_eq in E. split; [discriminate | tauto].
  - apply String.eqb_neq in E. rewrite IH. tauto.
Qed.

Lemma remove_keys (k x : string) (c : lru) :
  In x (map s_key (remove k c)) -> In x (map s_key c).
Proof.
  induction c as [|s c IH]; simpl; [tauto|].
  destruct (String.eqb (s_key s) k); simpl; tauto.
Qed.

Lemma remove_unique (k : string) (c : lru) :
  unique_keys c -> unique_keys (remove k c).
Proof.
  unfold unique_keys. induction c as [|s c IH]; simpl; intros U; [exact U|].
  apply List.NoDup_cons_iff in U as [N U].
  destruct (String.eqb (s_key s) k); [exact U|].
  simpl. apply List.NoDup_cons_iff. split; [|auto].
  intros H. apply N. apply remove_keys in H. exact H.
Qed.

Lemma lookup_remove_self (k : string) (c : lru) :
  unique_keys c -> lookup k (remove k c) = None.
Proof.
  unfold unique_keys. induction c as [|s c IH]; simpl; intros U; [reflexivity|].
  apply List.NoDup_cons_iff in U as [N U].
  destruct (String.eqb (s_key s) k) eqn:E.
  - apply String.eqb_eq in E. subst k. apply lookup_none. exact N.
  - simpl. rewrite E. auto.
Qed.

Lemma split_last_app (c front : lru) (l : slot) :
  split_last c = Some (front, l) -> c = (front ++ [l])%list.
Proof.
  revert front. induction c as [|s c IH]; simpl; intros front E;
    [discriminate|].
  destruct (split_last c) as [[f l']|] eqn:SL.
  - injection E as <- <-. rewrite (IH f eq_refl). reflexivity.
  - injection E as <- <-. destruct c as [|x c']; [reflexivity|].
    simpl in SL. destruct (split_last c') as [[? ?]|]; discriminate SL.
Qed.

Lemma front_unique (front : lru) (l : slot) :
  unique_keys (front ++ [l])%list -> unique_keys front.
Proof.
  unfold unique_keys. rewrite map_app. apply List.NoDup_app_remove_r.
Qed.

Lemma cons_unique (s : slot) (c : lru) :
  lookup (s_key s) c = None -> unique_keys c -> unique_keys (s :: c).
Proof.
  intros L U. unfold unique_keys. simpl.
  apply List.NoDup_cons_iff. split; [|exact U].
  apply lookup_none. exact L.
Qed.

Lemma get_unique (o : options) (now : N) (k : string) (c : lru) :
  unique_keys c -> unique_keys (get o now k c).1.2.
Proof.
  intros U. unfold get. destruct (lookup k c) as [s|] eqn:L; [|exact U].
  destruct (isStale o now s); cbn [fst snd]; [apply remove_unique; exact U|].
  apply cons_unique; [|apply remove_unique; exact U].
  rewrite (lookup_key k c s L). apply lookup_remove_self. exact U.
Qed.

Lemma set_unique (o : options) (now : N) (k : string) (v : meta) (c : lru) :
  unique_keys c -> unique_keys (set o now k v c).1.
Proof.
  intros U. unfold set. destruct (lookup k c) as [s|] eqn:L.
  - cbn [fst]. apply cons_unique; [|apply remove_unique; exact U].
    apply lookup_remove_self. exact U.
  - destruct (negb (Nat.eqb (max o) 0) && (max o <=? length c)%nat).
    + destruct (split_last c) as [[front l]|] eqn:SL; cbn [fst].
      * apply cons_unique.
        -- simpl. eapply lookup_split_last; eassumption.
        -- apply split_last_app in SL. subst c.
           eapply front_unique. exact U.
      * apply cons_unique; [reflexivity | constructor].
    + cbn [fst]. apply cons_unique; assumption.
Qed.

Lemma delete_unique (k : string) (c : lru) :
  unique_keys c -> unique_keys (delete k c).1.
Proof.
  intros U. unfold delete. destruct (lookup k c); cbn [fst];
    [apply remove_unique|]; exact U.
Qed.

(** A miss leaves no entry under the key: a stale entry is gone. *)
Lemma get_miss (o : options) (now : N) (k : string) (c : lru) :
  unique_keys c -> (get o now k c).1.1 = None ->
  lookup k (get o now k c).1.2 = None.
Proof.
  intros U. unfold get. destruct (lookup k c) as [s|] eqn:L; [|auto].
  destruct (isStale o now s); cbn [fst snd]; [|discriminate].
  intros _. apply lookup_remove_self. exact U.
Qed.

Lemma delete_absent (k : string) (c : lru) :
  unique_keys c -> lookup k (delete k c).1 = None.
Proof.
  intros U. unfold delete. destruct (lookup k c) eqn:L; cbn [fst];
    [apply lookup_remove_self; exact U | exact L].
Qed.


(** *** What every reachable state satisfies *)

(** A promise of [downloadToTmp] that has not settled yet: its download
    is still to start, running, or being tidied up after. *)
Definition pending (s : inner_state) : bool :=
  match s with
  | Settled _ => false
  | _ => true
  end.

(** The call [rid] created the promise [pid] under [key] and has not
    returned yet. *)
Definition owns (w : world) (rid : nat) (key : string) (pid : nat) : Prop :=
  exists root, calls w !! rid = Some (Call root key (AwaitOwn pid)).

Record sound (w : world) : Prop := {
  so_keys : unique_keys (cache w);
  so_own_lock : forall rid key pid,
    owns w rid key pid -> downloadLocks w !! key = Some pid;
  so_lock_own : forall key pid,
    downloadLocks w !! key = Some pid -> exists rid, owns w rid key pid;
  so_own_one : forall rid rid' key key' pid,
    owns w rid key pid -> owns w rid' key' pid -> rid = rid';
  so_own_task : forall rid key pid,
    owns w rid key pid -> exists t, tasks w !! pid = Some t /\ t_key t = key;
  so_pending_lock : forall pid t,
    tasks w !! pid = Some t -> pending (t_state t) = true ->
    downloadLocks w !! t_key t = Some pid;
  so_pending_absent : forall pid t,
    tasks w !! pid = Some t -> pending (t_state t) = true ->
    lookup (t_key t) (cache w) = None
}.

Lemma owns_frame (w w' : world) (rid : nat) (key : string) (pid : nat) :
  calls w' = calls w -> owns w' rid key pid <-> owns w rid key pid.
Proof. intros E. unfold owns. rewrite E. reflexivity. Qed.

(** The index changes, losing entries at most. *)
Lemma sound_cache (w w' : world) :
  calls w' = calls w -> downloadLocks w' = downloadLocks w ->
  tasks w' = tasks w -> unique_keys (cache w') ->
  (forall k, lookup k (cache w) = None -> lookup k (cache w') = None) ->
  sound w -> sound w'.
Proof.
  intros Ec El Et U Hc [K A B C D E F].
  constructor; unfold owns in *; rewrite ?Ec, ?El, ?Et; eauto.
Qed.

(** A call that is not an owner, before or after, changes state. *)
Lemma sound_passive (w w' : world) (rid : nat) (c : call) :
  calls w' = <[rid := c]> (calls w) ->
  downloadLocks w' = downloadLocks w -> tasks w' = tasks w ->
  cache w' = cache w ->
  (forall pid, c_state c <> AwaitOwn pid) ->
  (forall key pid, ~ owns w rid key pid) ->
  sound w -> sound w'.
Proof.
  intros Ec El Et Eh Hc Hn [K A B C D E F].
  assert (O : forall r key pid, owns w' r key pid <-> owns w r key pid).
  { intros r key pid. unfold owns. rewrite Ec.
    destruct (decide (r = rid)) as [->|Hr].
    - rewrite lookup_insert_eq. split.
      + intros [root X]. injection X as ->. exfalso. eapply Hc. reflexivity.
      + intros X. exfalso. eapply Hn. exact X.
    - rewrite lookup_insert_ne by congruence. reflexivity. }
  constructor; rewrite ?El, ?Et, ?Eh; try assumption.
  - intros r key pid H. apply O in H. eauto.
  - intros key pid H. destruct (B key pid H) as [r X]. exists r.
    apply O. exact X.
  - intros r r' key key' pid H H'. apply O in H, H'. eauto.
  - intros r key pid H. apply O in H. eauto.
Qed.

(** A call creates a promise under a key that has no lock and no index
    entry, and becomes its owner. *)
Lemma sound_start (w w' : world) (rid : nat) (root key : string) :
  calls w' = <[rid := Call root key (AwaitOwn (length (tasks w)))]> (calls w) ->
  downloadLocks w' = <[key := length (tasks w)]> (downloadLocks w) ->
  tasks w' = (tasks w ++ [Task root key AwaitUnlink])%list ->
  cache w' = cache w ->
  downloadLocks w !! key = None ->
  (forall k pid, ~ owns w rid k pid) ->
  lookup key (cache w) = None ->
  sound w -> sound w'.
Proof.
  intros Ec El Et Eh Hl Hn Hk [K A B C D E F].
  set (new := length (tasks w)) in *.
  assert (O : forall r k pid,
             owns w' r k pid <->
             (r = rid /\ k = key /\ pid = new) \/ (r <> rid /\ owns w r k pid)).
  { intros r k pid. unfold owns. rewrite Ec.
    destruct (decide (r = rid)) as [->|Hr].
    - rewrite lookup_insert_eq. split.
      + intros [root' X]. injection X as <- <- <-. auto.
      + intros [(_ & -> & ->) | [X _]]; [eauto | congruence].
    - rewrite lookup_insert_ne by congruence. split.
      + intros X. right. auto.
      + intros [(X & _) | [_ X]]; [congruence | exact X]. }
  assert (Old : forall r k pid, owns w r k pid -> k <> key /\ pid < new).
  { intros r k pid H. split.
    - intros ->. rewrite (A _ _ _ H) in Hl. discriminate.
    - destruct (D _ _ _ H) as (t & Ht & _).
      apply lookup_lt_Some in Ht. exact Ht. }
  constructor; rewrite ?El, ?Et, ?Eh; try assumption.
  - intros r k pid H. apply O in H as [(-> & -> & ->) | [Hr H]].
    + apply lookup_insert_eq.
    + destruct (Old _ _ _ H) as [Hk' _].
      rewrite lookup_insert_ne by congruence. eauto.
  - intros k pid H. destruct (decide (k = key)) as [->|Hk'].
    + rewrite lookup_insert_eq in H. injection H as <-.
      exists rid. apply O. auto.
    + rewrite lookup_insert_ne in H by congruence.
      destruct (B k pid H) as [r X]. exists r. apply O. right.
      split; [|exact X]. intros ->. eapply Hn. exact X.
  - intros r r' k k' pid H H'.
    apply O in H as [(-> & -> & ->) | [Hr H]];
      apply O in H' as [(-> & -> & E') | [Hr' H']]; try reflexivity.
    + destruct (Old _ _ _ H') as [_ X]. lia.
    + destruct (Old _ _ _ H) as [_ X]. lia.
    + eauto.
  - intros r k pid H. apply O in H as [(-> & -> & ->) | [Hr H]].
    + exists (Task root key AwaitUnlink). split; [|reflexivity].
      apply list_lookup_middle. reflexivity.
    + destruct (D _ _ _ H) as (t & Ht & Hk'). exists t.
      split; [|exact Hk']. apply lookup_app_l_Some. exact Ht.
  - intros pid t Ht Hp. apply lookup_app_Some in Ht as [Ht | [Hlen Ht]].
    + pose proof (E pid t Ht Hp) as L.
      rewrite lookup_insert_ne; [exact L|]. intros X. congruence.
    + destruct (pid - length (tasks w))%nat as [|n] eqn:Q; [|destruct n; discriminate Ht].
      injection Ht as <-. simpl.
      replace pid with new by (subst new; lia). apply lookup_insert_eq.
  - intros pid t Ht Hp. apply lookup_app_Some in Ht as [Ht | [Hlen Ht]].
    + eauto.
    + destruct (pid - length (tasks w))%nat as [|n] eqn:Q; [|destruct n; discriminate Ht].
      injection Ht as <-. simpl. exact Hk.
Qed.

(** A promise moves on; the index may change with it, but gains an entry
    under this promise's key at most, and only as the promise settles. *)
Lemma sound_move_task (w w' : world) (pid : nat) (root key : string)
      (s s' : inner_state) :
  tasks w' = <[pid := Task root key s']> (tasks w) ->
  calls w' = calls w -> downloadLocks w' = downloadLocks w ->
  unique_keys (cache w') ->
  tasks w !! pid = Some (Task root key s) -> pending s = true ->
  (forall k, k <> key -> lookup k (cache w) = None ->
             lookup k (cache w') = None) ->
  (pending s' = true -> lookup key (cache w') = None) ->
  sound w -> sound w'.
Proof.
  intros Et Ec El U Hp Hs Hother Hself [K A B C D E F].
  pose proof (lookup_lt_Some _ _ _ Hp) as Hlt.
  assert (T : forall p t,
             tasks w' !! p = Some t ->
             (p = pid /\ t = Task root key s') \/
             (p <> pid /\ tasks w !! p = Some t)).
  { intros p t. rewrite Et. destruct (decide (p = pid)) as [->|Hne].
    - rewrite list_lookup_insert_eq by exact Hlt.
      intros X. injection X as <-. auto.
    - rewrite list_lookup_insert_ne by congruence. auto. }
  constructor; unfold owns in *; rewrite ?Ec, ?El; try assumption.
  - intros r k p H. destruct (D r k p H) as (t & Ht & Hk).
    rewrite Et. destruct (decide (p = pid)) as [->|Hne].
    + rewrite list_lookup_insert_eq by exact Hlt.
      exists (Task root key s'). split; [reflexivity|].
      rewrite Hp in Ht. injection Ht as <-. exact Hk.
    + rewrite list_lookup_insert_ne by congruence. eauto.
  - intros p t Ht Hpend. apply T in Ht as [[-> ->] | [Hne Ht]].
    + exact (E pid _ Hp Hs).
    + eauto.
  - intros p t Ht Hpend. apply T in Ht as [[-> ->] | [Hne Ht]].
    + simpl. auto.
    + apply Hother; [|eauto].
      intros Hk. pose proof (E p t Ht Hpend) as L1.
      pose proof (E pid _ Hp Hs) as L2. simpl in L2.
      rewrite Hk, L2 in L1. congruence.
Qed.

(** The owner of a settled promise returns and takes the lock away. *)
Lemma sound_release (w w' : world) (rid pid : nat) (root key : string)
      (t : task) (r : result) :
  calls w' = <[rid := Call root key (Returned r)]> (calls w) ->
  downloadLocks w' = base.delete key (downloadLocks w) ->
  tasks w' = tasks w -> cache w' = cache w ->
  calls w !! rid = Some (Call root key (AwaitOwn pid)) ->
  tasks w !! pid = Some t -> pending (t_state t) = false ->
  sound w -> sound w'.
Proof.
  intros Ec El Et Eh Hc Ht Hs [K A B C D E F].
  assert (Own : owns w rid key pid) by (exists root; exact Hc).
  assert (O : forall r' k p,
             owns w' r' k p <-> r' <> rid /\ owns w r' k p).
  { intros r' k p. unfold owns. rewrite Ec.
    destruct (decide (r' = rid)) as [->|Hr].
    - rewrite lookup_insert_eq. split.
      + intros [root' X]. discriminate X.
      + intros [X _]. congruence.
    - rewrite lookup_insert_ne by congruence. tauto. }
  assert (Other : forall r' k p, r' <> rid -> owns w r' k p -> k <> key).
  { intros r' k p Hr H ->. pose proof (A _ _ _ H) as L1.
    rewrite (A _ _ _ Own) in L1. injection L1 as <-.
    apply Hr. eapply C; eassumption. }
  constructor; rewrite ?El, ?Et, ?Eh; try assumption.
  - intros r' k p H. apply O in H as [Hr H].
    rewrite lookup_delete_ne by (apply not_eq_sym; eapply Other; eassumption).
    eauto.
  - intros k p H. apply lookup_delete_Some in H as [Hk H].
    destruct (B k p H) as [r' X]. exists r'. apply O. split; [|exact X].
    intros ->. destruct X as [root' X]. rewrite Hc in X. congruence.
  - intros r1 r2 k k' p H H'. apply O in H as [_ H]. apply O in H' as [_ H'].
    eauto.
  - intros r' k p H. apply O in H as [_ H]. eauto.
  - intros p t' Ht' Hp. pose proof (E p t' Ht' Hp) as L.
    rewrite lookup_delete_ne; [exact L|].
    intros Hk. rewrite <- Hk, (A _ _ _ Own) in L. injection L as ->.
    rewrite Ht in Ht'. injection Ht' as ->. congruence.
Qed.

Lemma sound_lock_or_start (w : world) (rid : nat) (root key : string) :
  (forall k pid, ~ owns w rid k pid) ->
  lookup key (cache w) = None ->
  sound w -> sound (lock_or_start rid root key w).
Proof.
  intros Hn Hk S. unfold lock_or_start.
  destruct (downloadLocks w !! key) as [pid|] eqn:L.
  - eapply (sound_passive w _ rid (Call root key (AwaitJoined pid)));
      try reflexivity; try assumption.
    intros p. discriminate.
  - eapply (sound_start w _ rid root key); try reflexivity; assumption.
Qed.

Section Runs.

Variable TMP_DIR : string.
Variable opts : options.

(** Every stretch of [downloadToTmp] keeps the state sound. *)
Lemma step_sound (w w' : world) (e : event) :
  step TMP_DIR opts w e = Some w' -> sound w -> sound w'.
Proof.
  intros St S.
  destruct e as [rid root|rid|pid|pid out|pid|pid|rid|dt|rid|rid];
    simpl in St.
  - destruct (calls w !! rid) as [?|] eqn:Hc; [discriminate|].
    assert (Hn : forall k pid, ~ owns w rid k pid).
    { intros k pid [root' X]. congruence. }
    set (key := safeName (now w) root) in *.
    pose proof (get_unique opts (now w) key (cache w) (so_keys w S)) as U.
    pose proof (get_miss opts (now w) key (cache w) (so_keys w S)) as M.
    pose proof (fun k => get_keeps_absent opts (now w) k key (cache w)) as Ka.
    destruct (Cache.get opts (now w) key (cache w)) as [[hit c] dropped].
    cbn [fst snd] in U, M, Ka. injection St as <-.
    assert (S1 : sound (set_files (dispose dropped (files w)) (set_cache c w))).
    { eapply (sound_cache w); try reflexivity; assumption. }
    destruct hit as [m|].
    + eapply (sound_passive _ _ rid (Call root key (AwaitAccess m)));
        try reflexivity; try exact S1.
      * intros p. discriminate.
      * intros k p H. apply (Hn k p). exact H.
    + apply sound_lock_or_start; [| apply M; reflexivity | exact S1].
      intros k p H. apply (Hn k p). exact H.
  - destruct (calls w !! rid) as [[root key [m| | |]]|] eqn:Hc;
      try discriminate.
    assert (Hn : forall k pid, ~ owns w rid k pid).
    { intros k pid [root' X]. congruence. }
    destruct (files w !! m_path m).
    + injection St as <-.
      eapply (sound_passive w _ rid
                (Call root key (Returned (Resolved (m_path m)))));
        try reflexivity; try assumption.
      intros p. discriminate.
    + pose proof (delete_unique key (cache w) (so_keys w S)) as U.
      pose proof (delete_absent key (cache w) (so_keys w S)) as M.
      pose proof (fun k => delete_keeps_absent k key (cache w)) as Ka.
      destruct (Cache.delete key (cache w)) as [c dropped].
      cbn [fst snd] in U, M, Ka. injection St as <-.
      apply sound_lock_or_start; [| exact M |].
      * intros k p H. apply (Hn k p). exact H.
      * eapply (sound_cache w); try reflexivity; assumption.
  - destruct (tasks w !! pid) as [[root key []]|] eqn:Ht; try discriminate.
    injection St as <-.
    eapply (sound_move_task w _ pid root key AwaitUnlink AwaitDownload);
      try reflexivity; try assumption.
    + exact (so_keys w S).
    + auto.
    + intros _. exact (so_pending_absent w S pid _ Ht eq_refl).
  - destruct (tasks w !! pid) as [[root key []]|] eqn:Ht; try discriminate.
    injection St as <-.
    pose proof (so_pending_absent w S pid _ Ht eq_refl) as Ab.
    destruct out as [size|err partial|msg partial];
      eapply (sound_move_task w _ pid root key AwaitDownload);
      try reflexivity; try assumption; try exact (so_keys w S); auto.
  - destruct (tasks w !! pid) as [[root key []]|] eqn:Ht; try discriminate.
    injection St as <-.
    eapply (sound_move_task w _ pid root key (AwaitCleanup err));
      try reflexivity; try assumption; try exact (so_keys w S); auto.
    discriminate.
  - destruct (tasks w !! pid) as [[root key []]|] eqn:Ht; try discriminate.
    destruct (files w !! tmpFile TMP_DIR key) as [size|].
    + pose proof (set_unique opts (now w) key
                    (Meta (tmpFile TMP_DIR key) size (now w)) (cache w)
                    (so_keys w S)) as U.
      pose proof (fun k => set_keeps_absent opts (now w) k key
                    (Meta (tmpFile TMP_DIR key) size (now w)) (cache w))
        as Ka.
      destruct (Cache.set opts (now w) key _ (cache w)) as [c dropped].
      cbn [fst snd] in U, Ka. injection St as <-.
      eapply (sound_move_task w _ pid root key AwaitStat);
        try reflexivity; try assumption.
      * intros k Hk. apply Ka. congruence.
      * discriminate.
    + injection St as <-.
      eapply (sound_move_task w _ pid root key AwaitStat);
        try reflexivity; try assumption; try exact (so_keys w S); auto.
      discriminate.
  - destruct (calls w !! rid) as [[root key [m|p|p|r]]|] eqn:Hc;
      try discriminate;
      destruct (tasks w !! p) as [[root' key' [| | | |r]]|] eqn:Ht;
      try discriminate; injection St as <-.
    + eapply (sound_release w _ rid p root key); try reflexivity;
        eassumption || reflexivity.
    + eapply (sound_passive w _ rid (Call root key (Returned r)));
        try reflexivity; try assumption.
      * intros q. discriminate.
      * intros k q [root'' X]. congruence.
  - injection St as <-. eapply (sound_cache w); try reflexivity; auto.
    exact (so_keys w S).
  - destruct (calls w !! rid) as [[root key [m|p|p|[q|msg]]]|];
      try discriminate.
    destruct (readers w !! rid); [discriminate|].
    destruct (files w !! q); [|discriminate].
    injection St as <-. eapply (sound_cache w); try reflexivity; auto.
    exact (so_keys w S).
  - destruct (readers w !! rid); [|discriminate].
    injection St as <-. eapply (sound_cache w); try reflexivity; auto.
    exact (so_keys w S).
Qed.

Lemma run_sound (evs : list event) :
  forall w w', run TMP_DIR opts w evs = Some w' -> sound w -> sound w'.
Proof.
  induction evs as [|e evs IH]; simpl; intros w w' R S.
  - injection R as <-. exact S.
  - destruct (step TMP_DIR opts w e) as [w1|] eqn:St; [|discriminate].
    eapply IH; [exact R|]. eapply step_sound; eassumption.
Qed.

(** A process with nothing in flight is sound as soon as its index is a
    map. *)
Lemma idle_sound (w : world) :
  idle w -> unique_keys (cache w) -> sound w.
Proof.
  intros (L & T & C & _) U.
  constructor; unfold owns; rewrite ?L, ?T, ?C; try assumption; intros;
    repeat match goal with
           | H : exists _, _ |- _ => destruct H
           | H : ∅ !! _ = Some _ |- _ => rewrite lookup_empty in H; discriminate H
           | H : [] !! _ = Some _ |- _ => discriminate H
           end.
Qed.

(** X15.  In every run from an idle process, a key is locked exactly while the
    call that created its promise has not returned; no key has two such
    calls; and once every call has returned, [downloadLocks] is empty:
    no lock is ever left behind, whether the fetch succeeded or failed. *)
Theorem locks_are_held_by_pending_owners
        (w0 w : world) (evs : list event) :
  idle w0 -> unique_keys (cache w0) ->
  run TMP_DIR opts w0 evs = Some w ->
  (forall key pid,
      downloadLocks w !! key = Some pid <-> exists rid, owns w rid key pid) /\
  (forall rid rid' key pid pid',
      owns w rid key pid -> owns w rid' key pid' -> rid = rid') /\
  ((forall rid c, calls w !! rid = Some c ->
                  is_returned (c_state c) = true) ->
   downloadLocks w = ∅).
Proof.
  intros I U R.
  pose proof (run_sound evs w0 w R (idle_sound w0 I U)) as S.
  split; [|split].
  - intros key pid. split; [apply (so_lock_own w S)|].
    intros [rid H]. eapply so_own_lock; eassumption.
  - intros rid rid' key pid pid' H H'.
    pose proof (so_own_lock w S _ _ _ H) as L.
    rewrite (so_own_lock w S _ _ _ H') in L. injection L as ->.
    eapply so_own_one; eassumption.
  - intros All. apply map_empty. intros key.
    destruct (downloadLocks w !! key) as [pid|] eqn:L; [|reflexivity].
    destruct (so_lock_own w S key pid L) as (rid & root & X).
    specialize (All rid _ X). discriminate All.
Qed.

(** X16.  In every run from an idle process, at most one download per key is
    under way at any time, so no two downloads ever write the same
    scratch file; and while a key's download is under way the index holds
    no entry for that key: an index entry never names a file that is
    still being written. *)
Theorem one_download_per_key (w0 w : world) (evs : list event) :
  idle w0 -> unique_keys (cache w0) ->
  run TMP_DIR opts w0 evs = Some w ->
  (forall pid pid' t t',
      tasks w !! pid = Some t -> tasks w !! pid' = Some t' ->
      pending (t_state t) = true -> pending (t_state t') = true ->
      t_key t = t_key t' -> pid = pid') /\
  (forall pid t,
      tasks w !! pid = Some t -> pending (t_state t) = true ->
      lookup (t_key t) (cache w) = None).
Proof.
  intros I U R.
  pose proof (run_sound evs w0 w R (idle_sound w0 I U)) as S.
  split.
  - intros pid pid' t t' Ht Ht' Hp Hp' Hk.
    pose proof (so_pending_lock w S pid t Ht Hp) as L.
    pose proof (so_pending_lock w S pid' t' Ht' Hp') as L'.
    rewrite Hk, L' in L. congruence.
  - apply (so_pending_absent w S).
Qed.

End Runs.

(** Two calls for one key arrive together and the download completes
    while a call for another key has just arrived. *)
Definition other_hash : string :=
  "0x00000000000000000000000000000000000000000000000000000000000000ff".

Definition busy_evs : list event :=
  [Enter 1 test_hash; Enter 2 test_hash; UnlinkDone 0;
   Enter 3 other_hash; DownloadDone 0 (DlNull 10)].

Definition busy : world :=
  default (boot ∅)
          (run "/tmp/og-gateway-tmp" (Options 200 3600000) (boot ∅) busy_evs).

Lemma locks_are_held_by_pending_owners_witness :
  (forall key pid,
      downloadLocks busy !! key = Some pid <->
      exists rid, owns busy rid key pid) /\
  (forall rid rid' key pid pid',
      owns busy rid key pid -> owns busy rid' key pid' -> rid = rid') /\
  ((forall rid c, calls busy !! rid = Some c ->
                  is_returned (c_state c) = true) ->
   downloadLocks busy = ∅).
Proof.
  apply (locks_are_held_by_pending_owners
           "/tmp/og-gateway-tmp" (Options 200 3600000) (boot ∅) busy
           busy_evs).
  - repeat split.
  - constructor.
  - vm_compute. reflexivity.
Defined.

Lemma one_download_per_key_witness :
  (forall pid pid' t t',
      tasks busy !! pid = Some t -> tasks busy !! pid' = Some t' ->
      pending (t_state t) = true -> pending (t_state t') = true ->
      t_key t = t_key t' -> pid = pid') /\
  (forall pid t,
      tasks busy !! pid = Some t -> pending (t_state t) = true ->
      lookup (t_key t) (cache busy) = None).
Proof.
  apply (one_download_per_key
           "/tmp/og-gateway-tmp" (Options 200 3600000) (boot ∅) busy
           busy_evs).
  - repeat split.
  - constructor.
  - vm_compute. reflexivity.
Defined.

Example busy_state :
  (t_state <$> tasks busy) = [AwaitStat; AwaitUnlink] /\
  downloadLocks busy !! safeName 0 test_hash = Some 0%nat /\
  downloadLocks busy !! safeName 0 other_hash = Some 1%nat.
Proof. vm_compute. repeat split. Qed.

End Ledger.

(** ** [downloadToTmp] and the index entry of its key *)

Module Hits.
Import Js RootHash Cache World Coordinator Ledger.



Section Config.

Variable TMP_DIR : string.
Variable opts : options.

(** X17.  A call that finds a fresh entry whose file is still there returns
    the entry's path.  It gets there without the indexer, without a lock
    and without a promise; it makes the entry the most recently used one
    but leaves its age as it was, so that being used does not keep an
    entry from expiring. *)
Theorem cache_hit_is_served_from_disk
        (w : world) (rid : nat) (root : string) (s : slot) (size : N) :
  calls w !! rid = None ->
  lookup (safeName (now w) root) (cache w) = Some s ->
  isStale opts (now w) s = false ->
  files w !! m_path (s_value s) = Some size ->
  exists w',
    run TMP_DIR opts w [Enter rid root; AccessDone rid] = Some w' /\
    calls w' !! rid
    = Some (Call root (safeName (now w) root)
                 (Returned (Resolved (m_path (s_value s))))) /\
    cache w' = s :: remove (safeName (now w) root) (cache w) /\
    log w' = log w /\ tasks w' = tasks w /\
    downloadLocks w' = downloadLocks w /\ files w' = files w.
Proof.
  intros Hc Hl Hs Hf.
  set (key := safeName (now w) root) in *.
  set (w1 := put_call rid (Call root key (AwaitAccess (s_value s)))
               (set_files (files w) (set_cache (s :: remove key (cache w)) w))).
  assert (S1 : step TMP_DIR opts w (Enter rid root) = Some w1).
  { cbn [step]. rewrite Hc. fold key. unfold Cache.get. rewrite Hl, Hs.
    reflexivity. }
  assert (S2 : step TMP_DIR opts w1 (AccessDone rid)
               = Some (put_call rid
                         (Call root key
                               (Returned (Resolved (m_path (s_value s)))))
                         w1)).
  { cbn [step]. unfold w1 at 1 2.
    cbn [put_call calls set_calls set_files set_cache].
    rewrite lookup_insert_eq. cbv beta iota.
    cbn [put_call files set_calls set_files set_cache m_path s_value].
    rewrite Hf. reflexivity. }
  eexists. split.
  - cbn [run]. rewrite S1, S2. reflexivity.
  - simpl. rewrite lookup_insert_eq. repeat split.
Qed.


End Config.

(** One call has fetched the artifact; fifty minutes later, and again
    after the hour has run out, another call arrives. *)
Definition fetched : world :=
  default (boot ∅)
    (run "/tmp/og-gateway-tmp" (Options 200 3600000) (boot ∅)
         [Enter 1 test_hash; UnlinkDone 0; DownloadDone 0 (DlNull 10);
          StatDone 0; Resume 1; Elapse 3000000]).

Definition entry : slot :=
  Slot (safeName 0 test_hash)
       (Meta (tmpFile "/tmp/og-gateway-tmp" (safeName 0 test_hash)) 10 0) 0.


Lemma cache_hit_is_served_from_disk_witness :
  exists w',
    run "/tmp/og-gateway-tmp" (Options 200 3600000) fetched
        [Enter 2 test_hash; AccessDone 2] = Some w' /\
    calls w' !! 2%nat
    = Some (Call test_hash (safeName (now fetched) test_hash)
                 (Returned (Resolved (m_path (s_value entry))))) /\
    cache w' = entry :: remove (safeName (now fetched) test_hash)
                               (cache fetched) /\
    log w' = log fetched /\ tasks w' = tasks fetched /\
    downloadLocks w' = downloadLocks fetched /\ files w' = files fetched.
Proof.
  apply (cache_hit_is_served_from_disk
           "/tmp/og-gateway-tmp" (Options 200 3600000) fetched 2 test_hash
           entry 10);
    vm_compute; reflexivity.
Defined.


End Hits.

(** ** The streaming paths *)

Module Streams.
Import Js RootHash Cache World Coordinator Http Progressive Gateway.

Local Open Scope N_scope.

(** *** The pace of the polling loop *)

(** Every chunk is a read of at most [maxChunk] bytes. *)
Definition chunk_ok (chunk : N * N) : Prop :=
  0 < chunk.2 <= maxChunk.

Lemma pumpOnce_paced (e : pump_env) (c : cursor) :
  Forall chunk_ok (sent c) ->
  Forall chunk_ok (sent (pumpOnce e c)) /\
  (length (sent (pumpOnce e c)) <= S (length (sent c)))%nat.
Proof.
  intros H. unfold pumpOnce.
  destruct (negb (fd c)); [auto|].
  destruct (stat_size e) as [size|]; [|auto].
  destruct (position c <? size); [|auto].
  destruct (bytes_read e) as [n|]; [|auto].
  destruct (0 <? N.min n (N.min (size - position c) maxChunk)) eqn:E;
    [|auto].
  apply N.ltb_lt in E. simpl. split.
  - apply Forall_app. split; [exact H|].
    constructor; [|constructor]. unfold chunk_ok. simpl. lia.
  - rewrite length_app. simpl. lia.
Qed.

Lemma ensureFd_sent (b : bool) (c : cursor) : sent (ensureFd b c) = sent c.
Proof. unfold ensureFd. destruct (fd c); reflexivity. Qed.

Lemma poll_paced (ticks : list tick) :
  forall c,
    Forall chunk_ok (sent c) ->
    Forall chunk_ok (sent (poll ticks c).1) /\
    (length (sent (poll ticks c).1)
     <= length (sent c) + length ticks + 1)%nat.
Proof.
  induction ticks as [|t rest IH]; intros c H; simpl.
  - split; [exact H | lia].
  - assert (H0 : Forall chunk_ok (sent (ensureFd (opens t) c)))
      by (rewrite ensureFd_sent; exact H).
    destruct (pumpOnce_paced (first_pump t) _ H0) as [H1 L1].
    rewrite ensureFd_sent in L1.
    destruct (downloadCompleted (download t)).
    + destruct (fd _); simpl; [|split; [exact H1 | lia]].
      destruct (pumpOnce_paced (final_pump t) _ H1) as [H2 L2].
      split; [exact H2 | lia].
    + destruct (client_gone t); simpl; [split; [exact H1 | lia]|].
      destruct (IH _ H1) as [H2 L2]. split; [exact H2 | lia].
Qed.

Lemma total_paced (chunks : list (N * N)) :
  Forall chunk_ok chunks ->
  total chunks <= N.of_nat (length chunks) * maxChunk.
Proof.
  induction 1 as [|[off len] rest [_ Hc] _ IH]; simpl; [lia|].
  simpl in Hc. unfold total in *. simpl. lia.
Qed.

(** X19.  The polling loop reads at most [maxChunk] (512 KiB) per turn, and
    once more when it finds the download settled: after [n] turns the
    response has been given at most [n + 1] chunks and never more than
    [(n + 1) * maxChunk] bytes, however fast the download is. *)
Theorem progressive_delivery_is_paced (ticks : list tick) :
  Forall chunk_ok (sent (poll ticks Progressive.start).1) /\
  (length (sent (poll ticks Progressive.start).1) <= length ticks + 1)%nat /\
  position (poll ticks Progressive.start).1
  <= (N.of_nat (length ticks) + 1) * maxChunk.
Proof.
  destruct (poll_paced ticks Progressive.start (Forall_nil_2 _)) as [F L].
  simpl in L. split; [exact F|]. split; [exact L|].
  pose proof (poll_tiled ticks Progressive.start eq_refl) as T.
  apply tiles_total in T. pose proof (total_paced _ F) as B.
  rewrite T. unfold maxChunk in *. nia.
Qed.

(** *** The direct attempt: [tryDirectStreamFromIndexer] *)

Local Close Scope N_scope.

(** Two states that differ in the log of indexer calls at most. *)
Definition same_but_log (w w' : world) : Prop :=
  now w' = now w /\ files w' = files w /\ cache w' = cache w /\
  downloadLocks w' = downloadLocks w /\ tasks w' = tasks w /\
  calls w' = calls w /\ readers w' = readers w.

Definition delivering (c : string * shape * attempt) : bool :=
  delivers c.1.2 (does c.2).

Definition writing (c : string * shape * attempt) : bool := wrote c.2.

Lemma fetches_logged (name root : string) (d : destination) (w : world) :
  fetches root (set_log (Invocation name root d :: log w) w)
  = S (fetches root w).
Proof.
  unfold fetches. simpl. rewrite filter_cons_True by reflexivity.
  reflexivity.
Qed.

Lemma try_candidates_outcome (cs : list (string * shape * attempt))
      (root : string) :
  forall w r,
    let res := try_candidates cs root w r in
    same_but_log w res.1.1 /\
    fetches root w <= fetches root res.1.1 <= fetches root w + length cs /\
    (cs <> [] -> fetches root w < fetches root res.1.1) /\
    statusCode res.1.2 = statusCode r /\ headers res.1.2 = headers r /\
    destroyed res.1.2 = destroyed r /\
    if existsb delivering cs then
      res.2 = Returns /\ ended res.1.2 = true /\
      body res.1.2 = (body r ++ [FromIndexer])%list
    else
      res.2 = Throws /\ ended res.1.2 = ended r /\ body res.1.2 = body r /\
      headersSent res.1.2 = headersSent r || existsb writing cs.
Proof.
  induction cs as [|[[name s] a] rest IH]; intros w r; cbn zeta.
  - simpl. rewrite orb_false_r. repeat split; try lia. congruence.
  - cbn [try_candidates existsb]. unfold delivering at 1, writing at 1.
    cbn [fst snd].
    set (w1 := set_log (Invocation name root (destination_of s) :: log w) w).
    assert (F1 : fetches root w1 = S (fetches root w))
      by apply fetches_logged.
    destruct (delivers s (does a)).
    + cbn [orb fst snd length]. rewrite F1.
      repeat split; try lia.
    + cbn [orb].
      specialize (IH w1 (if wrote a then sent_already r else r)).
      cbn zeta in IH.
      destruct IH as (Fr & Fe & _ & St & Hd & De & Rest).
      rewrite F1 in Fe. cbn [length].
      split; [exact Fr|]. split; [lia|]. split; [intros _; lia|].
      split; [rewrite St; destruct (wrote a); reflexivity|].
      split; [rewrite Hd; destruct (wrote a); reflexivity|].
      split; [rewrite De; destruct (wrote a); reflexivity|].
      destruct (existsb delivering rest).
      * destruct Rest as (A & B & C). split; [exact A|]. split; [exact B|].
        rewrite C. destruct (wrote a); reflexivity.
      * destruct Rest as (A & B & C & D). split; [exact A|].
        split; [rewrite B; destruct (wrote a); reflexivity|].
        split; [rewrite C; destruct (wrote a); reflexivity|].
        rewrite D. destruct (wrote a); simpl; [|reflexivity].
        rewrite orb_true_r. reflexivity.
Qed.

Lemma candidates_length (ix : indexer) : length (candidates ix) <= 4.
Proof.
  unfold candidates.
  destruct (downloadToStream ix), (downloadStream ix), (stream ix),
           (download_to_response ix); simpl; lia.
Qed.

Lemma direct_outcome
        (ix : indexer) (w : world) (root : string) (r : response) :
  let res := tryDirectStreamFromIndexer ix w root r in
  same_but_log w res.1.1 /\
  fetches root w <= fetches root res.1.1 <= fetches root w + 4 /\
  (candidates ix = [] -> res = (w, r, Throws)) /\
  (candidates ix <> [] -> fetches root w < fetches root res.1.1) /\
  (res.2 = Returns <-> existsb delivering (candidates ix) = true) /\
  (res.2 = Throws <-> existsb delivering (candidates ix) = false) /\
  (res.2 = Returns ->
   ended res.1.2 = true /\ statusCode res.1.2 = statusCode r /\
   body res.1.2 = (body r ++ [FromIndexer])%list /\
   getHeader "Transfer-Encoding" res.1.2 = Some "chunked" /\
   getHeader "Content-Disposition" res.1.2
   = Some ("inline; filename=" ++ quote ++ root ++ quote)) /\
  (res.2 = Throws ->
   ended res.1.2 = ended r /\ body res.1.2 = body r /\
   headersSent res.1.2 = headersSent r || existsb writing (candidates ix)).
Proof.
  cbn zeta. unfold tryDirectStreamFromIndexer.
  pose proof (candidates_length ix) as L4.
  destruct (candidates ix) as [|c cs] eqn:Cs.
  - simpl. rewrite orb_false_r.
    repeat split; try lia; try discriminate; auto. congruence.
  - pose proof (try_candidates_outcome (c :: cs) root w
                                       (direct_headers root r)) as T.
    cbn zeta in T. destruct T as (Fr & Fe & Lt & St & Hd & De & Rest).
    split; [exact Fr|]. split; [lia|]. split; [discriminate|].
    split; [exact Lt|].
    destruct (existsb delivering (c :: cs)).
    + destruct Rest as (A & B & C). rewrite A.
      split; [tauto|]. split; [split; discriminate|].
      split; [|discriminate]. intros _.
      split; [exact B|]. split; [exact St|]. split; [exact C|].
      unfold getHeader. rewrite Hd. unfold direct_headers, setHeader.
      cbn [headers]. split.
      * rewrite header_put_other by discriminate. apply header_put_same.
      * apply header_put_same.
    + destruct Rest as (A & B & C & D). rewrite A.
      split; [split; discriminate|]. split; [tauto|].
      split; [discriminate|]. intros _. auto.
Qed.

(** X20.  The direct attempt calls the methods the indexer offers, each once
    at most and in a fixed order, until one delivers.  It returns exactly
    when one of them delivers, and then the response is ended with what
    the indexer wrote; otherwise it throws.  With no method on offer it
    throws before touching the response; a method that wrote before
    failing leaves the response with its headers sent.  It never touches
    the scratch directory, the index or the locks. *)
Theorem direct_stream_outcome
        (ix : indexer) (w : world) (root : string) (r : response) :
  let res := tryDirectStreamFromIndexer ix w root r in
  same_but_log w res.1.1 /\
  fetches root w <= fetches root res.1.1 <= fetches root w + 4 /\
  (candidates ix = [] -> res = (w, r, Throws)) /\
  (candidates ix <> [] -> fetches root w < fetches root res.1.1) /\
  (res.2 = Returns <-> existsb delivering (candidates ix) = true) /\
  (res.2 = Throws <-> existsb delivering (candidates ix) = false) /\
  (res.2 = Returns ->
   ended res.1.2 = true /\ statusCode res.1.2 = statusCode r /\
   body res.1.2 = (body r ++ [FromIndexer])%list /\
   getHeader "Transfer-Encoding" res.1.2 = Some "chunked" /\
   getHeader "Content-Disposition" res.1.2
   = Some ("inline; filename=" ++ quote ++ root ++ quote)) /\
  (res.2 = Throws ->
   ended res.1.2 = ended r /\ body res.1.2 = body r /\
   headersSent res.1.2 = headersSent r || existsb writing (candidates ix)).
Proof. exact (direct_outcome ix w root r). Qed.

(** *** What the progressive path does to the process state *)

Lemma stream_world (TMP_DIR : string) (w : world) (root : string)
      (r : response) (ts : list tick) :
  let res := streamWhileDownloadingToRes TMP_DIR w root r ts in
  cache res.1.1 = cache w /\ downloadLocks res.1.1 = downloadLocks w /\
  tasks res.1.1 = tasks w /\ calls res.1.1 = calls w /\
  fetches root res.1.1 = S (fetches root w) /\
  (res.2 = Throws <-> headersSent r = true) /\
  (res.2 = Throws -> res.1.2 = r).
Proof.
  cbn zeta. unfold streamWhileDownloadingToRes.
  destruct (headersSent r).
  - cbn [fst snd]. unfold fetches. simpl.
    rewrite filter_cons_True by reflexivity. repeat split; auto.
  - destruct (poll ts Progressive.start) as [c how].
    destruct how; cbn [fst snd]; unfold fetches; simpl;
      rewrite filter_cons_True by reflexivity;
      repeat split; auto; discriminate.
Qed.

(** *** A GET without a Range header *)

Section Get.

Variable TMP_DIR : string.

(** X21.  A GET without a Range header that is not answered with the demo page
    goes to the indexer at least once, whatever the index holds.  When it
    is answered, the index and the locks are as before: nothing is kept
    for later requests.  It is left unanswered exactly when every direct
    attempt failed and one of them had already written to the response:
    then neither fallback can set a header, and the response is never
    ended. *)
Theorem plain_get_always_fetches (w : world) (req : request) (e : get_env) :
  isValidRootHash (Str (rootHash req)) = true ->
  truthy (range req) = false ->
  wantsHtml req && demo_readable e = false ->
  let res := getStorage TMP_DIR w req e in
  fetches (rootHash req) w < fetches (rootHash req) res.1 /\
  match res.2 with
  | Responded _ | Streaming _ =>
      cache res.1 = cache w /\ downloadLocks res.1 = downloadLocks w /\
      (existsb delivering (candidates (ix e)) = true \/
       existsb writing (candidates (ix e)) = false)
  | Unhandled r =>
      existsb delivering (candidates (ix e)) = false /\
      existsb writing (candidates (ix e)) = true /\
      headersSent r = true /\ ended r = false
  end.
Proof.
  intros V Hr Hh. cbn zeta. unfold getStorage. rewrite V, Hr. simpl negb.
  cbn [andb]. rewrite Hh.
  pose proof (direct_outcome (ix e) w (rootHash req) fresh) as D.
  cbn zeta in D.
  destruct (tryDirectStreamFromIndexer (ix e) w (rootHash req) fresh)
    as [[w1 r1] how1].
  cbn [fst snd] in D.
  destruct D as (Fr & Fe & Hnone & Hsome & HR & HT & DR & DT).
  destruct Fr as (_ & _ & Fc & Fl & _).
  destruct (existsb delivering (candidates (ix e))) eqn:Del.
  - assert (how1 = Returns) as -> by (apply HR; reflexivity).
    cbn [fst snd]. split; [|auto].
    apply Hsome. intros Cs. rewrite Cs in Del. discriminate Del.
  - assert (how1 = Throws) as -> by (apply HT; reflexivity).
    destruct (DT eq_refl) as (De & _ & Dh). simpl in De, Dh.
    pose proof (stream_world TMP_DIR w1 (rootHash req) r1 (ticks e)) as SW.
    cbn zeta in SW.
    destruct (streamWhileDownloadingToRes TMP_DIR w1 (rootHash req) r1
                                          (ticks e)) as [[w2 r2] how2].
    cbn [fst snd] in SW. destruct SW as (Sc & Sl & _ & _ & Sf & ST & Sr).
    assert (X : fetches (rootHash req) w < fetches (rootHash req) w2) by lia.
    destruct how2; cbn [fst snd].
    + split; [exact X|]. split; [congruence|]. split; [congruence|].
      right. destruct (existsb writing (candidates (ix e))); [|reflexivity].
      assert (Returns = Throws) by (apply ST; exact Dh). discriminate.
    + assert (Hs : headersSent r1 = true) by (apply ST; reflexivity).
      rewrite (Sr eq_refl). unfold serveFromDisk. rewrite Hs.
      split; [exact X|]. rewrite Hs in Dh. auto.
    + split; [exact X|]. split; [congruence|]. split; [congruence|].
      right. destruct (existsb writing (candidates (ix e))); [|reflexivity].
      assert (Suspended = Throws) by (apply ST; exact Dh). discriminate.
Qed.

(** X22.  When the client goes away while the download is still running, the
    loop stops on the turn that notices it, whatever would have come
    after: the response is ended, the scratch file is unlinked although
    the download has not finished, and nothing is put in the index. *)
Theorem client_gone_stops_delivery
        (w : world) (root : string) (res : response)
        (before : list tick) (t : tick) :
  headersSent res = false ->
  Forall waiting before ->
  download t = Pending -> client_gone t = true ->
  exists w' res',
    (forall later,
        streamWhileDownloadingToRes TMP_DIR w root res
                                    (before ++ t :: later)%list
        = (w', res', Returns)) /\
    ended res' = true /\
    files w' !! partFile TMP_DIR (safeName (now w) root) = None /\
    cache w' = cache w /\ downloadLocks w' = downloadLocks w /\
    fetches root w' = S (fetches root w).
Proof.
  intros Hs Hb Hd Hg.
  assert (P : forall later,
             poll (before ++ t :: later)%list Progressive.start
             = (pumpOnce (first_pump t)
                         (ensureFd (opens t)
                                   (poll before Progressive.start).1),
                ClientGone)).
  { intros later. rewrite (poll_waiting before _ Hb). cbn [poll].
    rewrite Hd, Hg. reflexivity. }
  eexists _, _. split.
  - intros later. unfold streamWhileDownloadingToRes. rewrite Hs, P.
    reflexivity.
  - split; [reflexivity|]. split; [apply lookup_delete_eq|].
    split; [reflexivity|]. split; [reflexivity|].
    unfold fetches. simpl. rewrite filter_cons_True by reflexivity.
    reflexivity.
Qed.

End Get.

(** An indexer whose only method, [download], pushes some bytes into the
    response and then rejects. *)
Definition half_hearted : indexer :=
  {| downloadToStream := None; downloadStream := None; stream := None;
     download_to_response := Some (Attempt (Promise None) true) |}.

Definition a_get : request :=
  {| rootHash := test_hash; Gateway.range := None; accept := None;
     if_none_match := None |}.

Definition an_env : get_env :=
  {| demo_readable := false; ix := half_hearted; ticks := [];
     disk := {| downloaded := Thrown "unused"; stat := None;
                contentType := ""; lastModified := "" |} |}.

Lemma plain_get_always_fetches_witness :
  fetches test_hash (boot ∅)
  < fetches test_hash (getStorage "/tmp/og-gateway-tmp" (boot ∅) a_get an_env).1 /\
  match (getStorage "/tmp/og-gateway-tmp" (boot ∅) a_get an_env).2 with
  | Responded _ | Streaming _ =>
      cache (getStorage "/tmp/og-gateway-tmp" (boot ∅) a_get an_env).1
      = cache (boot ∅) /\
      downloadLocks (getStorage "/tmp/og-gateway-tmp" (boot ∅) a_get an_env).1
      = downloadLocks (boot ∅) /\
      (existsb delivering (candidates (ix an_env)) = true \/
       existsb writing (candidates (ix an_env)) = false)
  | Unhandled r =>
      existsb delivering (candidates (ix an_env)) = false /\
      existsb writing (candidates (ix an_env)) = true /\
      headersSent r = true /\ ended r = false
  end.
Proof.
  apply (plain_get_always_fetches "/tmp/og-gateway-tmp" (boot ∅) a_get an_env);
    reflexivity.
Defined.

Example unanswered_get :
  exists r,
    (getStorage "/tmp/og-gateway-tmp" (boot ∅) a_get an_env).2 = Unhandled r /\
    fetches test_hash
            (getStorage "/tmp/og-gateway-tmp" (boot ∅) a_get an_env).1 = 2.
Proof. eexists. split; vm_compute; reflexivity. Qed.

Lemma client_gone_stops_delivery_witness :
  exists w' res',
    (forall later,
        streamWhileDownloadingToRes
          "/tmp/og-gateway-tmp" (boot ∅) test_hash fresh
          ([Tick false (PumpEnv None None) Pending (PumpEnv None None) false]
             ++ Tick true (PumpEnv (Some 100%N) (Some 100%N)) Pending
                     (PumpEnv None None) true
             :: later)%list
        = (w', res', Returns)) /\
    ended res' = true /\
    files w' !! partFile "/tmp/og-gateway-tmp"
                         (safeName (now (boot ∅)) test_hash) = None /\
    cache w' = cache (boot ∅) /\
    downloadLocks w' = downloadLocks (boot ∅) /\
    fetches test_hash w' = S (fetches test_hash (boot ∅)).
Proof.
  apply (client_gone_stops_delivery
           "/tmp/og-gateway-tmp" (boot ∅) test_hash fresh
           [Tick false (PumpEnv None None) Pending (PumpEnv None None) false]
           (Tick true (PumpEnv (Some 100%N) (Some 100%N)) Pending
                 (PumpEnv None None) true)).
  - reflexivity.
  - repeat constructor.
  - reflexivity.
  - reflexivity.
Defined.

End Streams.

(** ** Status codes and cross-origin headers *)

Module Answers.
Import Js RootHash Cache World Http Progressive Range Gateway.

Definition allow_origin (r : response) : option string :=
  getHeader "Access-Control-Allow-Origin" r.

(** What a response of the GET handler looks like from a browser. *)
Definition answer_ok (root : string) (r : response) : Prop :=
  In (statusCode r) [200; 206; 304; 400; 416; 500; 502]%Z /\
  (In (statusCode r) [400; 500; 502]%Z -> allow_origin r = None) /\
  (In (statusCode r) [206; 304; 416]%Z -> allow_origin r = Some "*") /\
  (statusCode r = 200%Z ->
   allow_origin r = Some "*" \/
   (allow_origin r = None /\ body r = [DemoPage root])).

Lemma disk_answer_ok (root : string) (req : request) (e : disk_env)
      (r : response) :
  serveFromDisk req e fresh = Responded r -> answer_ok root r.
Proof.
  unfold serveFromDisk, answer_ok, allow_origin. simpl.
  destruct (downloaded e) as [p|msg].
  - destruct (stat e) as [st|].
    + destruct (etag_matches req (makeETag st)).
      * intros E. injection E as <-. simpl. intuition discriminate.
      * destruct (truthy (Gateway.range req)).
        -- destruct (parseRangeHeader (Gateway.range req) (Z.of_N (st_size st)));
             intros E; injection E as <-; simpl; intuition discriminate.
        -- intros E. injection E as <-. simpl. intuition discriminate.
    + intros E. injection E as <-. simpl. intuition discriminate.
  - intros E. injection E as <-. simpl. intuition discriminate.
Qed.

Lemma streaming_allow_origin (key : string) (r : response) :
  allow_origin (streaming_headers key r) = Some "*".
Proof.
  unfold allow_origin, getHeader, streaming_headers, setHeader.
  cbn [headers]. rewrite !header_put_other by discriminate.
  apply header_put_same.
Qed.

Lemma direct_allow_origin (root : string) (r : response) :
  allow_origin (direct_headers root r) = Some "*".
Proof.
  unfold allow_origin, getHeader, direct_headers, setHeader.
  cbn [headers]. rewrite !header_put_other by discriminate.
  apply header_put_same.
Qed.

Lemma allow_origin_headers (r r' : response) :
  headers r' = headers r -> allow_origin r' = allow_origin r.
Proof. unfold allow_origin, getHeader. intros ->. reflexivity. Qed.

Lemma streamed_answer_ok (root : string) (r : response) :
  statusCode r = 200%Z -> allow_origin r = Some "*" -> answer_ok root r.
Proof.
  intros S A. unfold answer_ok. rewrite S, A. simpl.
  intuition discriminate.
Qed.

Lemma disk_outcome (root : string) (req : request) (e : disk_env) :
  match serveFromDisk req e fresh with
  | Responded r => answer_ok root r
  | Unhandled _ => True
  | Streaming _ => False
  end.
Proof.
  destruct (serveFromDisk req e fresh) as [r|r|r] eqn:E.
  - eapply disk_answer_ok. exact E.
  - exact I.
  - unfold serveFromDisk in E. simpl in E.
    destruct (downloaded e); [|discriminate].
    destruct (stat e) as [st|]; [|discriminate].
    destruct (etag_matches req (makeETag st)); [discriminate|].
    destruct (truthy (Gateway.range req)); [|discriminate].
    destruct (parseRangeHeader _ _); discriminate.
Qed.

(** X23.  Every answer of the GET handler has one of the statuses 200, 206,
    304, 400, 416, 500, 502, and a response that is still streaming has
    status 200.  The answers 206, 304 and 416 and every streamed or
    file-backed 200 carry [Access-Control-Allow-Origin: *]; the error
    answers 400, 500 and 502, and the demo page, carry no cross-origin
    header at all.  The same holds for HEAD with the statuses 200, 304,
    400 and 502. *)
Theorem statuses_and_cross_origin_headers
        (TMP_DIR : string) (w : world) (req : request) (e : get_env) :
  match (getStorage TMP_DIR w req e).2 with
  | Responded r => answer_ok (rootHash req) r
  | Streaming r => statusCode r = 200%Z /\ allow_origin r = Some "*"
  | Unhandled _ => True
  end /\
  In (statusCode (headStorage req (disk e))) [200; 304; 400; 502]%Z /\
  (In (statusCode (headStorage req (disk e))) [400; 502]%Z ->
   allow_origin (headStorage req (disk e)) = None) /\
  (In (statusCode (headStorage req (disk e))) [200; 304]%Z ->
   allow_origin (headStorage req (disk e)) = Some "*").
Proof.
  split.
  - unfold getStorage.
    destruct (isValidRootHash (Str (rootHash req))); simpl negb; cbv iota.
    2:{ simpl. unfold answer_ok, allow_origin. simpl. intuition discriminate. }
    destruct (truthy (Gateway.range req)); simpl negb; cbn [andb].
    { cbn [snd]. pose proof (disk_outcome (rootHash req) req (disk e)) as D.
      destruct (serveFromDisk req (disk e) fresh); tauto. }
    destruct (wantsHtml req && demo_readable e).
    { simpl. unfold answer_ok, allow_origin. simpl. intuition discriminate. }
    destruct (tryDirectStreamFromIndexer (ix e) w (rootHash req) fresh)
      as [[w1 r1] how1] eqn:T.
    assert (H1 : statusCode r1 = 200%Z /\
                 (headers r1 = [] \/
                  headers r1 = headers (direct_headers (rootHash req) fresh))).
    { unfold tryDirectStreamFromIndexer in T.
      destruct (candidates (ix e)) as [|c cs].
      - injection T as <- <- <-. auto.
      - apply try_candidates_keeps in T as (A & B & _). auto. }
    destruct H1 as [S1 Hd1].
    assert (Direct : how1 = Returns -> answer_ok (rootHash req) r1).
    { intros ->. apply streamed_answer_ok; [exact S1|].
      unfold tryDirectStreamFromIndexer in T.
      destruct (candidates (ix e)) as [|c cs]; [discriminate T|].
      apply try_candidates_keeps in T as (_ & B & _).
      rewrite (allow_origin_headers _ _ B). apply direct_allow_origin. }
    assert (Stream :
      match streamWhileDownloadingToRes TMP_DIR w1 (rootHash req) r1 (ticks e)
      with
      | (w2, r2, Returns) => answer_ok (rootHash req) r2
      | (w2, r2, Suspended) =>
          statusCode r2 = 200%Z /\ allow_origin r2 = Some "*"
      | (w2, r2, Throws) => headersSent r2 = true
      end).
    { unfold streamWhileDownloadingToRes.
      destruct (headersSent r1) eqn:Hs; [exact Hs|].
      destruct (poll (ticks e) Progressive.start) as [c how].
      destruct (write_chunks_keeps
                  (partFile TMP_DIR (safeName (now w1) (rootHash req)))
                  (sent c)
                  (streaming_headers (safeName (now w1) (rootHash req)) r1))
        as (A & B & _).
      pose proof (streaming_allow_origin
                    (safeName (now w1) (rootHash req)) r1) as O.
      rewrite <- (allow_origin_headers _ _ B) in O.
      simpl in A. rewrite S1 in A.
      destruct how; [apply streamed_answer_ok | apply streamed_answer_ok
                    | split]; assumption. }
    destruct how1; [cbn [snd]; auto | |];
      destruct (streamWhileDownloadingToRes TMP_DIR w1 (rootHash req) r1
                                            (ticks e)) as [[w2 r2] how2];
      destruct how2; cbn [snd]; try assumption;
      unfold serveFromDisk; rewrite Stream; exact I.
  - unfold headStorage, allow_origin.
    destruct (isValidRootHash (Str (rootHash req))); simpl negb; cbv iota.
    2:{ simpl. intuition discriminate. }
    destruct (downloaded (disk e)) as [p|msg];
      [|simpl; intuition discriminate].
    destruct (stat (disk e)) as [st|]; [|simpl; intuition discriminate].
    cbv zeta. destruct (etag_matches req (makeETag st)); simpl;
      intuition discriminate.
Qed.

End Answers.

(** ** Promises and indexer calls *)

Module Tally.
Import Js RootHash Cache World Coordinator.

(** A promise of [downloadToTmp] for [root] that has got as far as
    calling the indexer. *)
Definition started_for (root : string) (t : task) : bool :=
  String.eqb (t_root t) root && started (t_state t).

Fixpoint started_count (root : string) (ts : list task) : nat :=
  match ts with
  | [] => 0
  | t :: rest =>
      (if started_for root t then 1 else 0) + started_count root rest
  end.

Lemma started_count_app (root : string) (a b : list task) :
  started_count root (a ++ b)%list
  = started_count root a + started_count root b.
Proof. induction a as [|t a IH]; simpl; [reflexivity|]. rewrite IH. lia. Qed.

Lemma started_count_insert (root : string) (ts : list task) :
  forall pid t t',
    ts !! pid = Some t ->
    started_count root (<[pid := t']> ts)
    + (if started_for root t then 1 else 0)
    = started_count root ts + (if started_for root t' then 1 else 0).
Proof.
  induction ts as [|x ts IH]; intros pid t t' H; [discriminate|].
  destruct pid as [|pid]; simpl in *.
  - injection H as ->. lia.
  - specialize (IH pid t t' H). lia.
Qed.

Lemma started_count_bound (root : string) (ts : list task) :
  started_count root ts <= length ts.
Proof.
  induction ts as [|t ts IH]; simpl; [lia|].
  destruct (started_for root t); lia.
Qed.

Definition tallied (w : world) : Prop :=
  forall root, fetches root w = started_count root (tasks w).

Lemma fetches_cons_log (root : string) (i : invocation) (l : list invocation) :
  length (filter (fun j => i_root j = root) (i :: l))
  = (if String.eqb (i_root i) root then 1 else 0)
    + length (filter (fun j => i_root j = root) l).
Proof.
  destruct (String.eqb_spec (i_root i) root) as [E|E].
  - rewrite filter_cons_True by exact E. reflexivity.
  - rewrite filter_cons_False by exact E. reflexivity.
Qed.

Section Runs.

Variable TMP_DIR : string.
Variable opts : options.

Lemma lock_or_start_tallied (w : world) (rid : nat) (root key : string) :
  tallied w -> tallied (lock_or_start rid root key w).
Proof.
  intros T r. unfold lock_or_start.
  destruct (downloadLocks w !! key); [exact (T r)|].
  unfold fetches. simpl. rewrite started_count_app.
  cbn [started_count]. unfold started_for at 1. cbn [t_state started].
  rewrite andb_false_r.
  specialize (T r). unfold fetches in T. lia.
Qed.

Lemma move_tallied (w w' : world) (pid : nat) (root key : string)
      (s s' : inner_state) :
  tasks w !! pid = Some (Task root key s) ->
  tasks w' = <[pid := Task root key s']> (tasks w) ->
  log w' = log w -> started s = true -> started s' = true ->
  tallied w -> tallied w'.
Proof.
  intros Ht Et El Hs Hs' T r. unfold fetches. rewrite El, Et.
  pose proof (started_count_insert r (tasks w) pid _ (Task root key s') Ht)
    as C.
  unfold started_for in C. simpl in C. rewrite Hs, Hs' in C.
  specialize (T r). unfold fetches in T.
  destruct (String.eqb root r); simpl in C; lia.
Qed.

Lemma step_tallied (w w' : world) (e : event) :
  step TMP_DIR opts w e = Some w' -> tallied w -> tallied w'.
Proof.
  intros St T.
  destruct e as [rid root|rid|pid|pid out|pid|pid|rid|dt|rid|rid];
    simpl in St.
  - destruct (calls w !! rid); [discriminate|].
    destruct (Cache.get opts (now w) _ (cache w)) as [[hit c] dropped].
    injection St as <-. destruct hit; [exact T|].
    apply lock_or_start_tallied. exact T.
  - destruct (calls w !! rid) as [[root key [m| | |]]|]; try discriminate.
    destruct (files w !! m_path m).
    + injection St as <-. exact T.
    + destruct (Cache.delete key (cache w)) as [c dropped].
      injection St as <-. apply lock_or_start_tallied. exact T.
  - destruct (tasks w !! pid) as [[root key []]|] eqn:Ht; try discriminate.
    injection St as <-. intros r. unfold fetches. simpl.
    rewrite fetches_cons_log. simpl.
    pose proof (started_count_insert r (tasks w) pid _
                  (Task root key AwaitDownload) Ht) as C.
    unfold started_for in C. simpl in C. rewrite andb_false_r in C.
    specialize (T r). unfold fetches in T.
    destruct (String.eqb root r); simpl in C |- *; lia.
  - destruct (tasks w !! pid) as [[root key []]|] eqn:Ht; try discriminate.
    injection St as <-.
    destruct out; eapply (move_tallied w _ pid root key AwaitDownload);
      try eassumption; reflexivity.
  - destruct (tasks w !! pid) as [[root key []]|] eqn:Ht; try discriminate.
    injection St as <-.
    eapply (move_tallied w _ pid root key (AwaitCleanup err));
      try eassumption; reflexivity.
  - destruct (tasks w !! pid) as [[root key []]|] eqn:Ht; try discriminate.
    destruct (files w !! tmpFile TMP_DIR key).
    + destruct (Cache.set opts (now w) key _ (cache w)) as [c dropped].
      injection St as <-.
      eapply (move_tallied w _ pid root key AwaitStat);
        try eassumption; reflexivity.
    + injection St as <-.
      eapply (move_tallied w _ pid root key AwaitStat);
        try eassumption; reflexivity.
  - destruct (calls w !! rid) as [[root key [m|p|p|r]]|]; try discriminate;
      destruct (tasks w !! p) as [[root' key' [| | | |r]]|];
      try discriminate; injection St as <-; exact T.
  - injection St as <-. exact T.
  - destruct (calls w !! rid) as [[root key [m|p|p|[q|msg]]]|];
      try discriminate.
    destruct (readers w !! rid); [discriminate|].
    destruct (files w !! q); [|discriminate].
    injection St as <-. exact T.
  - destruct (readers w !! rid); [|discriminate].
    injection St as <-. exact T.
Qed.

Lemma run_tallied (evs : list event) :
  forall w w', run TMP_DIR opts w evs = Some w' -> tallied w -> tallied w'.
Proof.
  induction evs as [|e evs IH]; simpl; intros w w' R T.
  - injection R as <-. exact T.
  - destruct (step TMP_DIR opts w e) as [w1|] eqn:St; [|discriminate].
    eapply IH; [exact R|]. eapply step_tallied; eassumption.
Qed.

(** X24.  In every run from an idle process, [downloadToTmp] has invoked
    [indexer.download] for a root hash exactly as often as it has
    promises for that root hash that got past their first [await]: one
    call per promise and none without, so a failed download is never
    tried again by the promise that made it. *)
Theorem one_invocation_per_promise
        (w0 w : world) (evs : list event) (root : string) :
  idle w0 -> run TMP_DIR opts w0 evs = Some w ->
  fetches root w = started_count root (tasks w) /\
  fetches root w <= length (tasks w).
Proof.
  intros (_ & Ht & _ & Hl) R.
  assert (T0 : tallied w0).
  { intros r. unfold fetches. rewrite Ht, Hl. reflexivity. }
  pose proof (run_tallied evs w0 w R T0 root) as T.
  split; [exact T|]. rewrite T. apply started_count_bound.
Qed.

End Runs.

Lemma one_invocation_per_promise_witness :
  fetches test_hash Ledger.busy
  = started_count test_hash (tasks Ledger.busy) /\
  fetches test_hash Ledger.busy <= length (tasks Ledger.busy).
Proof.
  apply (one_invocation_per_promise
           "/tmp/og-gateway-tmp" (Options 200 3600000) (boot ∅) Ledger.busy
           Ledger.busy_evs test_hash).
  - repeat split.
  - vm_compute. reflexivity.
Defined.

End Tally.

(** ** The demo page: injecting the root hash

    A GET that asks for HTML and carries no Range header is answered with
    [public/video-player.html], into which the handler writes a script
    that names the root hash.  The page is taken as its sequence of UTF-8
    bytes: the markers searched for are ASCII, and an ASCII byte never
    occurs inside the encoding of another character. *)

Module DemoPage.
Import Js RootHash Gateway.

(** Two hexadecimal digits, lower case. *)
Definition hex2 (n : N) : string :=
  String (Radix.digit (n / 16)) (String (Radix.digit (n mod 16)) "").

Definition backslash : string := String (ascii_of_N 92) "".

(** [QuoteJSONString] on one code unit. *)
Definition escape (c : ascii) : string :=
  let n := code c in
  if (n =? 8)%N then backslash ++ "b"
  else if (n =? 9)%N then backslash ++ "t"
  else if (n =? 10)%N then backslash ++ "n"
  else if (n =? 12)%N then backslash ++ "f"
  else if (n =? 13)%N then backslash ++ "r"
  else if (n =? 34)%N then backslash ++ quote
  else if (n =? 92)%N then backslash ++ backslash
  else if (n <? 32)%N then backslash ++ "u00" ++ hex2 n
  else String c "".

Fixpoint escape_all (s : string) : string :=
  match s with
  | EmptyString => EmptyString
  | String c r => escape c ++ escape_all r
  end.

(** [JSON.stringify(s)] for a string *)
Definition stringify (s : string) : string :=
  quote ++ escape_all s ++ quote.

(** The text before the first occurrence of [pat] in [s] and the text
    after it. *)
Fixpoint find (pat s : string) : option (string * string) :=
  match strip_prefix pat s with
  | Some rest => Some (EmptyString, rest)
  | None =>
      match s with
      | EmptyString => None
      | String c r =>
          match find pat r with
          | Some (a, b) => Some (String c a, b)
          | None => None
          end
      end
  end.

(** [GetSubstitution] for a pattern that is a string (no captures): in
    the replacement text [$$] stands for a dollar sign, [$&] for the
    matched text, [$`] and [$'] for the text before and after the match;
    any other dollar sign stands for itself. *)
Fixpoint substitute (matched before after template : string) : string :=
  match template with
  | EmptyString => EmptyString
  | String c r =>
      if Ascii.eqb c "$" then
        match r with
        | String d r' =>
            if Ascii.eqb d "$" then
              String "$" (substitute matched before after r')
            else if Ascii.eqb d "&" then
              matched ++ substitute matched before after r'
            else if Ascii.eqb d "`" then
              before ++ substitute matched before after r'
            else if Ascii.eqb d "'" then
              after ++ substitute matched before after r'
            else String c (substitute matched before after r)
        | EmptyString => String c EmptyString
        end
      else String c (substitute matched before after r)
  end.

(** [s.replace(pat, template)] for a string [pat] *)
Definition replace (s pat template : string) : string :=
  match find pat s with
  | Some (a, b) => a ++ substitute pat a b template ++ b
  | None => s
  end.

Definition marker : string := "<!-- INJECT_ROOT_HASH -->".

Definition injectScript (rootHash : string) : string :=
  "<script>window.__OG_ROOT_FROM_SERVER = " ++ stringify rootHash
    ++ ";</script>".

(** The page the handler sends. *)
Definition inject (html rootHash : string) : string :=
  if includes html marker then replace html marker (injectScript rootHash)
  else if includes html "</head>" then
    replace html "</head>" (injectScript rootHash ++ "</head>")
  else injectScript rootHash ++ html.

Example stringify_quote :
  stringify (String (ascii_of_N 34) "<") = quote ++ backslash ++ quote ++ "<" ++ quote.
Proof. reflexivity. Qed.

Example replace_dollar : replace "a-b" "-" "[$&$$$`]" = "a[-$a]b".
Proof. reflexivity. Qed.

(** *** Searching *)

Lemma find_split (pat : string) (s : string) :
  forall a b, find pat s = Some (a, b) -> s = a ++ pat ++ b.
Proof.
  induction s as [|c s IH]; intros a b; simpl.
  - destruct (strip_prefix pat "") as [rest|] eqn:P; [|discriminate].
    intros E. injection E as <- <-. apply strip_prefix_spec in P. exact P.
  - destruct (strip_prefix pat (String c s)) as [rest|] eqn:P.
    + intros E. injection E as <- <-. apply strip_prefix_spec in P. exact P.
    + destruct (find pat s) as [[a' b']|]; [|discriminate].
      intros E. injection E as <- <-. simpl. rewrite (IH a' b' eq_refl).
      reflexivity.
Qed.

Lemma find_first (pat : string) (s : string) :
  forall a b a' b',
    find pat s = Some (a, b) -> s = a' ++ pat ++ b' ->
    String.length a <= String.length a'.
Proof.
  induction s as [|c s IH]; intros a b a' b'; simpl.
  - destruct (strip_prefix pat ""); [|discriminate].
    intros E. injection E as <- <-. simpl. lia.
  - destruct (strip_prefix pat (String c s)) as [rest|] eqn:P.
    + intros E. injection E as <- <-. simpl. lia.
    + destruct (find pat s) as [[a0 b0]|] eqn:F; [|discriminate].
      intros E. injection E as <- <-. intros S.
      destruct a' as [|c' a0'].
      * simpl in S. assert (X : strip_prefix pat (String c s) = Some b')
          by (apply strip_prefix_spec; exact S).
        congruence.
      * simpl in S. injection S as _ S. simpl.
        specialize (IH a0 b0 a0' b' eq_refl S). lia.
Qed.

Lemma includes_find (pat s : string) :
  includes s pat = true <-> is_Some (find pat s).
Proof.
  induction s as [|c s IH]; simpl; unfold startsWith.
  - destruct (strip_prefix pat ""); simpl.
    + split; [eauto | reflexivity].
    + split; [discriminate | intros [x X]; discriminate].
  - destruct (strip_prefix pat (String c s)); simpl.
    + split; [eauto | reflexivity].
    + rewrite IH. destruct (find pat s) as [[a b]|].
      * split; eauto.
      * split; intros [x X]; discriminate.
Qed.

Lemma includes_inside (pat a b : string) :
  includes (a ++ pat ++ b) pat = true.
Proof.
  induction a as [|c a IH].
  - simpl. destruct (pat ++ b) eqn:E; simpl.
    + replace (startsWith "" pat) with true; [reflexivity|].
      symmetry. apply startsWith_spec. exists b. auto.
    + replace (startsWith (String a s) pat) with true; [reflexivity|].
      symmetry. apply startsWith_spec. exists b. auto.
  - change (String c a ++ pat ++ b) with (String c (a ++ pat ++ b)).
    cbn [includes]. rewrite IH. apply orb_true_r.
Qed.

(** *** Texts that need no escaping *)

Definition literal (c : ascii) : bool := String.eqb (escape c) (String c "").

Definition no_dollar (c : ascii) : bool := negb (Ascii.eqb c "$").

Lemma escape_all_literal (s : string) :
  all literal s = true -> escape_all s = s.
Proof.
  induction s as [|c s IH]; simpl; [reflexivity|].
  intros H. apply andb_true_iff in H as [Hc Hs].
  apply String.eqb_eq in Hc. rewrite Hc, (IH Hs). reflexivity.
Qed.

Lemma substitute_no_dollar (m a b t : string) :
  all no_dollar t = true -> substitute m a b t = t.
Proof.
  induction t as [|c t IH]; simpl; [reflexivity|].
  intros H. apply andb_true_iff in H as [Hc Ht].
  apply negb_true_iff in Hc. rewrite Hc, (IH Ht). reflexivity.
Qed.

Lemma page_char_literal (c : ascii) :
  Routes.page_char c = true -> literal c = true /\ no_dollar c = true.
Proof.
  unfold Routes.page_char. intros H.
  assert (R : (48 <= code c <= 57 \/ 97 <= code c <= 102 \/
               65 <= code c <= 70 \/ code c = 120)%N).
  { apply orb_true_iff in H as [H|H].
    - apply hex_code in H. tauto.
    - apply Ascii.eqb_eq in H. subst c. right. right. right. reflexivity. }
  split.
  - unfold literal, escape. cbv zeta.
    assert (Ne : forall k, code c <> k -> (code c =? k)%N = false)
      by (intros k; apply N.eqb_neq).
    rewrite !Ne by lia.
    replace (code c <? 32)%N with false by (symmetry; apply N.ltb_ge; lia).
    apply String.eqb_refl.
  - apply negb_true_iff, Ascii.eqb_neq. intros ->.
    change (code "$") with 36%N in R. lia.
Qed.

Lemma key_literal (rootHash : string) :
  isValidRootHash (Str rootHash) = true ->
  all literal rootHash = true /\ all no_dollar rootHash = true.
Proof.
  intros V. apply valid_unfold in V as (t & E & _ & A).
  pose proof (Routes.page_chars rootHash t (or_intror E) A) as P.
  split; revert P; apply all_impl; intros c Hc;
    apply page_char_literal in Hc; tauto.
Qed.

Lemma append_assoc (a b c : string) : (a ++ b) ++ c = a ++ (b ++ c).
Proof. induction a as [|x a IH]; simpl; congruence. Qed.

(** The script for an accepted key: the key between double quotes, as it
    is, and no dollar sign anywhere. *)
Lemma script_of_key (rootHash : string) :
  isValidRootHash (Str rootHash) = true ->
  injectScript rootHash
  = "<script>window.__OG_ROOT_FROM_SERVER = " ++ quote ++ rootHash ++ quote
      ++ ";</script>" /\
  all no_dollar (injectScript rootHash) = true.
Proof.
  intros V. destruct (key_literal rootHash V) as [L D].
  assert (E : injectScript rootHash
              = "<script>window.__OG_ROOT_FROM_SERVER = "
                  ++ (quote ++ (rootHash ++ (quote ++ ";</script>")))).
  { unfold injectScript, stringify. rewrite (escape_all_literal _ L).
    rewrite !append_assoc. reflexivity. }
  split; [exact E|]. rewrite E, !all_app, D. reflexivity.
Qed.

(** X25.  [find] splits a text at the first occurrence of a pattern.  For an
    accepted key the page sent is the page read with the script in place
    of the first marker; without a marker, with the script put before the
    first [</head>]; without either, with the script in front.
    The script is the fixed text around the key in double quotes: the key
    needs no escaping and contains nothing the replacement would expand.
    In each case the page sent contains the script. *)
Theorem demo_page_carries_the_key (html rootHash : string) :
  isValidRootHash (Str rootHash) = true ->
  let script :=
    "<script>window.__OG_ROOT_FROM_SERVER = " ++ quote ++ rootHash ++ quote
      ++ ";</script>" in
  (forall pat a b,
      find pat html = Some (a, b) ->
      html = a ++ pat ++ b /\
      forall a' b', html = a' ++ pat ++ b' ->
                    String.length a <= String.length a') /\
  (forall a b, find marker html = Some (a, b) ->
               inject html rootHash = a ++ script ++ b) /\
  (find marker html = None ->
   forall a b, find "</head>" html = Some (a, b) ->
               inject html rootHash = a ++ script ++ "</head>" ++ b) /\
  (find marker html = None -> find "</head>" html = None ->
   inject html rootHash = script ++ html) /\
  includes (inject html rootHash) script = true.
Proof.
  intros V script.
  destruct (script_of_key rootHash V) as [E D]. fold script in E.
  assert (D2 : all no_dollar (injectScript rootHash ++ "</head>") = true)
    by (rewrite all_app, D; reflexivity).
  assert (I : forall pat, find pat html = None -> includes html pat = false).
  { intros pat F. destruct (includes html pat) eqn:X; [|reflexivity].
    apply includes_find in X. rewrite F in X. destruct X; discriminate. }
  assert (J : forall pat a b, find pat html = Some (a, b) ->
                              includes html pat = true).
  { intros pat a b F. apply includes_find. rewrite F. eauto. }
  assert (A1 : forall a b, find marker html = Some (a, b) ->
                           inject html rootHash = a ++ script ++ b).
  { intros a b F. unfold inject, replace. rewrite (J _ _ _ F), F.
    rewrite (substitute_no_dollar _ _ _ _ D), E. reflexivity. }
  assert (A2 : find marker html = None ->
               forall a b, find "</head>" html = Some (a, b) ->
               inject html rootHash = a ++ script ++ "</head>" ++ b).
  { intros N a b F. unfold inject, replace. rewrite (I _ N), (J _ _ _ F), F.
    rewrite (substitute_no_dollar _ _ _ _ D2), E.
    rewrite append_assoc. reflexivity. }
  assert (A3 : find marker html = None -> find "</head>" html = None ->
               inject html rootHash = script ++ html).
  { intros N1 N2. unfold inject. rewrite (I _ N1), (I _ N2), E.
    reflexivity. }
  split; [|split; [|split; [|split]]].
  - intros pat a b F. split; [apply find_split; exact F|].
    intros a' b'. apply (find_first pat html a b a' b' F).
  - exact A1.
  - exact A2.
  - exact A3.
  - destruct (find marker html) as [[a b]|] eqn:F1.
    + rewrite (A1 a b eq_refl). apply includes_inside.
    + destruct (find "</head>" html) as [[a b]|] eqn:F2.
      * rewrite (A2 eq_refl a b eq_refl).
        apply (includes_inside script a ("</head>" ++ b)).
      * rewrite (A3 eq_refl eq_refl).
        apply (includes_inside script "" html).
Qed.

Lemma demo_page_carries_the_key_witness :
  includes
    (inject "<html><head><title>t</title></head><body></body></html>"
            test_hash)
    ("<script>window.__OG_ROOT_FROM_SERVER = " ++ quote ++ test_hash ++ quote
       ++ ";</script>") = true.
Proof.
  apply (demo_page_carries_the_key
           "<html><head><title>t</title></head><body></body></html>"
           test_hash).
  vm_compute. reflexivity.
Defined.

End DemoPage.

(** ** The service worker: [public/sw-chunked.js]

    The worker serves [/cached-files/<rootHash>.<ext>] from the gateway's
    storage route and files each ranged answer under a chunk key. *)

Module Worker.
Import Js Range.

(** [parts.join(sep)] *)
Fixpoint join_with (sep : string) (parts : list string) : string :=
  match parts with
  | [] => ""
  | [x] => x
  | x :: rest => x ++ sep ++ join_with sep rest
  end.

Record cached_url : Type :=
  CachedUrl { cu_root : string; cu_ext : string; cu_filename : string }.

(** [parseCachedUrl(url)], from the path of the URL on: [pathname] is
    [new URL(url).pathname], or [None] when the URL does not parse. *)
Definition parseCachedUrl (pathname : option string) : option cached_url :=
  match pathname with
  | None => None
  | Some p =>
      let parts := Path.segments p in
      match parts !! 1%nat with
      | Some second =>
          if String.eqb second "cached-files" then
            let filename := join_with "/" (drop 2 parts) in
            match DemoPage.find "." filename with
            | Some (root, ext) => Some (CachedUrl root ext filename)
            | None => Some (CachedUrl filename "" filename)
            end
          else None
      | None => None
      end
  end.

(** The bounds the worker writes into the chunk key of a ranged answer of
    [byteLength] bytes; the second is [None] where the code leaves the
    empty string.  [metaSize] is the size remembered from the HEAD
    request, if any.  A group that is not empty is a run of digits, on
    which [parseInt] never yields [NaN]. *)
Definition chunk_bounds (rangeHeader : string) (metaSize : option Z)
           (byteLength : Z) : Z * option Z :=
  match exec_range rangeHeader with
  | Some (m1, m2) =>
      let start :=
        if is_empty m1 then 0%Z else default 0%Z (parseInt10 m1) in
      let end_ :=
        if is_empty m2 then (start + byteLength - 1)%Z
        else default 0%Z (parseInt10 m2) in
      (start, Some end_)
  | None =>
      (0%Z,
       match metaSize with
       | Some size => if (size =? 0)%Z then None else Some (size - 1)%Z
       | None => None
       end)
  end.

(** [`${rootHash}:${start}-${end}`] *)
Definition chunkKey (rootHash : string) (bounds : Z * option Z) : string :=
  rootHash ++ ":" ++ Gateway.decimal bounds.1 ++ "-"
    ++ match bounds.2 with
       | Some e => Gateway.decimal e
       | None => ""
       end.

Definition no_slash (c : ascii) : bool := negb (Ascii.eqb c "/").

Definition no_dot (c : ascii) : bool := negb (Ascii.eqb c ".").

Lemma segments_no_slash (s : string) :
  all no_slash s = true -> Path.segments s = [s].
Proof.
  induction s as [|c r IH]; simpl; intros H; [reflexivity|].
  apply andb_true_iff in H as [Hc Hr]. unfold no_slash in Hc.
  destruct (Ascii.eqb c "/"); [discriminate|].
  rewrite (IH Hr). reflexivity.
Qed.

Lemma segments_cached (rest : string) :
  Path.segments ("/cached-files/" ++ rest)
  = ("" :: "cached-files" :: Path.segments rest)%list.
Proof.
  change ("/cached-files/" ++ rest)
    with ("" ++ String "/" ("cached-files" ++ String "/" rest)).
  rewrite !Path.segments_glue. reflexivity.
Qed.

Lemma find_dot_cons (c : ascii) (s : string) :
  DemoPage.find "." (String c s)
  = if Ascii.eqb "." c then Some ("", s)
    else match DemoPage.find "." s with
         | Some (a, b) => Some (String c a, b)
         | None => None
         end.
Proof.
  cbn [DemoPage.find strip_prefix]. destruct (Ascii.eqb "." c); reflexivity.
Qed.

Lemma find_dot (name rest : string) :
  all no_dot name = true ->
  DemoPage.find "." (name ++ String "." rest) = Some (name, rest).
Proof.
  induction name as [|c name IH]; intros H; [reflexivity|].
  cbn [all] in H. apply andb_true_iff in H as [Hc Hn]. unfold no_dot in Hc.
  change (String c name ++ String "." rest)
    with (String c (name ++ String "." rest)).
  rewrite find_dot_cons, Ascii.eqb_sym.
  destruct (Ascii.eqb c "."); [discriminate|].
  rewrite (IH Hn). reflexivity.
Qed.

Lemma find_no_dot (name : string) :
  all no_dot name = true -> DemoPage.find "." name = None.
Proof.
  induction name as [|c name IH]; intros H; [reflexivity|].
  cbn [all] in H. apply andb_true_iff in H as [Hc Hn]. unfold no_dot in Hc.
  rewrite find_dot_cons, Ascii.eqb_sym.
  destruct (Ascii.eqb c "."); [discriminate|].
  rewrite (IH Hn). reflexivity.
Qed.

Lemma found_dot (s root ext : string) :
  DemoPage.find "." s = Some (root, ext) ->
  s = root ++ "." ++ ext /\ all no_dot root = true.
Proof.
  revert root ext. induction s as [|c s IH]; intros root ext.
  - discriminate.
  - rewrite find_dot_cons. destruct (Ascii.eqb "." c) eqn:E.
    + apply Ascii.eqb_eq in E. subst c. intros X. injection X as <- <-.
      split; reflexivity.
    + destruct (DemoPage.find "." s) as [[a b]|]; [|discriminate].
      intros X. injection X as <- <-.
      destruct (IH a b eq_refl) as [-> A]. split; [reflexivity|].
      cbn [all]. rewrite A. unfold no_dot. rewrite Ascii.eqb_sym, E.
      reflexivity.
Qed.

(** X26.  The worker reads the key and the extension back from the paths the
    page uses: for a name without slash or dot and an extension without
    slash, [/cached-files/name.ext] gives the name as root hash and the
    extension, and [/cached-files/name] gives the name and no extension.
    An accepted key is such a name, so the worker asks the gateway for
    exactly that key. *)
Theorem cached_url_round_trip (name ext : string) :
  all no_slash name = true -> all no_dot name = true ->
  all no_slash ext = true ->
  parseCachedUrl (Some ("/cached-files/" ++ name ++ "." ++ ext))
  = Some (CachedUrl name ext (name ++ "." ++ ext)) /\
  parseCachedUrl (Some ("/cached-files/" ++ name))
  = Some (CachedUrl name "" name).
Proof.
  intros Hs Hd He. unfold parseCachedUrl. cbv zeta.
  rewrite !segments_cached. cbn [lookup list_lookup drop].
  change (String.eqb "cached-files" "cached-files") with true. cbv iota.
  split.
  - rewrite segments_no_slash by (rewrite !all_app, Hs, He; reflexivity).
    cbn [drop join_with]. change ("." ++ ext) with (String "." ext).
    rewrite (find_dot name ext Hd). reflexivity.
  - rewrite (segments_no_slash name Hs). cbn [drop join_with].
    rewrite (find_no_dot name Hd). reflexivity.
Qed.

Lemma cached_url_round_trip_witness :
  parseCachedUrl (Some ("/cached-files/" ++ RootHash.test_hash ++ "." ++ "mp4"))
  = Some (CachedUrl RootHash.test_hash "mp4" (RootHash.test_hash ++ "." ++ "mp4")) /\
  parseCachedUrl (Some ("/cached-files/" ++ RootHash.test_hash))
  = Some (CachedUrl RootHash.test_hash "" RootHash.test_hash).
Proof.
  apply (cached_url_round_trip RootHash.test_hash "mp4"); reflexivity.
Defined.

(** X27.  Whatever the path, what the worker returns splits the file name at
    its first dot: the root hash has no dot, and the file name is the
    root hash alone or the root hash, a dot and the extension.  A path
    whose second piece is not [cached-files] is not the worker's. *)
Theorem cached_url_shape (pathname : string) :
  match parseCachedUrl (Some pathname) with
  | Some c =>
      Path.segments pathname !! 1%nat = Some "cached-files" /\
      all no_dot (cu_root c) = true /\
      (cu_filename c = cu_root c /\ cu_ext c = "" \/
       cu_filename c = cu_root c ++ "." ++ cu_ext c)
  | None => Path.segments pathname !! 1%nat <> Some "cached-files"
  end.
Proof.
  unfold parseCachedUrl. cbv zeta.
  destruct (Path.segments pathname !! 1%nat) as [second|]; [|discriminate].
  destruct (String.eqb_spec second "cached-files") as [->|N];
    [|congruence].
  destruct (DemoPage.find "." _) as [[root ext]|] eqn:F.
  - apply found_dot in F as [E A]. simpl. auto.
  - simpl. split; [reflexivity|]. split; [|auto].
    revert F. generalize (join_with "/" (drop 2 (Path.segments pathname))).
    intros s. induction s as [|c s IH]; [reflexivity|].
    rewrite find_dot_cons. destruct (Ascii.eqb "." c) eqn:E; [discriminate|].
    destruct (DemoPage.find "." s) as [[a b]|]; [discriminate|].
    intros _. cbn [all]. rewrite (IH eq_refl). unfold no_dot.
    rewrite Ascii.eqb_sym, E. reflexivity.
Qed.

(** X28.  For a range that names its first byte and, if it names a last byte,
    one inside the object, the bounds in the chunk key are the bounds of
    the slice the gateway sends for that range. *)
Theorem chunk_key_names_the_slice
        (h a b : string) (size : Z) (w : window) (metaSize : option Z) :
  exec_range h = Some (a, b) -> a <> "" ->
  (b = "" \/ (digits_val 0 b < size)%Z) ->
  Range.parseRangeHeader (Some h) size = Some w ->
  chunk_bounds h metaSize (end_ w - start w + 1)
  = (start w, Some (end_ w)).
Proof.
  intros X Na Hb P. unfold chunk_bounds. rewrite X. cbv zeta.
  apply exec_range_spec in X as (-> & Da & Db).
  pose proof (Validators.range_text_trim a b Da Db) as T.
  rewrite (proj2 (is_empty_false a) Na).
  rewrite (parseInt10_digits a Da Na). cbn [default].
  destruct (is_empty b) eqn:Eb.
  - apply is_empty_true in Eb. subst b.
    rewrite (parse_form _ (StartOpen (digits_val 0 a)) size) in P
      by (exists a, ""; auto 10).
    destruct (digits_val 0 a >=? size)%Z; [discriminate|].
    injection P as <-. simpl. f_equal. f_equal. lia.
  - apply is_empty_false in Eb.
    destruct Hb as [Hb | Hb]; [contradiction|].
    rewrite (parseInt10_digits b Db Eb). cbn [default].
    rewrite (parse_form _ (StartEnd (digits_val 0 a) (digits_val 0 b))
                        size) in P
      by (exists a, b; auto 10).
    destruct (digits_val 0 a >? digits_val 0 b)%Z; [discriminate|].
    destruct (digits_val 0 a >=? size)%Z; [discriminate|].
    injection P as <-. simpl. rewrite Z.min_l by lia. reflexivity.
Qed.

Lemma chunk_key_names_the_slice_witness :
  chunk_bounds "bytes=900-" (Some 1000%Z)
               (end_ (Window 900 999) - start (Window 900 999) + 1)
  = (start (Window 900 999), Some (end_ (Window 900 999))).
Proof.
  apply (chunk_key_names_the_slice "bytes=900-" "900" "" 1000);
    [reflexivity | discriminate | left; reflexivity | reflexivity].
Defined.

Example chunk_key_of_a_slice :
  chunkKey "0xab" (chunk_bounds "bytes=900-" (Some 1000%Z) 100)
  = "0xab:900-999".
Proof. vm_compute. reflexivity. Qed.

Example chunk_key_of_a_suffix :
  chunk_bounds "bytes=-100" (Some 1000%Z) 100 = (0%Z, Some 100%Z) /\
  Range.parseRangeHeader (Some "bytes=-100") 1000 = Some (Window 900 999).
Proof. split; reflexivity. Qed.

End Worker.

(** ** The two scratch files of a key *)

Module Scratch.
Import Js RootHash Cache Coordinator Progressive.

Lemma resolve_last_segment (allowAbove : bool) (name : string) :
  String.eqb name "" = false -> String.eqb name "." = false ->
  String.eqb name ".." = false ->
  forall segs stack,
    Path.resolve allowAbove (segs ++ [name])%list stack =
    (Path.resolve allowAbove segs stack ++ [name])%list.
Proof.
  intros E1 E2 E3.
  induction segs as [|seg rest IH]; intros stack; simpl.
  - rewrite E1, E2, E3. reflexivity.
  - destruct (String.eqb seg "" || String.eqb seg "."); [apply IH|].
    destruct (String.eqb seg ".."); [|apply IH].
    destruct stack as [|top below].
    + destruct allowAbove; apply IH.
    + destruct (String.eqb top ".."); apply IH.
Qed.

(** The file name of the progressive path's scratch file. *)
Lemma part_name (key : string) :
  Path.plain_name key ->
  all Worker.no_slash (key ++ ".part") = true /\
  String.eqb (key ++ ".part") "" = false /\
  String.eqb (key ++ ".part") "." = false /\
  String.eqb (key ++ ".part") ".." = false.
Proof.
  intros [Hne Hall].
  assert (S : all Worker.no_slash key = true).
  { revert Hall. apply all_impl. intros c Hc. unfold Path.name_char in Hc.
    unfold Worker.no_slash. destruct (Ascii.eqb c "/"); [discriminate|].
    reflexivity. }
  split; [rewrite all_app, S; reflexivity|].
  destruct key as [|c key]; [congruence|].
  cbn [all] in Hall. apply andb_true_iff in Hall as [Hc _].
  assert (Hd : Ascii.eqb c "." = false).
  { unfold Path.name_char in Hc. destruct (Ascii.eqb c "."); [|reflexivity].
    rewrite andb_false_r in Hc. discriminate. }
  change (String c key ++ ".part") with (String c (key ++ ".part")).
  repeat split; try reflexivity; cbn [String.eqb]; rewrite Hd; reflexivity.
Qed.

Lemma join_part (dir key : string) :
  Path.plain_name key ->
  Path.join dir (key ++ ".part")
  = (Path.normalize dir ++ [(key ++ ".part")%string])%list.
Proof.
  intros Hp. destruct (part_name key Hp) as (S & E1 & E2 & E3).
  set (name := key ++ ".part") in *.
  assert (Hne : is_empty name = false).
  { destruct name; [discriminate E1 | reflexivity]. }
  unfold Path.join, Path.normalize.
  destruct dir as [|d dir]; simpl is_empty; cbv iota.
  - rewrite (Worker.segments_no_slash name S).
    replace (Path.isAbsolute name) with false.
    + simpl. rewrite E1, E2, E3. reflexivity.
    + destruct name as [|c r]; [reflexivity|].
      cbn [all] in S. apply andb_true_iff in S as [Hc _].
      unfold Worker.no_slash in Hc. unfold Path.isAbsolute.
      rewrite startsWith_char, Ascii.eqb_sym.
      destruct (Ascii.eqb c "/"); [discriminate | reflexivity].
  - rewrite Hne.
    change (String d dir ++ "/" ++ name)
      with (String d dir ++ String "/" name).
    rewrite Path.segments_glue, (Worker.segments_no_slash name S).
    replace (Path.isAbsolute (String d dir ++ String "/" name))
      with (Path.isAbsolute (String d dir)).
    + apply resolve_last_segment; assumption.
    + unfold Path.isAbsolute. cbn [String.append].
      rewrite !startsWith_char. reflexivity.
Qed.

(** X29.  The scratch file of the progressive path is a direct child of the
    scratch directory, like the one of [downloadToTmp], and the two are
    never the same file, whatever the keys: what one path writes or
    unlinks is never the artifact the other path serves or has
    indexed. *)
Theorem scratch_files_are_disjoint
        (TMP_DIR : string) (now1 now2 : N) (root1 root2 : string) :
  partFile TMP_DIR (safeName now1 root1)
  = (Path.normalize TMP_DIR
       ++ [(safeName now1 root1 ++ ".part")%string])%list /\
  tmpFile TMP_DIR (safeName now2 root2)
  = (Path.normalize TMP_DIR ++ [safeName now2 root2])%list /\
  partFile TMP_DIR (safeName now1 root1)
  <> tmpFile TMP_DIR (safeName now2 root2).
Proof.
  pose proof (safeName_plain now1 root1) as P1.
  pose proof (safeName_plain now2 root2) as P2.
  assert (E1 := join_part TMP_DIR _ P1).
  assert (E2 := Path.join_plain TMP_DIR _ P2).
  unfold partFile, tmpFile. split; [exact E1|]. split; [exact E2|].
  rewrite E1, E2. intros X. apply app_inj_tail in X as [_ X].
  destruct P2 as [_ A]. rewrite <- X, all_app in A.
  apply andb_true_iff in A as [_ A]. discriminate A.
Qed.

End Scratch.

(** ** HEAD and GET on the same artifact *)

Module Probe.
Import Js RootHash Cache World Http Range Gateway.





End Probe.
